(** * Room event ingestion: roomserver/internal/input/input_events.go

    A shallow embedding of [processRoomEvent], [checkForMissingAuthEvents],
    [checkForMissingPrevEvents] and [calculateAndSetState].

    The Go code talks to its collaborators (the roomserver database [r.DB],
    the federation API [r.FSAPI], the auth helpers, the state resolver, the
    output producer, the logger) through method calls.  Each such call is an
    effect of a small free monad [prog]; a handler over an arbitrary world
    answers the calls, and [run] records every call with its answer in a
    trace.  Go's multiple return values are tuples whose last component is the
    [error] ([None] is [nil]); a run-time panic is an outcome of its own.
    Events are handled through pointers that are never nil, except
    [redactionEvent], which [StoreEvent] leaves nil when there is no
    redaction pairing.

    Not modelled: the Prometheus timer set up by the [defer] at the top of
    [processRoomEvent], the [context.Context] argument, and the structured
    fields attached to log entries.  A collaborator always answers: a panic
    raised inside a collaborator is outside the model.  The one nil pointer
    this code can hand on to be dereferenced is [redactionEvent], which
    [eventutil.RedactEvent] receives as [StoreEvent] reported it; the last
    section says exactly when it is nil there. *)

From stdpp Require Import base numbers strings option gmap list.

Local Open Scope Z_scope.
Local Open Scope string_scope.
Local Open Scope list_scope.

(** ** Data model *)

(** Go's [error] values.  [fmt.Errorf("ctx: %w", err)] is [Wrapf ctx err],
    [fmt.Errorf("ctx %s", arg)] is [Strf ctx arg]; an error made by a
    collaborator is whatever the handler answers, [Opaque] included. *)
Inductive error : Type :=
| Opaque (msg : string)
| Wrapf (ctx : string) (err : error)
| Strf (ctx : string) (arg : string).

(** types.EventNID, types.RoomNID, types.StateSnapshotNID, types.StateBlockNID
    are int64 identifiers; the code only copies and compares them. *)
Definition EventNID := Z.
Definition RoomNID := Z.
Definition StateSnapshotNID := Z.
Definition StateBlockNID := Z.
Definition RoomVersion := string.

(** gomatrixserverlib.Event, through the accessors this file uses. *)
Record Event : Type := mkEvent {
  EventID : string;
  RoomID : string;
  Type_ : string;
  Sender : string;
  AuthEventIDs : list string;
  Content : string;
  EventSHA256 : list Z   (* EventReference().EventSHA256, a byte slice *)
}.

(** gomatrixserverlib.HeaderedEvent: an event with its room version. *)
Record HeaderedEvent : Type := mkHeaderedEvent {
  RoomVersion_ : RoomVersion;
  Unwrap : Event
}.

(** types.Event as returned by [EventsFromIDs]. *)
Record types_Event : Type := mkTypesEvent {
  te_EventNID : EventNID;
  te_Event : Event
}.

(** gomatrixserverlib.EventIDFormat; [EventIDFormatV1] is the only constant
    the source names, the others fall under [default]. *)
Inductive EventIDFormat : Type :=
| EventIDFormatV1
| EventIDFormatV2
| EventIDFormatV3.

(** api.Kind *)
Inductive Kind : Type :=
| KindOutlier
| KindNew
| KindOld.

(** api.TransactionID, behind a pointer in the input. *)
Record TransactionID : Type := mkTransactionID {
  SessionID : Z;
  TransactionID_ : string
}.

(** api.InputRoomEvent *)
Record InputRoomEvent : Type := mkInput {
  Kind_ : Kind;
  Event_ : HeaderedEvent;
  in_AuthEventIDs : list string;
  HasState : bool;
  StateEventIDs : list string;
  SendAsServer : string;
  TransactionID_ptr : option TransactionID
}.

(** types.StateEntry *)
Record StateEntry : Type := mkStateEntry {
  StateKeyTupleNID : Z;
  se_EventNID : EventNID
}.

(** types.StateAtEvent; [sae_EventNID] is the promoted field
    [stateAtEvent.EventNID]. *)
Record StateAtEvent : Type := mkStateAtEvent {
  Overwrite : bool;
  BeforeStateSnapshotNID : StateSnapshotNID;
  sae_EventNID : EventNID
}.

(** types.RoomInfo *)
Record RoomInfo : Type := mkRoomInfo {
  ri_RoomNID : RoomNID;
  ri_RoomVersion : RoomVersion
}.

(** [redactionEvent.Headered(roomVersion)]: the redaction event is a pointer
    that may be nil, the header is built around it all the same. *)
Definition Headered (e : option Event) (v : RoomVersion)
  : RoomVersion * option Event := (v, e).

(** api.OutputEvent, a tagged union.  This file builds the old-room-event and
    the redacted-event variants; new-room-event entries are produced inside
    [updateLatestEvents]. *)
Inductive OutputEvent : Type :=
| OutputTypeNewRoomEvent (ev : HeaderedEvent)
| OutputTypeOldRoomEvent (ev : HeaderedEvent)
| OutputTypeRedactedEvent (RedactedEventID : string)
                          (RedactedBecause : RoomVersion * option Event).

Inductive LogLevel : Type := LvlDebug | LvlInfo | LvlError.

(** ** Calls to collaborators *)

Inductive Eff : Type -> Type :=
| DB_EventsFromIDs (eventIDs : list string)
  : Eff (list types_Event * option error)
| DB_EventNIDs (eventIDs : list string)
  : Eff (gmap string EventNID * option error)
| DB_StoreEvent (event : Event) (authEventNIDs : list EventNID)
                (isRejected : bool)
  : Eff (EventNID * StateAtEvent * option Event * string * option error)
| DB_RoomInfo (roomID : string)
  : Eff (option RoomInfo * option error)
| DB_GetMembershipEventNIDsForRoom (roomNID : RoomNID)
                                   (joinOnly localOnly : bool)
  : Eff (list EventNID * option error)
| DB_StateEntriesForEventIDs (eventIDs : list string)
  : Eff (list StateEntry * option error)
| DB_AddState (roomNID : RoomNID) (stateBlockNIDs : list StateBlockNID)
              (entries : list StateEntry)
  : Eff (StateSnapshotNID * option error)
| DB_SetState (eventNID : EventNID) (stateNID : StateSnapshotNID)
  : Eff (option error)
| FSAPI_QueryEventAuthFromFederation (roomID eventID : string)
  : Eff (list Event * option error)
| helpers_CheckAuthEvents (event : HeaderedEvent) (authEventIDs : list string)
  : Eff (list EventNID * option error)
| helpers_CheckForSoftFail (event : HeaderedEvent)
                           (stateEventIDs : list string)
  : Eff (bool * option error)
| eventutil_RedactEvent (redactionEvent : option Event) (redactedEvent : Event)
  : Eff (Event * option error)
| state_CalculateAndStoreStateBeforeEvent (roomInfo : RoomInfo) (event : Event)
                                          (isRejected : bool)
  : Eff (StateSnapshotNID * option error)
| updateLatestEvents (roomInfo : RoomInfo) (stateAtEvent : StateAtEvent)
                     (event : Event) (sendAsServer : string)
                     (transactionID : option TransactionID)
                     (rewritesState : bool)
  : Eff (option error)
| WriteOutputEvents (roomID : string) (updates : list OutputEvent)
  : Eff (option error)
| Log (level : LogLevel) (msg : string) (err : option error)
  : Eff unit.

(** ** The program monad *)

Inductive prog (R : Type) : Type :=
| Ret (r : R)
| Panic (msg : string)
| Vis {X : Type} (e : Eff X) (k : X -> prog R).

Arguments Ret {R} r.
Arguments Panic {R} msg.
Arguments Vis {R X} e k.

Fixpoint bind {A B : Type} (p : prog A) (f : A -> prog B) : prog B :=
  match p with
  | Ret a => f a
  | Panic msg => Panic msg
  | Vis e k => Vis e (fun x => bind (k x) f)
  end.

Definition call {X : Type} (e : Eff X) : prog X := Vis e Ret.

Declare Scope prog_scope.
Delimit Scope prog_scope with prog.
Notation "x ← y ; z" := (bind y (λ x, z))
  (at level 20, y at level 100, z at level 200, only parsing) : prog_scope.
Notation "' x ← y ; z" := (bind y (λ x, z))
  (at level 20, x pattern, y at level 100, z at level 200, only parsing)
  : prog_scope.
Local Open Scope prog_scope.

(** A call together with the answer it got. *)
Inductive Call : Type :=
| MkCall {X : Type} (e : Eff X) (x : X).

Inductive outcome (R : Type) : Type :=
| Returned (r : R)
| Panicked (msg : string).

Arguments Returned {R} r.
Arguments Panicked {R} msg.

(** The environment: a world and the answer it gives to each call. *)
Definition handler (W : Type) : Type := forall X : Type, Eff X -> W -> X * W.

Fixpoint run {W R : Type} (h : handler W) (p : prog R) (w : W)
  : outcome R * W * list Call :=
  match p with
  | Ret r => (Returned r, w, [])
  | Panic msg => (Panicked msg, w, [])
  | Vis e k =>
      let '(x, w1) := h _ e w in
      let '(o, w2, t) := run h (k x) w1 in
      (o, w2, MkCall e x :: t)
  end.

#[global] Instance Kind_eq_dec : EqDecision Kind.
Proof. solve_decision. Defined.

#[global] Instance EventIDFormat_eq_dec : EqDecision EventIDFormat.
Proof. solve_decision. Defined.

(** Assignments through the [*types.StateAtEvent] pointer. *)
Definition setOverwrite (b : bool) (s : StateAtEvent) : StateAtEvent :=
  {| Overwrite := b;
     BeforeStateSnapshotNID := BeforeStateSnapshotNID s;
     sae_EventNID := sae_EventNID s |}.

Definition setBeforeStateSnapshotNID (n : StateSnapshotNID) (s : StateAtEvent)
  : StateAtEvent :=
  {| Overwrite := Overwrite s;
     BeforeStateSnapshotNID := n;
     sae_EventNID := sae_EventNID s |}.

(** ** The functions of input_events.go *)

Section Ingest.

(** Pure library functions the file calls and does not define:
    [RoomVersion.EventIDFormat] and [ReverseTopologicalOrdering] (with
    [TopologicalOrderByAuthEvents]) of gomatrixserverlib, and
    [types.DeduplicateStateEntries]. *)
Variable RoomVersion_EventIDFormat : RoomVersion -> EventIDFormat * option error.
Variable ReverseTopologicalOrdering : list Event -> list Event.
Variable DeduplicateStateEntries : list StateEntry -> list StateEntry.

(** The body of the loop at lines 281-324, over the events still to visit.
    [cache] is the Go map shared with the caller; [known ∪ cache] is the
    map after [cache[k] = v] for every [k, v] of [known].  A lookup
    [cache[id]] of an absent key yields the zero EventNID. *)
Fixpoint storeAuthChain (events : list Event) (cache : gmap string EventNID)
  : prog (gmap string EventNID * option error) :=
  match events with
  | [] => Ret (cache, None)
  | event :: rest =>
      let neededAuthEventNIDs :=
        filter (λ authEventID, cache !! authEventID = None)
               (AuthEventIDs event) in
      '(cache, err) ←
        match neededAuthEventNIDs with
        | [] => Ret (cache, None)
        | _ :: _ =>
            '(newAuthEventNIDs, err) ← call (DB_EventNIDs neededAuthEventNIDs);
            match err with
            | Some e => Ret (cache, Some (Wrapf "r.DB.EventNIDs" e))
            | None => Ret (newAuthEventNIDs ∪ cache, None)
            end
        end;
      match err with
      | Some e => Ret (cache, Some e)
      | None =>
          let authEventNIDsForEvent :=
            (λ authEventID, default 0 (cache !! authEventID))
              <$> AuthEventIDs event in
          if negb (length authEventNIDsForEvent
                   =? length (AuthEventIDs event))%nat
          then Ret (cache, Some (Strf "missing auth event NIDs for event"
                                      (EventID event)))
          else
            '(_, _, _, _, err) ←
              call (DB_StoreEvent event authEventNIDsForEvent false);
            match err with
            | Some e => Ret (cache, Some (Wrapf "r.DB.StoreEvent" e))
            | None => storeAuthChain rest cache
            end
      end
  end.

(** Lines 246-328.  Returns the cache as the call leaves it, and the error. *)
Definition checkForMissingAuthEvents
    (event : HeaderedEvent) (cache : gmap string EventNID)
  : prog (gmap string EventNID * option error) :=
  let authEventIDs := AuthEventIDs (Unwrap event) in
  match authEventIDs with
  | [] => Ret (cache, None)
  | _ :: _ =>
      '(knownAuthEventNIDs, err) ← call (DB_EventNIDs authEventIDs);
      match err with
      | Some e => Ret (cache, Some (Wrapf "r.DB.EventNIDs" e))
      | None =>
          let cache := knownAuthEventNIDs ∪ cache in
          (* make([]string, 0, len(authEventIDs)-len(knownAuthEventNIDs)) *)
          if (Z.of_nat (length authEventIDs)
              - Z.of_nat (size knownAuthEventNIDs) <? 0)%Z
          then Panic "makeslice: cap out of range"
          else
            let missingAuthEventIDs :=
              filter (λ authEventID, knownAuthEventNIDs !! authEventID = None)
                     authEventIDs in
            match missingAuthEventIDs with
            | [] => Ret (cache, None)
            | _ :: _ =>
                '(res_Events, err) ←
                  call (FSAPI_QueryEventAuthFromFederation
                          (RoomID (Unwrap event)) (EventID (Unwrap event)));
                match err with
                | Some e =>
                    Ret (cache,
                         Some (Wrapf "r.FSAPI.QueryEventAuthFromFederation" e))
                | None =>
                    storeAuthChain (ReverseTopologicalOrdering res_Events) cache
                end
            end
      end
  end.

(** Lines 330-336. *)
Definition checkForMissingPrevEvents (input : InputRoomEvent)
  : prog (option error) :=
  Ret None.

(** Lines 338-386.  Returns [*stateAtEvent] as the call leaves it, and the
    error. *)
Definition calculateAndSetState
    (input : InputRoomEvent) (roomInfo : RoomInfo)
    (stateAtEvent : StateAtEvent) (event : Event) (isRejected : bool)
  : prog (StateAtEvent * option error) :=
  '(stateAtEvent, err) ←
    (if HasState input && negb isRejected then
       let stateAtEvent := setOverwrite true stateAtEvent in
       '(joinEventNIDs, err) ←
         call (DB_GetMembershipEventNIDsForRoom (ri_RoomNID roomInfo) true true);
       let stateAtEvent :=
         match err with
         | None => setOverwrite (length joinEventNIDs =? 0)%nat stateAtEvent
         | Some _ => stateAtEvent
         end in
       '(entries, err) ←
         call (DB_StateEntriesForEventIDs (StateEventIDs input));
       match err with
       | Some e =>
           Ret (stateAtEvent, Some (Wrapf "r.DB.StateEntriesForEventIDs" e))
       | None =>
           let entries := DeduplicateStateEntries entries in
           '(nid, err) ← call (DB_AddState (ri_RoomNID roomInfo) [] entries);
           let stateAtEvent := setBeforeStateSnapshotNID nid stateAtEvent in
           match err with
           | Some e => Ret (stateAtEvent, Some (Wrapf "r.DB.AddState" e))
           | None => Ret (stateAtEvent, None)
           end
       end
     else
       let stateAtEvent := setOverwrite false stateAtEvent in
       '(nid, err) ←
         call (state_CalculateAndStoreStateBeforeEvent roomInfo event isRejected);
       let stateAtEvent := setBeforeStateSnapshotNID nid stateAtEvent in
       match err with
       | Some e =>
           Ret (stateAtEvent,
                Some (Wrapf "roomState.CalculateAndStoreStateBeforeEvent" e))
       | None => Ret (stateAtEvent, None)
       end);
  match err with
  | Some e => Ret (stateAtEvent, Some e)
  | None =>
      err ← call (DB_SetState (sae_EventNID stateAtEvent)
                              (BeforeStateSnapshotNID stateAtEvent));
      match err with
      | Some e => Ret (stateAtEvent, Some (Wrapf "r.DB.SetState" e))
      | None => Ret (stateAtEvent, None)
      end
  end.

(** [processRoomEvent], lines 63-244, in three consecutive segments: the
    outlier check (lines 76-100, [processRoomEvent] itself), the checks up to
    the soft-fail check (lines 102-137, [processRoomEvent_ingest]) and the
    rest from [StoreEvent] on (lines 139-244, [processRoomEvent_store]),
    which takes the local variables alive at line 139.  An early [return]
    inside a conditional block is the [inl] of the block's result; the code
    after the block runs on [inr]. *)

(** Lines 139-244. *)
Definition processRoomEvent_store
    (input : InputRoomEvent) (authEventNIDs : list EventNID)
    (rejectionErr : option error) (isRejected softfail : bool)
  : prog (string * option error) :=
  let headered := Event_ input in
  let event := Unwrap headered in
  (* lines 140-143 *)
  '(_, stateAtEvent, redactionEvent, redactedEventID, err) ←
    call (DB_StoreEvent event authEventNIDs isRejected);
  match err with
  | Some e => Ret ("", Some (Wrapf "r.DB.StoreEvent" e))
  | None =>
  (* lines 146-152 *)
  redacted ←
    (if negb isRejected && (redactedEventID =? EventID event)%string then
       '(r, rerr) ← call (eventutil_RedactEvent redactionEvent event);
       match rerr with
       | Some e => Ret (inl ("", Some (Wrapf "eventutil.RedactEvent" e)))
       | None => Ret (inr r)
       end
     else Ret (inr event)
     : prog ((string * option error) + Event));
  match redacted with
  | inl res => Ret res
  | inr event =>
  (* lines 157-165 *)
  match Kind_ input with
  | KindOutlier =>
      _ ← call (Log LvlDebug "Stored outlier" None);
      Ret (EventID event, None)
  | _ =>
  (* lines 167-173 *)
  '(roomInfo, err) ← call (DB_RoomInfo (RoomID event));
  match err with
  | Some e => Ret ("", Some (Wrapf "r.DB.RoomInfo" e))
  | None =>
  match roomInfo with
  | None => Ret ("", Some (Strf "r.DB.RoomInfo missing for room" (RoomID event)))
  | Some roomInfo =>
  (* lines 175-182 *)
  state ←
    (if (BeforeStateSnapshotNID stateAtEvent =? 0)%Z then
       '(stateAtEvent, err) ←
         calculateAndSetState input roomInfo stateAtEvent event isRejected;
       match err with
       | Some e =>
           if bool_decide (Kind_ input ≠ KindOld)
           then Ret (inl ("", Some (Wrapf "r.calculateAndSetState" e)))
           else Ret (inr stateAtEvent)
       | None => Ret (inr stateAtEvent)
       end
     else Ret (inr stateAtEvent)
     : prog ((string * option error) + StateAtEvent));
  match state with
  | inl res => Ret res
  | inr stateAtEvent =>
  (* lines 185-194 *)
  if isRejected || softfail then
    _ ← call (Log LvlDebug "Stored rejected event" None);
    Ret (EventID event, rejectionErr)
  else
  (* lines 196-221 *)
  err ←
    (match Kind_ input with
     | KindNew =>
         err ← call (updateLatestEvents roomInfo stateAtEvent event
                       (SendAsServer input) (TransactionID_ptr input)
                       (HasState input));
         Ret (Wrapf "r.updateLatestEvents" <$> err)
     | KindOld =>
         err ← call (WriteOutputEvents (RoomID event)
                       [OutputTypeOldRoomEvent headered]);
         Ret (Wrapf "r.WriteOutputEvents (old)" <$> err)
     | KindOutlier => Ret None
     end : prog (option error));
  match err with
  | Some e => Ret ("", Some e)
  | None =>
  (* lines 227-240 *)
  err ←
    (if negb (redactedEventID =? "")%string then
       err ← call (WriteOutputEvents (RoomID event)
                     [OutputTypeRedactedEvent redactedEventID
                        (Headered redactionEvent (RoomVersion_ headered))]);
       Ret (Wrapf "r.WriteOutputEvents (redactions)" <$> err)
     else Ret None
     : prog (option error));
  match err with
  | Some e => Ret ("", Some e)
  | None => Ret (EventID event, None)
  end end end end end end end end.

(** Lines 102-137. *)
Definition processRoomEvent_ingest (input : InputRoomEvent)
  : prog (string * option error) :=
  let headered := Event_ input in
  let event := Unwrap headered in
  (* lines 104-107 *)
  '(_, err) ← checkForMissingAuthEvents headered ∅;
  match err with
  | Some e =>
      _ ← call (Log LvlError "XXX: r.checkForMissingAuthEvents" (Some e));
      Ret ("", Some (Wrapf "r.checkForMissingAuthEvents" e))
  | None =>
  (* lines 111-116 *)
  '(authEventNIDs, rejectionErr) ←
    call (helpers_CheckAuthEvents headered (in_AuthEventIDs input));
  isRejected ←
    (match rejectionErr with
     | Some e =>
         _ ← call (Log LvlError
                     "helpers.CheckAuthEvents failed for event, rejecting event"
                     (Some e));
         Ret true
     | None => Ret false
     end : prog bool);
  (* lines 120-122 *)
  err ← checkForMissingPrevEvents input;
  match err with
  | Some e => Ret ("", Some (Wrapf "r.checkForMissingPrevEvents" e))
  | None =>
  (* lines 124-137 *)
  softfail ←
    (match Kind_ input with
     | KindNew =>
         '(softfail, err) ←
           call (helpers_CheckForSoftFail headered (StateEventIDs input));
         match err with
         | Some e =>
             _ ← call (Log LvlInfo "Error authing soft-failed event" (Some e));
             Ret softfail
         | None => Ret softfail
         end
     | _ => Ret false
     end : prog bool);
  processRoomEvent_store input authEventNIDs rejectionErr isRejected softfail
  end end.

(** Lines 63-100, then the rest of the function. *)
Definition processRoomEvent (input : InputRoomEvent)
  : prog (string * option error) :=
  let headered := Event_ input in
  let event := Unwrap headered in
  (* lines 82-100 *)
  alreadyProcessed ←
    (match Kind_ input with
     | KindOutlier =>
         '(evs, err2) ← call (DB_EventsFromIDs [EventID event]);
         match err2, evs with
         | None, [ev0] =>
             let '(idFormat, err2) :=
               RoomVersion_EventIDFormat (RoomVersion_ headered) in
             match err2 with
             | None =>
                 match idFormat with
                 | EventIDFormatV1 =>
                     if bool_decide (EventSHA256 event
                                     = EventSHA256 (te_Event ev0))
                     then
                       _ ← call (Log LvlInfo
                                   "Already processed event; ignoring" None);
                       Ret true
                     else Ret false
                 | _ =>
                     _ ← call (Log LvlInfo
                                 "Already processed event; ignoring" None);
                     Ret true
                 end
             | Some _ => Ret false
             end
         | _, _ => Ret false
         end
     | _ => Ret false
     end : prog bool);
  if (alreadyProcessed : bool) then Ret (EventID event, None)
  else processRoomEvent_ingest input.

End Ingest.

(** ** Observations on traces *)

(** Results of a run. *)
Definition result {W R : Type} (x : outcome R * W * list Call) : outcome R :=
  x.1.1.
Definition trace {W R : Type} (x : outcome R * W * list Call) : list Call :=
  x.2.

(** The arguments of a [StoreEvent] call, and the call with its answer. *)
Definition storeEventCall (c : Call) : option (Event * list EventNID * bool) :=
  match c with
  | MkCall e _ =>
      match e with
      | DB_StoreEvent ev nids rej => Some (ev, nids, rej)
      | _ => None
      end
  end.

Definition storeEventAnswer (c : Call)
  : option (EventNID * StateAtEvent * option Event * string * option error) :=
  match c with
  | MkCall e x =>
      match e in Eff X return X -> option _ with
      | DB_StoreEvent _ _ _ => fun x => Some x
      | _ => fun _ => None
      end x
  end.

Definition federationCall (c : Call) : option (string * string) :=
  match c with
  | MkCall e _ =>
      match e with
      | FSAPI_QueryEventAuthFromFederation room ev => Some (room, ev)
      | _ => None
      end
  end.

Definition authCheckAnswer (c : Call) : option (list EventNID * option error) :=
  match c with
  | MkCall e x =>
      match e in Eff X return X -> option _ with
      | helpers_CheckAuthEvents _ _ => fun x => Some x
      | _ => fun _ => None
      end x
  end.

Definition softFailAnswer (c : Call) : option (bool * option error) :=
  match c with
  | MkCall e x =>
      match e in Eff X return X -> option _ with
      | helpers_CheckForSoftFail _ _ => fun x => Some x
      | _ => fun _ => None
      end x
  end.

Definition redactCall (c : Call)
  : option (option Event * Event * (Event * option error)) :=
  match c with
  | MkCall e x =>
      match e in Eff X return X -> option _ with
      | eventutil_RedactEvent rev ev => fun x => Some (rev, ev, x)
      | _ => fun _ => None
      end x
  end.

Definition setStateCall (c : Call)
  : option (EventNID * StateSnapshotNID * option error) :=
  match c with
  | MkCall e x =>
      match e in Eff X return X -> option _ with
      | DB_SetState nid snap => fun x => Some (nid, snap, x)
      | _ => fun _ => None
      end x
  end.

(** What reaches the room's consumers: a forward-extremity update (which
    produces the new-room-event entry) or entries written to the output log. *)
Inductive Emission : Type :=
| LatestEventsUpdate (roomInfo : RoomInfo) (stateAtEvent : StateAtEvent)
                     (event : Event) (sendAsServer : string)
                     (transactionID : option TransactionID)
                     (rewritesState : bool)
| OutputWrite (roomID : string) (updates : list OutputEvent).

Definition emission (c : Call) : option Emission :=
  match c with
  | MkCall e _ =>
      match e with
      | updateLatestEvents ri sae ev sas tid rw =>
          Some (LatestEventsUpdate ri sae ev sas tid rw)
      | WriteOutputEvents room ups => Some (OutputWrite room ups)
      | _ => None
      end
  end.

Definition stored (t : list Call) := omap storeEventCall t.
Definition storeAnswers (t : list Call) := omap storeEventAnswer t.
Definition federationQueries (t : list Call) := omap federationCall t.
Definition authChecks (t : list Call) := omap authCheckAnswer t.
Definition softFailChecks (t : list Call) := omap softFailAnswer t.
Definition redactions (t : list Call) := omap redactCall t.
Definition setStates (t : list Call) := omap setStateCall t.
Definition emissions (t : list Call) := omap emission t.

(** A collaborator call that came back with an error, or a room lookup that
    found no room.  The verdicts of the two auth checks and log entries are
    not failures. *)
Definition failed (c : Call) : bool :=
  match c with
  | MkCall e x =>
      match e in Eff X return X -> bool with
      | DB_EventsFromIDs _ => fun x => bool_decide (x.2 ≠ None)
      | DB_EventNIDs _ => fun x => bool_decide (x.2 ≠ None)
      | DB_StoreEvent _ _ _ => fun x => bool_decide (x.2 ≠ None)
      | DB_RoomInfo _ => fun x => bool_decide (x.2 ≠ None ∨ x.1 = None)
      | DB_GetMembershipEventNIDsForRoom _ _ _ => fun x => bool_decide (x.2 ≠ None)
      | DB_StateEntriesForEventIDs _ => fun x => bool_decide (x.2 ≠ None)
      | DB_AddState _ _ _ => fun x => bool_decide (x.2 ≠ None)
      | DB_SetState _ _ => fun x => bool_decide (x ≠ None)
      | FSAPI_QueryEventAuthFromFederation _ _ => fun x => bool_decide (x.2 ≠ None)
      | helpers_CheckAuthEvents _ _ => fun _ => false
      | helpers_CheckForSoftFail _ _ => fun _ => false
      | eventutil_RedactEvent _ _ => fun x => bool_decide (x.2 ≠ None)
      | state_CalculateAndStoreStateBeforeEvent _ _ _ =>
          fun x => bool_decide (x.2 ≠ None)
      | updateLatestEvents _ _ _ _ _ _ => fun x => bool_decide (x ≠ None)
      | WriteOutputEvents _ _ => fun x => bool_decide (x ≠ None)
      | Log _ _ _ => fun _ => false
      end x
  end.

Definition noFailure (t : list Call) : bool := forallb (λ c, negb (failed c)) t.

(** A snapshot computed by the Store or the state resolver without error. *)
Definition computedSnapshot (c : Call) : option StateSnapshotNID :=
  match c with
  | MkCall e x =>
      match e in Eff X return X -> option _ with
      | DB_AddState _ _ _ =>
          fun x => match x.2 with None => Some x.1 | Some _ => None end
      | state_CalculateAndStoreStateBeforeEvent _ _ _ =>
          fun x => match x.2 with None => Some x.1 | Some _ => None end
      | _ => fun _ => None
      end x
  end.

(** The event a state computation or an extremity update works on, and the
    room a room lookup or an output write is addressed to. *)
Definition subjectEvent (c : Call) : option Event :=
  match c with
  | MkCall e _ =>
      match e with
      | state_CalculateAndStoreStateBeforeEvent _ ev _ => Some ev
      | updateLatestEvents _ _ ev _ _ _ => Some ev
      | _ => None
      end
  end.

Definition subjectRoom (c : Call) : option string :=
  match c with
  | MkCall e _ =>
      match e with
      | DB_RoomInfo room => Some room
      | WriteOutputEvents room _ => Some room
      | _ => None
      end
  end.

Definition computedSnapshots (t : list Call) := omap computedSnapshot t.
Definition subjectEvents (t : list Call) := omap subjectEvent t.
Definition subjectRooms (t : list Call) := omap subjectRoom t.

(** The arguments of an [AddState] call. *)
Definition addStateCall (c : Call)
  : option (RoomNID * list StateBlockNID * list StateEntry) :=
  match c with
  | MkCall e _ =>
      match e with
      | DB_AddState room blocks entries => Some (room, blocks, entries)
      | _ => None
      end
  end.

Definition addStates (t : list Call) := omap addStateCall t.

(** ** The phases of a run *)

(** The calls the missing-ancestor resolver may issue: NID lookups, the
    federation query, and [StoreEvent] with [isRejected = false]. *)
Definition resolverCall (c : Call) : bool :=
  match c with
  | MkCall e _ =>
      match e with
      | DB_EventNIDs _ => true
      | FSAPI_QueryEventAuthFromFederation _ _ => true
      | DB_StoreEvent _ _ rej => negb rej
      | _ => false
      end
  end.

(** An error the resolver surfaces from a collaborator is wrapped with the
    name of the failing call. *)
Definition wrapped (err : option error) : Prop :=
  err = None ∨ ∃ ctx e, err = Some (Wrapf ctx e).

(** [isRejected] as lines 111-116 set it from [rejectionErr]. *)
Definition rejected (rejectionErr : option error) : bool :=
  match rejectionErr with Some _ => true | None => false end.

(** The trace of lines 111-116 and of lines 124-137, given the answers. *)
Definition authTrace (input : InputRoomEvent) (authEventNIDs : list EventNID)
    (rejectionErr : option error) : list Call :=
  MkCall (helpers_CheckAuthEvents (Event_ input) (in_AuthEventIDs input))
         (authEventNIDs, rejectionErr)
  :: match rejectionErr with
     | Some e =>
         [MkCall (Log LvlError
                    "helpers.CheckAuthEvents failed for event, rejecting event"
                    (Some e)) tt]
     | None => []
     end.

Definition softFailTrace (input : InputRoomEvent) (softfail : bool)
    (err : option error) : list Call :=
  match Kind_ input with
  | KindNew =>
      MkCall (helpers_CheckForSoftFail (Event_ input) (StateEventIDs input))
             (softfail, err)
      :: match err with
         | Some e =>
             [MkCall (Log LvlInfo "Error authing soft-failed event" (Some e)) tt]
         | None => []
         end
  | _ => []
  end.

(** The calls made before the declared-auth check: the outlier lookup, the
    resolver's calls, and log entries. *)
Definition frontCall (c : Call) : bool :=
  resolverCall c
  || match c with
     | MkCall e _ =>
         match e with
         | DB_EventsFromIDs _ => true
         | Log _ _ _ => true
         | _ => false
         end
     end.

(** The two ways a run of [processRoomEvent] can go.  It stops before the
    declared-auth check: a panic or an error out of the resolver, or the
    early return for an outlier already processed.  Or it reaches line 139:
    the trace is the front calls, the two auth checks, and the trace of
    [processRoomEvent_store] on the variables those checks have set. *)
Definition stopsEarly {W : Type} (input : InputRoomEvent)
    (r : outcome (string * option error) * W * list Call) : Prop :=
  Forall (λ c, frontCall c = true) (trace r)
  ∧ ((∃ m, result r = Panicked m)
     ∨ (∃ e, result r = Returned ("", Some e))
     ∨ (Kind_ input = KindOutlier
        ∧ result r = Returned (EventID (Unwrap (Event_ input)), None))).

Definition reachesStore {W : Type} (h : handler W)
    (DeduplicateStateEntries : list StateEntry -> list StateEntry)
    (input : InputRoomEvent)
    (r : outcome (string * option error) * W * list Call) : Prop :=
  ∃ t0 nids rejErr sf serr w1,
    Forall (λ c, frontCall c = true) t0
    ∧ (Kind_ input ≠ KindNew → sf = false)
    ∧ r = (let '(o, w2, t) :=
             run h (processRoomEvent_store DeduplicateStateEntries input
                      nids rejErr (rejected rejErr) sf) w1 in
           (o, w2,
            t0 ++ authTrace input nids rejErr
               ++ softFailTrace input sf serr ++ t)).

(** The emission of lines 196-221 for the input's kind, on [event]. *)
Definition dispatchFor (input : InputRoomEvent) (event : Event) (d : Emission)
  : Prop :=
  match Kind_ input with
  | KindNew =>
      ∃ roomInfo stateAtEvent,
        d = LatestEventsUpdate roomInfo stateAtEvent event (SendAsServer input)
              (TransactionID_ptr input) (HasState input)
  | KindOld =>
      d = OutputWrite (RoomID event) [OutputTypeOldRoomEvent (Event_ input)]
  | KindOutlier => False
  end.

(** The emission of lines 227-240. *)
Definition redactionOutput (input : InputRoomEvent) (event : Event)
    (redactionEvent : option Event) (redactedEventID : string) : Emission :=
  OutputWrite (RoomID event)
    [OutputTypeRedactedEvent redactedEventID
       (Headered redactionEvent (RoomVersion_ (Event_ input)))].

(** ** An in-memory environment *)

(** A store that interns events in arrival order, a federation peer with a
    fixed answer, and auth helpers, a state resolver and a redactor whose
    behaviour is fixed by a [Script].  Used to run the functions on concrete
    inputs. *)
Record Script : Type := mkScript {
  peerAuthChain : list Event;             (* what the federation peer returns *)
  authVerdict : option error;             (* CheckAuthEvents' rejection error *)
  softFailVerdict : bool * option error;  (* CheckForSoftFail's two results *)
  storeRedaction : option Event * string; (* pairing reported by StoreEvent *)
  storeSnapshot : StateSnapshotNID;       (* BeforeStateSnapshotNID at StoreEvent *)
  stateResolutionFails : bool;            (* CalculateAndStoreStateBeforeEvent *)
  membershipLookupFails : bool;           (* GetMembershipEventNIDsForRoom *)
  joinedLocalUsers : list EventNID        (* join events of local users *)
}.

Record World : Type := mkWorld {
  interned : gmap string types_Event;     (* stored events by event ID *)
  nextNID : EventNID;
  bound : list (EventNID * StateSnapshotNID);  (* SetState bindings *)
  extremityUpdates : list Event;          (* events passed to updateLatestEvents *)
  outputLog : list (string * list OutputEvent)
}.

Definition emptyWorld : World :=
  {| interned := ∅; nextNID := 1; bound := []; extremityUpdates := [];
     outputLog := [] |}.

Definition knownNIDs (w : World) (ids : list string) : gmap string EventNID :=
  list_to_map
    (omap (λ id, (λ te, (id, te_EventNID te)) <$> interned w !! id) ids).

Definition internEvent (ev : Event) (w : World) : EventNID * World :=
  match interned w !! EventID ev with
  | Some te => (te_EventNID te, w)
  | None =>
      (nextNID w,
       {| interned := <[EventID ev := mkTypesEvent (nextNID w) ev]> (interned w);
          nextNID := nextNID w + 1;
          bound := bound w;
          extremityUpdates := extremityUpdates w;
          outputLog := outputLog w |})
  end.

Definition memory (s : Script) : handler World :=
  fun X e w =>
    match e in Eff X return X * World with
    | DB_EventsFromIDs ids => ((omap (λ id, interned w !! id) ids, None), w)
    | DB_EventNIDs ids => ((knownNIDs w ids, None), w)
    | DB_StoreEvent ev nids rej =>
        let '(nid, w1) := internEvent ev w in
        ((nid,
          {| Overwrite := false; BeforeStateSnapshotNID := storeSnapshot s;
             sae_EventNID := nid |},
          (storeRedaction s).1, (storeRedaction s).2, None), w1)
    | DB_RoomInfo room =>
        ((Some {| ri_RoomNID := 1; ri_RoomVersion := "1" |}, None), w)
    | DB_GetMembershipEventNIDsForRoom _ _ _ =>
        (* a failing lookup breaks off after the first row *)
        if membershipLookupFails s
        then ((take 1 (joinedLocalUsers s),
               Some (Opaque "sql: connection is closed")), w)
        else ((joinedLocalUsers s, None), w)
    | DB_StateEntriesForEventIDs ids =>
        ((omap (λ id, (λ te, mkStateEntry 1 (te_EventNID te))
                        <$> interned w !! id) ids, None), w)
    | DB_AddState _ _ _ => ((42, None), w)
    | DB_SetState nid snap =>
        (None,
         {| interned := interned w; nextNID := nextNID w;
            bound := bound w ++ [(nid, snap)];
            extremityUpdates := extremityUpdates w;
            outputLog := outputLog w |})
    | FSAPI_QueryEventAuthFromFederation _ _ => ((peerAuthChain s, None), w)
    | helpers_CheckAuthEvents hd ids =>
        ((omap (λ id, te_EventNID <$> interned w !! id)
               (AuthEventIDs (Unwrap hd)), authVerdict s), w)
    | helpers_CheckForSoftFail _ _ => (softFailVerdict s, w)
    | eventutil_RedactEvent _ ev =>
        (({| EventID := EventID ev; RoomID := RoomID ev; Type_ := Type_ ev;
             Sender := Sender ev; AuthEventIDs := AuthEventIDs ev;
             Content := "{}"; EventSHA256 := EventSHA256 ev |}, None), w)
    | state_CalculateAndStoreStateBeforeEvent _ _ _ =>
        if stateResolutionFails s
        then ((0, Some (Opaque "missing state for prev_events")), w)
        else ((43, None), w)
    | updateLatestEvents _ _ ev _ _ _ =>
        (None,
         {| interned := interned w; nextNID := nextNID w; bound := bound w;
            extremityUpdates := extremityUpdates w ++ [ev];
            outputLog := outputLog w
                         ++ [(RoomID ev,
                              [OutputTypeNewRoomEvent
                                 (mkHeaderedEvent "1" ev)])] |})
    | WriteOutputEvents room ups =>
        (None,
         {| interned := interned w; nextNID := nextNID w; bound := bound w;
            extremityUpdates := extremityUpdates w;
            outputLog := outputLog w ++ [(room, ups)] |})
    | Log _ _ _ => (tt, w)
    end.

(** Library functions for the concrete runs: room versions "1" and "2" use
    the v1 event-ID format, "3" the v2 format, "4" and later known ones the v3
    format; the peer's chain is taken in the order given; state entries are
    kept as they are. *)
Definition demoEventIDFormat (v : RoomVersion) : EventIDFormat * option error :=
  if bool_decide (v = "1" ∨ v = "2") then (EventIDFormatV1, None)
  else if bool_decide (v = "3") then (EventIDFormatV2, None)
  else if bool_decide (v = "4" ∨ v = "5" ∨ v = "6") then (EventIDFormatV3, None)
  else (EventIDFormatV1, Some (Opaque "unsupported room version")).

Definition demoOrdering (evs : list Event) : list Event := evs.
Definition demoDedup (es : list StateEntry) : list StateEntry := es.

Definition demoEvent (id : string) (auth : list string) : Event :=
  {| EventID := id; RoomID := "!room:host"; Type_ := "m.room.message";
     Sender := "@alice:host"; AuthEventIDs := auth; Content := "{body}";
     EventSHA256 := [1; 2; 3] |}.

Definition demoInput (k : Kind) (ev : Event) : InputRoomEvent :=
  {| Kind_ := k; Event_ := mkHeaderedEvent "1" ev; in_AuthEventIDs := [];
     HasState := false; StateEventIDs := []; SendAsServer := "";
     TransactionID_ptr := None |}.

(** An input that carries the state at the event. *)
Definition demoStateInput (k : Kind) (ev : Event) (state : list string)
  : InputRoomEvent :=
  {| Kind_ := k; Event_ := mkHeaderedEvent "1" ev; in_AuthEventIDs := [];
     HasState := true; StateEventIDs := state; SendAsServer := "";
     TransactionID_ptr := None |}.

(** A world in which the event "$A" is already stored. *)
Definition worldWithA : World := (internEvent (demoEvent "$A" []) emptyWorld).2.

(** The Store pairs the stored event with the redaction "$R" that targets the
    event "$E". *)
Definition redactionOfE : Event :=
  {| EventID := "$R"; RoomID := "!room:host"; Type_ := "m.room.redaction";
     Sender := "@mod:host"; AuthEventIDs := []; Content := "{redacts $E}";
     EventSHA256 := [4; 5; 6] |}.

Definition quietScript : Script :=
  {| peerAuthChain := []; authVerdict := None; softFailVerdict := (false, None);
     storeRedaction := (None, ""); storeSnapshot := 0;
     stateResolutionFails := false; membershipLookupFails := false;
     joinedLocalUsers := [] |}.

(** The peer answers with the single event "$B", whose auth event "$X" is
    stored nowhere. *)
Definition incompleteChainScript : Script :=
  {| peerAuthChain := [demoEvent "$B" ["$X"]]; authVerdict := None;
     softFailVerdict := (false, None); storeRedaction := (None, "");
     storeSnapshot := 0; stateResolutionFails := false;
     membershipLookupFails := false; joinedLocalUsers := [] |}.


(** The event passes the declared-auth check and soft-fails against the
    current room state. *)
Definition softFailingScript : Script :=
  {| peerAuthChain := []; authVerdict := None;
     softFailVerdict := (true, None); storeRedaction := (None, "");
     storeSnapshot := 0; stateResolutionFails := false;
     membershipLookupFails := false; joinedLocalUsers := [] |}.

(** The soft-fail check answers "not soft-failed" together with an error. *)
Definition softFailErrorScript : Script :=
  {| peerAuthChain := []; authVerdict := None;
     softFailVerdict := (false, Some (Opaque "state event not found"));
     storeRedaction := (None, ""); storeSnapshot := 0;
     stateResolutionFails := false; membershipLookupFails := false;
     joinedLocalUsers := [] |}.

(** The state resolver cannot compute the state before the event. *)
Definition stateFailureScript : Script :=
  {| peerAuthChain := []; authVerdict := None;
     softFailVerdict := (false, None); storeRedaction := (None, "");
     storeSnapshot := 0; stateResolutionFails := true;
     membershipLookupFails := false; joinedLocalUsers := [] |}.

Definition redactingScript : Script :=
  {| peerAuthChain := []; authVerdict := None;
     softFailVerdict := (false, None);
     storeRedaction := (Some redactionOfE, "$E");
     storeSnapshot := 0; stateResolutionFails := false;
     membershipLookupFails := false; joinedLocalUsers := [] |}.

(** The same pairing reported for an event the declared-auth check rejects. *)
Definition rejectedRedactingScript : Script :=
  {| peerAuthChain := []; authVerdict := Some (Opaque "sender is not joined");
     softFailVerdict := (false, None);
     storeRedaction := (Some redactionOfE, "$E");
     storeSnapshot := 0; stateResolutionFails := false;
     membershipLookupFails := false; joinedLocalUsers := [] |}.

(** Two local users are joined to the room, and the membership lookup
    fails. *)
Definition membershipFailureScript : Script :=
  {| peerAuthChain := []; authVerdict := None;
     softFailVerdict := (false, None); storeRedaction := (None, "");
     storeSnapshot := 0; stateResolutionFails := false;
     membershipLookupFails := true; joinedLocalUsers := [7; 8] |}.

(** ** Further observations *)

Definition federationAnswer (c : Call) : option (list Event * option error) :=
  match c with
  | MkCall e x =>
      match e in Eff X return X -> option _ with
      | FSAPI_QueryEventAuthFromFederation _ _ => fun x => Some x
      | _ => fun _ => None
      end x
  end.

Definition nidLookup (c : Call) : option (list string) :=
  match c with
  | MkCall e _ =>
      match e with
      | DB_EventNIDs ids => Some ids
      | _ => None
      end
  end.

Definition eventsFromIDsCall (c : Call) : option (list string) :=
  match c with
  | MkCall e _ =>
      match e with
      | DB_EventsFromIDs ids => Some ids
      | _ => None
      end
  end.

Definition roomInfoAnswer (c : Call)
  : option (string * (option RoomInfo * option error)) :=
  match c with
  | MkCall e x =>
      match e in Eff X return X -> option _ with
      | DB_RoomInfo room => fun x => Some (room, x)
      | _ => fun _ => None
      end x
  end.

Definition stateCalcCall (c : Call) : option (RoomInfo * Event * bool) :=
  match c with
  | MkCall e _ =>
      match e with
      | state_CalculateAndStoreStateBeforeEvent ri ev rej => Some (ri, ev, rej)
      | _ => None
      end
  end.

Definition membershipCall (c : Call) : option (RoomNID * bool * bool) :=
  match c with
  | MkCall e _ =>
      match e with
      | DB_GetMembershipEventNIDsForRoom room joinOnly localOnly =>
          Some (room, joinOnly, localOnly)
      | _ => None
      end
  end.

Definition federationAnswers (t : list Call) := omap federationAnswer t.
Definition nidLookups (t : list Call) := omap nidLookup t.
Definition eventsFromIDsCalls (t : list Call) := omap eventsFromIDsCall t.
Definition roomInfoAnswers (t : list Call) := omap roomInfoAnswer t.
Definition stateCalcs (t : list Call) := omap stateCalcCall t.
Definition membershipLookups (t : list Call) := omap membershipCall t.

(** The events handed to [StoreEvent], in call order. *)
Definition storedEvents (t : list Call) : list Event :=
  (λ a : Event * list EventNID * bool, a.1.1) <$> stored t.

(** The auth event NIDs read from the cache for an event (lines 309-312). *)
Definition cachedNIDs (cache : gmap string EventNID) (event : Event)
  : list EventNID :=
  (λ authEventID, default 0 (cache !! authEventID)) <$> AuthEventIDs event.


(** The error a call came back with. *)
Definition callError (c : Call) : option error :=
  match c with
  | MkCall e x =>
      match e in Eff X return X -> option error with
      | DB_EventsFromIDs _ => fun x => x.2
      | DB_EventNIDs _ => fun x => x.2
      | DB_StoreEvent _ _ _ => fun x => x.2
      | DB_RoomInfo _ => fun x => x.2
      | DB_GetMembershipEventNIDsForRoom _ _ _ => fun x => x.2
      | DB_StateEntriesForEventIDs _ => fun x => x.2
      | DB_AddState _ _ _ => fun x => x.2
      | DB_SetState _ _ => fun x => x
      | FSAPI_QueryEventAuthFromFederation _ _ => fun x => x.2
      | helpers_CheckAuthEvents _ _ => fun x => x.2
      | helpers_CheckForSoftFail _ _ => fun x => x.2
      | eventutil_RedactEvent _ _ => fun x => x.2
      | state_CalculateAndStoreStateBeforeEvent _ _ _ => fun x => x.2
      | updateLatestEvents _ _ _ _ _ _ => fun x => x
      | WriteOutputEvents _ _ => fun x => x
      | Log _ _ _ => fun _ => None
      end x
  end.

(** The text an error of the call is wrapped with, where the call is made:
    the argument of [fmt.Errorf] before ": %w". *)
Definition errorContext (c : Call) : string :=
  match c with
  | MkCall e _ =>
      match e with
      | DB_EventNIDs _ => "r.DB.EventNIDs"
      | DB_StoreEvent _ _ _ => "r.DB.StoreEvent"
      | DB_RoomInfo _ => "r.DB.RoomInfo"
      | DB_StateEntriesForEventIDs _ => "r.DB.StateEntriesForEventIDs"
      | DB_AddState _ _ _ => "r.DB.AddState"
      | DB_SetState _ _ => "r.DB.SetState"
      | FSAPI_QueryEventAuthFromFederation _ _ =>
          "r.FSAPI.QueryEventAuthFromFederation"
      | eventutil_RedactEvent _ _ => "eventutil.RedactEvent"
      | state_CalculateAndStoreStateBeforeEvent _ _ _ =>
          "roomState.CalculateAndStoreStateBeforeEvent"
      | updateLatestEvents _ _ _ _ _ _ => "r.updateLatestEvents"
      | WriteOutputEvents _ [OutputTypeOldRoomEvent _] =>
          "r.WriteOutputEvents (old)"
      | WriteOutputEvents _ _ => "r.WriteOutputEvents (redactions)"
      | _ => ""
      end
  end.


(** The emissions [processRoomEvent] can make for an input: the extremity
    update of a New input, the old-room-event entry of an Old input (with the
    input's headered event), and a redacted-event entry with a non-empty ID
    under the input's room version; each output write has one entry. *)
Definition emissionAllowed (input : InputRoomEvent) (d : Emission) : Prop :=
  match d with
  | LatestEventsUpdate _ _ _ sendAsServer transactionID rewritesState =>
      Kind_ input = KindNew ∧ sendAsServer = SendAsServer input
      ∧ transactionID = TransactionID_ptr input
      ∧ rewritesState = HasState input
  | OutputWrite _ [OutputTypeOldRoomEvent hd] =>
      Kind_ input = KindOld ∧ hd = Event_ input
  | OutputWrite _ [OutputTypeRedactedEvent rid because] =>
      rid ≠ "" ∧ because.1 = RoomVersion_ (Event_ input)
  | OutputWrite _ _ => False
  end.


(** [errorFrom cl e]: the error [e] that a call returns comes from the call
    [cl]: it is [cl]'s error wrapped with the name of [cl], once more with
    the name of the function that made it when that was the resolver or
    [calculateAndSetState]; or [cl] is the room lookup that found no room and
    [e] names the room. *)
Definition errorFrom (cl : Call) (e : error) : Prop :=
  (∃ e', callError cl = Some e'
         ∧ (e = Wrapf (errorContext cl) e'
            ∨ e = Wrapf "r.calculateAndSetState" (Wrapf (errorContext cl) e')
            ∨ e = Wrapf "r.checkForMissingAuthEvents"
                    (Wrapf (errorContext cl) e')))
  ∨ (∃ room, cl = MkCall (DB_RoomInfo room) (None, None)
             ∧ e = Strf "r.DB.RoomInfo missing for room" room).


(** ** Faults in the environment *)

(** The Store reports a snapshot for the event it stores: the state before
    the event is already known. *)
Definition knownStateScript : Script :=
  {| peerAuthChain := []; authVerdict := None;
     softFailVerdict := (false, None); storeRedaction := (None, "");
     storeSnapshot := 17; stateResolutionFails := false;
     membershipLookupFails := false; joinedLocalUsers := [] |}.

(** One kind of call that goes wrong in an otherwise in-memory
    environment. *)
Inductive Fault : Type :=
| StoreEventFails      (* StoreEvent returns an error *)
| RoomUnknown          (* RoomInfo finds no room, without an error *)
| NIDLookupFails       (* EventNIDs returns an error *)
| NIDLookupOverfull    (* EventNIDs returns more entries than it was asked for *)
| PeerFails            (* the federation query returns an error *)
| ResolverAnswersZero. (* the state resolver answers snapshot 0, no error *)

Definition faulty (f : Fault) (s : Script) : handler World :=
  fun X e w =>
    match f, e in Eff X return X * World with
    | StoreEventFails, DB_StoreEvent _ _ _ =>
        ((0, mkStateAtEvent false 0 0, None, "",
          Some (Opaque "sql: connection is closed")), w)
    | RoomUnknown, DB_RoomInfo _ => ((None, None), w)
    | NIDLookupFails, DB_EventNIDs _ =>
        ((∅, Some (Opaque "sql: connection is closed")), w)
    | NIDLookupOverfull, DB_EventNIDs _ =>
        ((<["$A" := 1]> (<["$B" := 2]> ∅), None), w)
    | PeerFails, FSAPI_QueryEventAuthFromFederation _ _ =>
        (([], Some (Opaque "no servers available")), w)
    | ResolverAnswersZero, state_CalculateAndStoreStateBeforeEvent _ _ _ =>
        ((0, None), w)
    | _, e' => memory s _ e' w
    end.


(** ** Failures that stop a call *)

(** The two lookups whose error the code drops: the lookup by ID of the
    outlier check (lines 83-84) and the membership lookup of
    [calculateAndSetState] (lines 355-360). *)
Definition outlierLookup (c : Call) : bool :=
  match c with
  | MkCall e _ =>
      match e with
      | DB_EventsFromIDs _ => true
      | _ => false
      end
  end.

Definition membershipLookup (c : Call) : bool :=
  match c with
  | MkCall e _ =>
      match e with
      | DB_GetMembershipEventNIDsForRoom _ _ _ => true
      | _ => false
      end
  end.

(** The calls [calculateAndSetState] makes. *)
Definition stateCall (c : Call) : bool :=
  match c with
  | MkCall e _ =>
      match e with
      | DB_GetMembershipEventNIDsForRoom _ _ _ => true
      | DB_StateEntriesForEventIDs _ => true
      | DB_AddState _ _ _ => true
      | DB_SetState _ _ => true
      | state_CalculateAndStoreStateBeforeEvent _ _ _ => true
      | _ => false
      end
  end.

(** The error of a call that makes [calculateAndSetState] return an error:
    any of its calls but the membership lookup, whose error lines 355-360
    drop. *)
Definition stateFailure (c : Call) : option error :=
  if stateCall c && negb (membershipLookup c) then callError c else None.

Definition stateFailures (t : list Call) : list error := omap stateFailure t.

(** A failure that makes [processRoomEvent] return with an error, for an
    input of kind [k]: a failed call or a room lookup that found no room,
    except the two lookups above and, for an Old input, the calls of
    [calculateAndSetState], whose error line 179 drops. *)
Definition aborts (k : Kind) (c : Call) : bool :=
  negb (outlierLookup c) && negb (membershipLookup c)
  && negb (stateCall c && bool_decide (k = KindOld))
  && failed c.

Definition noAbort (k : Kind) (t : list Call) : bool :=
  forallb (λ c, negb (aborts k c)) t.

(** [StoreEvent] reports the stored event "$E" itself as redacted, without a
    redaction event. *)
Definition nilRedactionScript : Script :=
  {| peerAuthChain := []; authVerdict := None;
     softFailVerdict := (false, None); storeRedaction := (None, "$E");
     storeSnapshot := 0; stateResolutionFails := false;
     membershipLookupFails := false; joinedLocalUsers := [] |}.

(** The event "$A" under the same ID with another content and reference
    hash. *)
Definition reissuedA : Event :=
  {| EventID := "$A"; RoomID := "!room:host"; Type_ := "m.room.message";
     Sender := "@alice:host"; AuthEventIDs := []; Content := "{other}";
     EventSHA256 := [7; 8; 9] |}.


(** * Properties *)

(** ** The program monad *)

Lemma run_bind {W A B : Type} (h : handler W) (p : prog A) (f : A -> prog B)
    (w : W) :
  run h (bind p f) w =
  let '(o, w1, t1) := run h p w in
  match o with
  | Returned a => let '(o2, w2, t2) := run h (f a) w1 in (o2, w2, t1 ++ t2)
  | Panicked m => (Panicked m, w1, t1)
  end.
Proof.
  revert w. induction p as [a | m | X e k IH]; intros w; simpl.
  - destruct (run h (f a) w) as [[o2 w2] t2]. reflexivity.
  - reflexivity.
  - destruct (h X e w) as [x w1]. rewrite IH.
    destruct (run h (k x) w1) as [[o w2] t1].
    destruct o as [a | m]; [| reflexivity].
    destruct (run h (f a) w2) as [[o2 w3] t2]. reflexivity.
Qed.

Lemma filter_all_known (known : gmap string EventNID) (ids : list string) :
  Forall (λ id, is_Some (known !! id)) ids →
  filter (λ id, known !! id = None) ids = [].
Proof.
  induction 1 as [| id ids [nid Hid] _ IH]; [reflexivity |].
  rewrite filter_cons. destruct (decide (known !! id = None)) as [Hn | _].
  - rewrite Hid in Hn. discriminate.
  - exact IH.
Qed.

Section Properties.

Context {W : Type} (h : handler W).
Variable RoomVersion_EventIDFormat : RoomVersion -> EventIDFormat * option error.
Variable ReverseTopologicalOrdering : list Event -> list Event.
Variable DeduplicateStateEntries : list StateEntry -> list StateEntry.

(** Take the answer of the next call apart. *)
Tactic Notation "answer" "as" simple_intropattern(p) :=
  match goal with
  | |- context [h ?X ?e ?w] => destruct (h X e w) as p eqn:?
  end.

Ltac exec := cbn [bind call run trace result fst snd].

(** Run a loop-free program in hypothesis [H] along every path: take each
    answer apart and split on every test the program makes. *)
Ltac crunch H :=
  repeat (cbn [bind call run fmap option_fmap option_map orb andb negb] in H;
          match type of H with
          | context [h ?X ?e ?w] =>
              let x := fresh "x" in
              let w1 := fresh "w" in
              destruct (h X e w) as [x w1] eqn:?;
              repeat match goal with
                     | y : (_ * _)%type |- _ => destruct y
                     end
          | context [match ?x with _ => _ end] =>
              lazymatch x with
              | run _ _ _ => fail
              | match _ with _ => _ end => fail
              | _ => destruct x eqn:?
              end
          end);
  cbn [bind call run fmap option_fmap option_map orb andb negb] in H.

(** ** The missing-ancestor resolver *)

(** The loop issues resolver calls only, never panics, and every error it
    returns wraps a collaborator's error: the "missing auth event NIDs"
    error of line 317 is never among them. *)
Lemma storeAuthChain_run (events : list Event) :
  ∀ (cache : gmap string EventNID) (w : W),
    Forall (λ c, resolverCall c = true)
           (trace (run h (storeAuthChain events cache) w))
    ∧ ∃ cache' err,
        result (run h (storeAuthChain events cache) w) = Returned (cache', err)
        ∧ wrapped err.
Proof.
  induction events as [| event rest IH]; intros cache w.
  - simpl. split; [constructor |].
    exists cache, None. split; [reflexivity | left; reflexivity].
  - cbn [storeAuthChain]. cbv zeta.
    destruct (filter _ (AuthEventIDs event)) as [| id ids] eqn:Hneeded.
    + exec. rewrite length_fmap, Nat.eqb_refl. exec. cbn [negb]. exec.
      answer as [[[[[nid sae] rev] rid] [serr |]] w1]; exec.
      * split; [repeat constructor |].
        eexists _, _. split; [reflexivity | right; eauto].
      * destruct (IH cache w1) as [Htr (c' & err & Hres & Hw)].
        destruct (run h (storeAuthChain rest cache) w1) as [[o w2] t].
        exec. split; [constructor; [reflexivity | exact Htr] | eauto].
    + exec. answer as [[new [lerr |]] w1]; exec.
      * split; [repeat constructor |].
        eexists _, _. split; [reflexivity | right; eauto].
      * rewrite length_fmap, Nat.eqb_refl. cbn [negb]. exec.
        answer as [[[[[nid sae] rev] rid] [serr |]] w2]; exec.
        -- split; [repeat constructor |].
           eexists _, _. split; [reflexivity | right; eauto].
        -- destruct (IH (new ∪ cache) w2) as [Htr (c' & err & Hres & Hw)].
           destruct (run h (storeAuthChain rest (new ∪ cache)) w2)
             as [[o w3] t].
           exec. split; [| eauto].
           repeat (constructor; [reflexivity |]). exact Htr.
Qed.

Lemma checkForMissingAuthEvents_run (event : HeaderedEvent)
    (cache : gmap string EventNID) (w : W) :
  let r := run h (checkForMissingAuthEvents ReverseTopologicalOrdering
                    event cache) w in
  Forall (λ c, resolverCall c = true) (trace r)
  ∧ ((∃ m, result r = Panicked m)
     ∨ ∃ cache' err, result r = Returned (cache', err) ∧ wrapped err).
Proof.
  unfold checkForMissingAuthEvents. cbv zeta.
  destruct (AuthEventIDs (Unwrap event)) as [| id ids] eqn:Hids.
  - exec. split; [constructor | right].
    exists cache, None. split; [reflexivity | left; reflexivity].
  - exec. answer as [[known [lerr |]] w1]; exec.
    + split; [repeat constructor | right].
      eexists _, _. split; [reflexivity | right; eauto].
    + destruct (_ <? 0)%Z; exec.
      * split; [repeat constructor | left; eauto].
      * destruct (filter _ (id :: ids)) as [| m ms]; exec.
        -- split; [repeat constructor | right].
           eexists _, None. split; [reflexivity | left; reflexivity].
        -- answer as [[evs [ferr |]] w2]; exec.
           ++ split; [repeat constructor | right].
              eexists _, _. split; [reflexivity | right; eauto].
           ++ destruct (storeAuthChain_run (ReverseTopologicalOrdering evs)
                          (known ∪ cache) w2) as [Htr (c' & err & Hres & Hw)].
              destruct (run h (storeAuthChain _ (known ∪ cache)) w2)
                as [[o w3] t].
              exec. split; [| right; eauto].
              repeat (constructor; [reflexivity |]). exact Htr.
Qed.

(** Whatever the environment, the resolver never reports missing auth
    event NIDs. *)
Lemma checkForMissingAuthEvents_never_missing (event : HeaderedEvent)
    (cache cache' : gmap string EventNID) (w : W) (ctx arg : string) :
  result (run h (checkForMissingAuthEvents ReverseTopologicalOrdering
                   event cache) w)
  ≠ Returned (cache', Some (Strf ctx arg)).
Proof.
  destruct (checkForMissingAuthEvents_run event cache w)
    as [_ [[m Hm] | (c' & err & Hres & [Hw | (ctx' & e & Hw)])]];
    rewrite ?Hm, ?Hres; subst; congruence.
Qed.

(** C10: an event without auth events makes [checkForMissingAuthEvents]
    return nil at once, with no call to the Store or to federation; and when
    the Store's answer to the NID lookup knows every auth event of the
    event, the resolver issues no federation query and persists nothing. *)
Theorem checkForMissingAuthEvents_frame (event : HeaderedEvent)
    (cache : gmap string EventNID) (w : W) :
  let r := run h (checkForMissingAuthEvents ReverseTopologicalOrdering
                    event cache) w in
  (AuthEventIDs (Unwrap event) = [] → r = (Returned (cache, None), w, []))
  ∧ (∀ known err w1,
       h _ (DB_EventNIDs (AuthEventIDs (Unwrap event))) w
       = ((known, err), w1) →
       Forall (λ id, is_Some (known !! id)) (AuthEventIDs (Unwrap event)) →
       federationQueries (trace r) = [] ∧ stored (trace r) = []).
Proof.
  unfold checkForMissingAuthEvents. cbv zeta. split.
  - intros ->. reflexivity.
  - intros known err w1 Hknown Hall.
    destruct (AuthEventIDs (Unwrap event)) as [| id ids]; [split; reflexivity |].
    exec. rewrite Hknown. destruct err as [e |]; exec; [split; reflexivity |].
    destruct (_ <? 0)%Z; exec; [split; reflexivity |].
    rewrite (filter_all_known known (id :: ids) Hall). split; reflexivity.
Qed.


(** ** Observations and the phases of a run *)

Lemma omap_none {A : Type} (f : Call → option A) (t : list Call) :
  Forall (λ c, frontCall c = true) t →
  (∀ c, frontCall c = true → f c = None) →
  omap f t = [].
Proof.
  intros Ht Hf. induction Ht as [| c t Hc _ IH]; [reflexivity |].
  cbn [omap list_omap]. rewrite (Hf c Hc). exact IH.
Qed.

Lemma resolver_front (t : list Call) :
  Forall (λ c, resolverCall c = true) t → Forall (λ c, frontCall c = true) t.
Proof.
  intros Ht. eapply Forall_impl; [exact Ht |].
  intros c Hc. unfold frontCall. rewrite Hc. reflexivity.
Qed.

Ltac front_none :=
  intros [X e x] Hc; destruct e; (discriminate Hc || reflexivity).

Lemma front_observations (t : list Call) :
  Forall (λ c, frontCall c = true) t →
  authChecks t = [] ∧ softFailChecks t = [] ∧ emissions t = []
  ∧ redactions t = [] ∧ setStates t = [] ∧ computedSnapshots t = []
  ∧ subjectEvents t = [] ∧ subjectRooms t = [].
Proof.
  intros Ht. repeat split; apply omap_none; try exact Ht; front_none.
Qed.

Lemma front_stored (t : list Call) :
  Forall (λ c, frontCall c = true) t →
  Forall (λ a, a.2 = false) (stored t).
Proof.
  induction 1 as [| [X e x] t Hc _ IH]; [constructor |].
  destruct e; try exact IH; try discriminate Hc.
  cbn in Hc |- *. constructor; [| exact IH].
  cbn. destruct isRejected; [discriminate Hc | reflexivity].
Qed.


(** The run of lines 102-137: either the resolver stops the call (a panic
    or an error return, with front calls only), or the run goes on into
    [processRoomEvent_store] after the two auth checks. *)
Lemma ingest_run (input : InputRoomEvent) (w : W) :
  let r := run h (processRoomEvent_ingest ReverseTopologicalOrdering
                    DeduplicateStateEntries input) w in
  stopsEarly input r ∨ reachesStore h DeduplicateStateEntries input r.
Proof.
  unfold stopsEarly, reachesStore.
  unfold processRoomEvent_ingest, checkForMissingPrevEvents. cbv zeta.
  rewrite run_bind.
  destruct (checkForMissingAuthEvents_run (Event_ input) ∅ w) as [Htr Hres].
  destruct (run h (checkForMissingAuthEvents _ (Event_ input) ∅) w)
    as [[o1 w1] t1].
  cbn [trace result fst snd] in Htr, Hres. apply resolver_front in Htr.
  destruct o1 as [[cache [e |]] | m].
  - (* the resolver returned an error *)
    left. exec. destruct (h _ (Log LvlError _ (Some e)) w1) as [[] w2].
    exec. split; [| right; left; eauto].
    apply Forall_app. split; [exact Htr | repeat constructor].
  - (* the resolver returned nil *)
    right. exec.
    destruct (h _ (helpers_CheckAuthEvents (Event_ input)
                     (in_AuthEventIDs input)) w1)
      as [[nids rejErr] w2] eqn:Hauth.
    unfold authTrace, softFailTrace.
    destruct rejErr as [rej |]; exec.
    + destruct (h _ (Log LvlError _ (Some rej)) w2) as [[] w3]. exec.
      destruct (Kind_ input) eqn:Hkind; exec.
      * exists t1, nids, (Some rej), false, None, w3.
        split; [exact Htr |]. split; [reflexivity |].
        destruct (run h (processRoomEvent_store _ _ _ _ _ _) w3)
          as [[o w4] t]. reflexivity.
      * destruct (h _ (helpers_CheckForSoftFail (Event_ input)
                         (StateEventIDs input)) w3)
          as [[sf serr] w4].
        destruct serr as [se |]; exec.
        -- destruct (h _ (Log LvlInfo _ (Some se)) w4) as [[] w5]. exec.
           exists t1, nids, (Some rej), sf, (Some se), w5.
           split; [exact Htr |]. split; [congruence |].
           destruct (run h (processRoomEvent_store _ _ _ _ _ _) w5)
             as [[o w6] t]. reflexivity.
        -- exists t1, nids, (Some rej), sf, None, w4.
           split; [exact Htr |]. split; [congruence |].
           destruct (run h (processRoomEvent_store _ _ _ _ _ _) w4)
             as [[o w6] t]. reflexivity.
      * exists t1, nids, (Some rej), false, None, w3.
        split; [exact Htr |]. split; [reflexivity |].
        destruct (run h (processRoomEvent_store _ _ _ _ _ _) w3)
          as [[o w4] t]. reflexivity.
    + destruct (Kind_ input) eqn:Hkind; exec.
      * exists t1, nids, None, false, None, w2.
        split; [exact Htr |]. split; [reflexivity |].
        destruct (run h (processRoomEvent_store _ _ _ _ _ _) w2)
          as [[o w4] t]. reflexivity.
      * destruct (h _ (helpers_CheckForSoftFail (Event_ input)
                         (StateEventIDs input)) w2)
          as [[sf serr] w4].
        destruct serr as [se |]; exec.
        -- destruct (h _ (Log LvlInfo _ (Some se)) w4) as [[] w5]. exec.
           exists t1, nids, None, sf, (Some se), w5.
           split; [exact Htr |]. split; [congruence |].
           destruct (run h (processRoomEvent_store _ _ _ _ _ _) w5)
             as [[o w6] t]. reflexivity.
        -- exists t1, nids, None, sf, None, w4.
           split; [exact Htr |]. split; [congruence |].
           destruct (run h (processRoomEvent_store _ _ _ _ _ _) w4)
             as [[o w6] t]. reflexivity.
      * exists t1, nids, None, false, None, w2.
        split; [exact Htr |]. split; [reflexivity |].
        destruct (run h (processRoomEvent_store _ _ _ _ _ _) w2)
          as [[o w4] t]. reflexivity.
  - (* the resolver panicked *)
    left. exec. split; [exact Htr | left; eauto].
Qed.


Lemma phase_prefix (input : InputRoomEvent) (c : Call)
    (r : outcome (string * option error) * W * list Call) :
  frontCall c = true →
  stopsEarly input r ∨ reachesStore h DeduplicateStateEntries input r →
  let r' := (let '(o, w2, t) := r in (o, w2, c :: t)) in
  stopsEarly input r' ∨ reachesStore h DeduplicateStateEntries input r'.
Proof.
  destruct r as [[o w2] t]. intros Hc [[Htr Hres] | Hreach]; cbv zeta.
  - left. split; [constructor; assumption | exact Hres].
  - right. destruct Hreach as (t0 & nids & rejErr & sf & serr & w1 & Ht0 & Hsf & Heq).
    exists (c :: t0), nids, rejErr, sf, serr, w1.
    split; [constructor; assumption |]. split; [exact Hsf |].
    destruct (run h (processRoomEvent_store _ _ _ _ _ _) w1) as [[o' w'] t'].
    inversion Heq. reflexivity.
Qed.

(** Every run of [processRoomEvent] goes one of the two ways. *)
Lemma processRoomEvent_run (input : InputRoomEvent) (w : W) :
  let r := run h (processRoomEvent RoomVersion_EventIDFormat
                    ReverseTopologicalOrdering DeduplicateStateEntries
                    input) w in
  stopsEarly input r ∨ reachesStore h DeduplicateStateEntries input r.
Proof.
  unfold processRoomEvent. cbv zeta.
  assert (Hskip : ∀ (c : Call) (w1 : W), frontCall c = true →
            stopsEarly input
              (let '(x, w2) := h _ (Log LvlInfo
                                      "Already processed event; ignoring"
                                      None) w1 in
               (Returned (EventID (Unwrap (Event_ input)), None), w2,
                 [c; MkCall (Log LvlInfo "Already processed event; ignoring"
                               None) x]))
            ∨ Kind_ input ≠ KindOutlier).
  { intros c w1 Hc. destruct (Kind_ input) eqn:Hkind; [left | right; congruence ..].
    destruct (h _ _ w1) as [[] w2]. split; [repeat constructor; exact Hc |].
    right. right. split; [exact Hkind | reflexivity]. }
  destruct (Kind_ input) eqn:Hkind; exec; try apply ingest_run.
  answer as [[evs err2] w1].
  pose proof (phase_prefix input
                (MkCall (DB_EventsFromIDs [EventID (Unwrap (Event_ input))])
                        (evs, err2))
                _ eq_refl (ingest_run input w1)) as Hingest.
  cbv zeta in Hingest.
  destruct (run h (processRoomEvent_ingest _ _ input) w1) as [[o w2] t] eqn:Hrun.
  destruct err2 as [e2 |]; exec; [rewrite Hrun; exact Hingest |].
  destruct evs as [| ev0 [| ev1 evs]]; exec;
    [rewrite Hrun; exact Hingest | | rewrite Hrun; exact Hingest].
  destruct (RoomVersion_EventIDFormat _) as [[| |] [e3 |]]; exec;
    try (rewrite Hrun; exact Hingest);
    try (destruct (Hskip (MkCall (DB_EventsFromIDs
                                    [EventID (Unwrap (Event_ input))])
                                 ([ev0], None)) w1 eq_refl) as [Hs | Hn];
         [left; destruct (h _ _ w1) as [[] w3]; exact Hs | congruence]).
  destruct (bool_decide _); exec; [| rewrite Hrun; exact Hingest].
  destruct (Hskip (MkCall (DB_EventsFromIDs
                             [EventID (Unwrap (Event_ input))])
                          ([ev0], None)) w1 eq_refl) as [Hs | Hn];
    [left; destruct (h _ _ w1) as [[] w3]; exact Hs | congruence].
Qed.


(** ** From [StoreEvent] on *)

(** The calls of lines 139-244: one [StoreEvent], on the input's event, and
    no auth check or federation query. *)
Lemma store_calls (input : InputRoomEvent) (nids : list EventNID)
    (rejErr : option error) (isRej sf : bool) (w w' : W)
    (o : outcome (string * option error)) (t : list Call) :
  run h (processRoomEvent_store DeduplicateStateEntries input nids rejErr
           isRej sf) w = (o, w', t) →
  authChecks t = [] ∧ softFailChecks t = []
  ∧ stored t = [(Unwrap (Event_ input), nids, isRej)]
  ∧ storeAnswers t
    = [(h _ (DB_StoreEvent (Unwrap (Event_ input)) nids isRej) w).1]
  ∧ ∃ m, o ≠ Panicked m.
Proof.
  intros H. unfold processRoomEvent_store, calculateAndSetState in H.
  crunch H; simplify_eq; repeat split; try reflexivity;
    exists ""; discriminate.
Qed.

(** What a run that reaches line 139 shows of its auth checks, and what
    of its trace is the trace of lines 139-244. *)
Lemma reached_observations (input : InputRoomEvent)
    (r : outcome (string * option error) * W * list Call) :
  reachesStore h DeduplicateStateEntries input r →
  ∃ t0 nids rejErr sf serr w1 t,
    (Forall (λ c, frontCall c = true) t0
     ∧ trace r = t0 ++ authTrace input nids rejErr
                    ++ softFailTrace input sf serr ++ t)
    ∧ run h (processRoomEvent_store DeduplicateStateEntries input nids rejErr
               (rejected rejErr) sf) w1 = (result r, r.1.2, t)
    ∧ (Kind_ input ≠ KindNew → sf = false)
    ∧ authChecks (trace r) = [(nids, rejErr)]
    ∧ softFailChecks (trace r)
      = match Kind_ input with KindNew => [(sf, serr)] | _ => [] end
    ∧ emissions (trace r) = emissions t
    ∧ redactions (trace r) = redactions t
    ∧ setStates (trace r) = setStates t
    ∧ computedSnapshots (trace r) = computedSnapshots t
    ∧ subjectEvents (trace r) = subjectEvents t
    ∧ subjectRooms (trace r) = subjectRooms t
    ∧ last (stored (trace r))
      = Some (Unwrap (Event_ input), nids, rejected rejErr)
    ∧ last (storeAnswers (trace r)) = head (storeAnswers t)
    ∧ (noFailure (trace r) = true → noFailure t = true).
Proof.
  intros (t0 & nids & rejErr & sf & serr & w1 & Ht0 & Hsf & ->).
  destruct (run h (processRoomEvent_store _ _ _ _ _ _) w1)
    as [[o w2] t] eqn:Hrun.
  exists t0, nids, rejErr, sf, serr, w1, t.
  split; [split; [exact Ht0 | reflexivity] |].
  destruct (store_calls _ _ _ _ _ _ _ _ _ Hrun)
    as (Hauth & Hsoft & Hstored & Hanswers & _).
  destruct (front_observations t0 Ht0)
    as (F1 & F2 & F3 & F4 & F5 & F6 & F7 & F8).
  cbn [trace result fst snd].
  unfold authChecks, softFailChecks, emissions, redactions, setStates,
    computedSnapshots, subjectEvents, subjectRooms, stored, storeAnswers
    in *.
  rewrite !omap_app, F1, F2, F3, F4, F5, F6, F7, F8, Hauth, Hsoft, Hstored,
    Hanswers.
  split; [exact Hrun |]. split; [exact Hsf |].
  repeat split;
    try (unfold authTrace, softFailTrace;
         destruct rejErr, (Kind_ input), serr; reflexivity).
  - rewrite !app_assoc. apply last_snoc.
  - rewrite !app_assoc. apply last_snoc.
  - unfold noFailure. rewrite !forallb_app, !andb_true_iff. tauto.
Qed.


(** Drop the paths whose tests contradict each other. *)
Ltac prune :=
  try (exfalso;
       match goal with
       | Hb : _ && negb true = true |- _ =>
           rewrite andb_false_r in Hb; discriminate Hb
       | Hb : negb true && _ = true |- _ => discriminate Hb
       | Hb : bool_decide (?k ≠ ?k) = true |- _ =>
           apply bool_decide_eq_true_1 in Hb; congruence
       | Hb : bool_decide (_ ≠ _) = false |- _ =>
           apply bool_decide_eq_false_1 in Hb; apply Hb; discriminate
       end).






Lemma store_uses_redacted (input : InputRoomEvent) (nids : list EventNID)
    (rejErr : option error) (sf : bool) (w w' : W)
    (o : outcome (string * option error)) (t : list Call)
    (nid : EventNID) (sae : StateAtEvent) (rev : option Event) :
  run h (processRoomEvent_store DeduplicateStateEntries input nids rejErr
           false sf) w = (o, w', t) →
  head (storeAnswers t)
  = Some (nid, sae, rev, EventID (Unwrap (Event_ input)), None) →
  ∃ redacted rerr,
    redactions t = [(rev, Unwrap (Event_ input), (redacted, rerr))]
    ∧ (rerr = None →
       Forall (λ ev, ev = redacted) (subjectEvents t)
       ∧ Forall (λ room, room = RoomID redacted) (subjectRooms t)
       ∧ (Kind_ input = KindOutlier →
          o = Returned (EventID redacted, None))
       ∧ (∀ id err, o = Returned (id, err) →
                    id = EventID redacted ∨ (id = "" ∧ err ≠ None))).
Proof.
  intros H Hans.
  unfold processRoomEvent_store, calculateAndSetState in H.
  crunch H; simplify_eq; prune;
    cbn in Hans; simplify_eq;
    try match goal with
        | Hb : (?s =? ?s)%string = false |- _ =>
            exfalso; rewrite String.eqb_refl in Hb; discriminate Hb
        end;
    eexists _, _; (split; [reflexivity |]); intros Hn;
    try discriminate Hn;
    (split; [repeat constructor |]);
    (split; [repeat constructor |]);
    (split; [intros Hk; first [reflexivity | congruence] |]);
    intros id' err' Heq; simplify_eq;
    first [left; reflexivity | right; split; [reflexivity | discriminate]].
Qed.

(** C7 (as amended): for an event that is not rejected and for which
    [StoreEvent] reports the event's own ID as [redactedEventID],
    [RedactEvent] is called on the event with the reported redaction event;
    when it succeeds, the redacted event is the one the rest of the call
    works on: the state computation and the extremity update receive it,
    room lookups and output writes are addressed to its room, an Outlier
    input returns its ID, and any ID the call returns is its ID. *)
Theorem processRoomEvent_redacted (input : InputRoomEvent) (w : W)
    (nids : list EventNID) (nid : EventNID) (sae : StateAtEvent)
    (rev : option Event) :
  let r := run h (processRoomEvent RoomVersion_EventIDFormat
                    ReverseTopologicalOrdering DeduplicateStateEntries
                    input) w in
  authChecks (trace r) = [(nids, None)] →
  last (storeAnswers (trace r))
  = Some (nid, sae, rev, EventID (Unwrap (Event_ input)), None) →
  ∃ redacted rerr,
    redactions (trace r) = [(rev, Unwrap (Event_ input), (redacted, rerr))]
    ∧ (rerr = None →
       Forall (λ ev, ev = redacted) (subjectEvents (trace r))
       ∧ Forall (λ room, room = RoomID redacted) (subjectRooms (trace r))
       ∧ (Kind_ input = KindOutlier →
          result r = Returned (EventID redacted, None))
       ∧ (∀ id err, result r = Returned (id, err) →
                    id = EventID redacted ∨ (id = "" ∧ err ≠ None))).
Proof.
  intros r Hauth Hans.
  destruct (processRoomEvent_run input w) as [[Hfront _] | Hreach].
  - apply front_observations in Hfront. destruct Hfront as [Hnone _].
    fold r in Hnone. congruence.
  - apply reached_observations in Hreach. fold r in Hreach.
    destruct Hreach as (t0 & nids' & rejErr & sf & serr' & w1 & t & _ & Hrun
                        & _ & Ha & _ & _ & Hr & _ & _ & Hse & Hsr & _
                        & Hlast & _).
    rewrite Ha in Hauth. rewrite Hlast in Hans. simplify_eq.
    cbn [rejected] in Hrun. rewrite Hr, Hse, Hsr.
    exact (store_uses_redacted _ _ _ _ _ _ _ _ _ _ _ Hrun Hans).
Qed.


(** ** The state before the event *)

(** C6 (as amended): for an input that carries [HasState] and is not
    rejected, [calculateAndSetState] never calls the state resolver; it
    resolves the supplied state event IDs, and when that succeeds stores
    the deduplicated entries with [AddState] and takes the answer as the
    snapshot, which it binds with [SetState] when [AddState] succeeded; and
    it leaves [Overwrite] true exactly when the membership lookup failed or
    returned no join event of a local user. *)
Theorem calculateAndSetState_supplied_state (input : InputRoomEvent)
    (roomInfo : RoomInfo) (stateAtEvent : StateAtEvent) (event : Event)
    (w w1 w2 w3 : W) (joined : list EventNID) (merr : option error)
    (entries : list StateEntry) (eerr : option error)
    (nid : StateSnapshotNID) (aerr : option error) :
  let r := run h (calculateAndSetState DeduplicateStateEntries input
                    roomInfo stateAtEvent event false) w in
  HasState input = true →
  h _ (DB_GetMembershipEventNIDsForRoom (ri_RoomNID roomInfo) true true) w
  = ((joined, merr), w1) →
  h _ (DB_StateEntriesForEventIDs (StateEventIDs input)) w1
  = ((entries, eerr), w2) →
  h _ (DB_AddState (ri_RoomNID roomInfo) []
         (DeduplicateStateEntries entries)) w2
  = ((nid, aerr), w3) →
  ∃ st err,
    result r = Returned (st, err)
    ∧ (Overwrite st = true ↔ merr ≠ None ∨ joined = [])
    ∧ subjectEvents (trace r) = []
    ∧ (eerr = None →
       addStates (trace r)
       = [(ri_RoomNID roomInfo, [], DeduplicateStateEntries entries)]
       ∧ BeforeStateSnapshotNID st = nid
       ∧ (aerr = None →
          ∃ serr,
            setStates (trace r) = [(sae_EventNID stateAtEvent, nid, serr)]
            ∧ err = Wrapf "r.DB.SetState" <$> serr)).
Proof.
  intros r Hstate Hmember Hentries Hadd. subst r.
  unfold calculateAndSetState. rewrite Hstate. cbn [andb negb].
  exec. rewrite Hmember. exec. rewrite Hentries.
  destruct merr as [me |], eerr as [ee |]; exec;
    try (rewrite Hadd; destruct aerr as [ae |]; exec);
    try (destruct (h _ (DB_SetState _ _) w3) as [[se |] w4]; exec);
    eexists _, _; (split; [reflexivity |]);
    (split; [cbn; destruct joined; cbn; intuition congruence |]);
    (split; [reflexivity |]); intros Hee; try discriminate Hee;
    (split; [reflexivity |]); (split; [reflexivity |]);
    intros Hae; try discriminate Hae;
    eexists; split; reflexivity.
Qed.

End Properties.

(** ** Concrete runs *)

Lemma checkForMissingAuthEvents_frame_witness :
  let r := run (memory quietScript)
             (checkForMissingAuthEvents demoOrdering
                (mkHeaderedEvent "1" (demoEvent "$E" ["$A"])) ∅) worldWithA in
  federationQueries (trace r) = [] ∧ stored (trace r) = [].
Proof.
  eapply (checkForMissingAuthEvents_frame (memory quietScript) demoOrdering
            (mkHeaderedEvent "1" (demoEvent "$E" ["$A"])) ∅ worldWithA).
  - vm_compute. reflexivity.
  - repeat constructor. vm_compute. eauto.
Defined.

(** C1: the event "$E" names the auth event "$B", which the Store does not
    know; the peer's chain is "$B" alone, whose auth event "$X" is neither in
    the cache nor in the Store.  The resolver does not abort with "missing
    auth event NIDs": it persists "$B" with the zero NID standing for "$X"
    and returns nil.  The map lookup of line 311 yields the zero value for an
    absent key, so the length test of line 316 never fires. *)
Theorem checkForMissingAuthEvents_persists_unresolved :
  let B := demoEvent "$B" ["$X"] in
  let r := run (memory incompleteChainScript)
             (checkForMissingAuthEvents demoOrdering
                (mkHeaderedEvent "1" (demoEvent "$E" ["$B"])) ∅)
             emptyWorld in
  knownNIDs emptyWorld ["$X"] !! "$X" = None
  ∧ result r = Returned (∅, None)
  ∧ stored (trace r) = [(B, [0], false)]
  ∧ interned r.1.2 !! "$B" = Some (mkTypesEvent 1 B).
Proof. vm_compute. repeat split. Qed.



Lemma processRoomEvent_redacted_witness :
  let input := demoInput KindNew (demoEvent "$E" []) in
  let r := run (memory redactingScript)
             (processRoomEvent demoEventIDFormat demoOrdering demoDedup input)
             emptyWorld in
  ∃ redacted,
    redactions (trace r)
    = [(Some redactionOfE, demoEvent "$E" [], (redacted, None))]
    ∧ Forall (λ ev, ev = redacted) (subjectEvents (trace r))
    ∧ Forall (λ room, room = RoomID redacted) (subjectRooms (trace r)).
Proof.
  destruct (processRoomEvent_redacted (memory redactingScript)
              demoEventIDFormat demoOrdering demoDedup
              (demoInput KindNew (demoEvent "$E" [])) emptyWorld
              [] 1 (mkStateAtEvent false 0 1) (Some redactionOfE))
    as (redacted & rerr & Hcall & Huses).
  - vm_compute. reflexivity.
  - vm_compute. reflexivity.
  - assert (rerr = None) as ->.
    { vm_compute in Hcall. congruence. }
    exists redacted. split; [exact Hcall |].
    destruct (Huses eq_refl) as (Hev & Hroom & _). split; assumption.
Defined.

(** C7 as stated fails in two ways.  For a rejected event whose own ID the
    Store reports as [redactedEventID], no redaction is applied: lines 146-152
    run only when the event is not rejected.  And for an Old event that is
    redacted, the old-room-event output carries the input's event, not the
    redacted one. *)
Lemma processRoomEvent_redacted_counterexample :
  let E := demoEvent "$E" [] in
  let rejectedRun :=
    run (memory rejectedRedactingScript)
        (processRoomEvent demoEventIDFormat demoOrdering demoDedup
           (demoInput KindNew E)) emptyWorld in
  let oldRun :=
    run (memory redactingScript)
        (processRoomEvent demoEventIDFormat demoOrdering demoDedup
           (demoInput KindOld E)) emptyWorld in
  (storeAnswers (trace rejectedRun)
   = [(1, mkStateAtEvent false 0 1, Some redactionOfE, EventID E, None)]
   ∧ redactions (trace rejectedRun) = []
   ∧ subjectEvents (trace rejectedRun) = [E])
  ∧ (∃ redacted,
       redactions (trace oldRun)
       = [(Some redactionOfE, E, (redacted, None))]
       ∧ redacted ≠ E
       ∧ In (OutputWrite "!room:host"
               [OutputTypeOldRoomEvent (mkHeaderedEvent "1" E)])
            (emissions (trace oldRun))).
Proof.
  split.
  - vm_compute. repeat split.
  - eexists. split; [vm_compute; reflexivity |].
    split; [discriminate | vm_compute; left; reflexivity].
Qed.

Lemma calculateAndSetState_supplied_state_witness :
  let r := run (memory quietScript)
             (calculateAndSetState demoDedup
                (demoStateInput KindNew (demoEvent "$E" []) ["$A"])
                (mkRoomInfo 1 "1") (mkStateAtEvent false 0 5)
                (demoEvent "$E" []) false) worldWithA in
  ∃ st err,
    result r = Returned (st, err)
    ∧ Overwrite st = true
    ∧ addStates (trace r) = [(1, [], [mkStateEntry 1 1])]
    ∧ BeforeStateSnapshotNID st = 42
    ∧ ∃ serr, setStates (trace r) = [(5, 42, serr)]
              ∧ err = Wrapf "r.DB.SetState" <$> serr.
Proof.
  destruct (calculateAndSetState_supplied_state (memory quietScript) demoDedup
              (demoStateInput KindNew (demoEvent "$E" []) ["$A"])
              (mkRoomInfo 1 "1") (mkStateAtEvent false 0 5)
              (demoEvent "$E" []) worldWithA worldWithA worldWithA worldWithA
              [] None [mkStateEntry 1 1] None 42 None
              eq_refl eq_refl eq_refl eq_refl)
    as (st & err & Hres & Hover & _ & Hpath).
  destruct (Hpath eq_refl) as (Hadd & Hsnap & Hbind).
  exists st, err. split; [exact Hres |].
  split; [apply Hover; right; reflexivity |].
  split; [exact Hadd |]. split; [exact Hsnap |].
  exact (Hbind eq_refl).
Defined.

(** C6 as stated fails when the membership lookup fails: two local users are
    joined to the room, the lookup comes back with an error (and the one row
    it had read), and [Overwrite] is left true. *)
Lemma calculateAndSetState_overwrite_counterexample :
  let input := demoStateInput KindNew (demoEvent "$E" []) ["$A"] in
  let r := run (memory membershipFailureScript)
             (calculateAndSetState demoDedup input (mkRoomInfo 1 "1")
                (mkStateAtEvent false 0 5) (demoEvent "$E" []) false)
             worldWithA in
  HasState input = true
  ∧ joinedLocalUsers membershipFailureScript = [7; 8]
  ∧ (memory membershipFailureScript _
       (DB_GetMembershipEventNIDsForRoom 1 true true) worldWithA).1
    = ([7], Some (Opaque "sql: connection is closed"))
  ∧ result r = Returned (mkStateAtEvent true 42 5, None)
  ∧ ¬ (Overwrite (mkStateAtEvent true 42 5) = true
       ↔ joinedLocalUsers membershipFailureScript = [])
  ∧ ¬ (Overwrite (mkStateAtEvent true 42 5) = true ↔ [7] = ([] : list EventNID)).
Proof.
  vm_compute. repeat split; intros [H _]; discriminate (H eq_refl).
Qed.

(** * Further properties *)

Section Coverage.

Context {W : Type} (h : handler W).
Variable RoomVersion_EventIDFormat : RoomVersion -> EventIDFormat * option error.
Variable ReverseTopologicalOrdering : list Event -> list Event.
Variable DeduplicateStateEntries : list StateEntry -> list StateEntry.

Tactic Notation "answer" "as" simple_intropattern(p) :=
  match goal with
  | |- context [h ?X ?e ?w] => destruct (h X e w) as p eqn:?
  end.

Ltac exec := cbn [bind call run trace result fst snd].

Ltac exec_in H := cbn [bind call run trace result fst snd] in H.

Ltac crunch H :=
  repeat (cbn [bind call run fmap option_fmap option_map orb andb negb] in H;
          match type of H with
          | context [h ?X ?e ?w] =>
              let x := fresh "x" in
              let w1 := fresh "w" in
              destruct (h X e w) as [x w1] eqn:?;
              repeat match goal with
                     | y : (_ * _)%type |- _ => destruct y
                     end
          | context [match ?x with _ => _ end] =>
              lazymatch x with
              | run _ _ _ => fail
              | match _ with _ => _ end => fail
              | _ => destruct x eqn:?
              end
          end);
  cbn [bind call run fmap option_fmap option_map orb andb negb] in H.

Ltac prune :=
  try (exfalso;
       match goal with
       | Hb : _ && negb true = true |- _ =>
           rewrite andb_false_r in Hb; discriminate Hb
       | Hb : negb true && _ = true |- _ => discriminate Hb
       | Hb : bool_decide (?k ≠ ?k) = true |- _ =>
           apply bool_decide_eq_true_1 in Hb; congruence
       | Hb : bool_decide (_ ≠ _) = false |- _ =>
           apply bool_decide_eq_false_1 in Hb; apply Hb; discriminate
       end).

(** ** The missing-ancestor resolver, continued *)

Ltac obs :=
  repeat first
    [ progress change (storedEvents (MkCall (DB_StoreEvent ?ev ?n ?r) ?a :: ?t))
        with (ev :: storedEvents t)
    | progress change (storedEvents (MkCall (DB_EventNIDs ?i) ?a :: ?t))
        with (storedEvents t)
    | progress change (stored (MkCall (DB_StoreEvent ?ev ?n ?r) ?a :: ?t))
        with ((ev, n, r) :: stored t)
    | progress change (stored (MkCall (DB_EventNIDs ?i) ?a :: ?t))
        with (stored t)
    | progress change (federationAnswers (MkCall (DB_StoreEvent ?ev ?n ?r) ?a :: ?t))
        with (federationAnswers t)
    | progress change (federationAnswers (MkCall (DB_EventNIDs ?i) ?a :: ?t))
        with (federationAnswers t)
    | progress change (storedEvents []) with (@nil Event)
    | progress change (stored []) with (@nil (Event * list EventNID * bool))
    | progress change (federationAnswers [])
        with (@nil (list Event * option error)) ].

Ltac five := split; [| split; [| split; [| split]]].

Lemma storeAuthChain_stored (events : list Event) :
  ∀ (cache : gmap string EventNID) (w : W),
    let r := run h (storeAuthChain events cache) w in
    storedEvents (trace r) `prefix_of` events
    ∧ Forall (λ a, a.2 = false ∧ length a.1.2 = length (AuthEventIDs a.1.1))
             (stored (trace r))
    ∧ federationAnswers (trace r) = []
    ∧ (∀ c, result r = Returned (c, None) → storedEvents (trace r) = events)
    ∧ (∀ c err, result r = Returned (c, err) →
                ∀ id, is_Some (cache !! id) → is_Some (c !! id)).
Proof.
  assert (Hgrow : ∀ (new cache : gmap string EventNID) id,
            is_Some (cache !! id) → is_Some ((new ∪ cache) !! id)).
  { intros new cache id [v Hv]. rewrite lookup_union, Hv.
    destruct (new !! id); eauto. }
  induction events as [| event rest IH]; intros cache w.
  - cbv zeta. cbn [storeAuthChain]. exec. obs. five.
    + apply prefix_nil.
    + constructor.
    + reflexivity.
    + reflexivity.
    + intros c err Hr id Hid. simplify_eq. exact Hid.
  - cbv zeta. cbn [storeAuthChain]. cbv zeta.
    assert (Hlen : ∀ c : gmap string EventNID,
              length ((λ id, default 0 (c !! id)) <$> AuthEventIDs event)
              = length (AuthEventIDs event)) by (intros; apply length_fmap).
    destruct (filter _ (AuthEventIDs event)) as [| id ids] eqn:Hneeded.
    + exec. rewrite Hlen, Nat.eqb_refl. cbn [negb]. exec.
      answer as [[[[[nid sae] rev] rid] [serr |]] w1]; exec.
      * obs. five.
        -- apply prefix_cons, prefix_nil.
        -- repeat constructor. apply Hlen.
        -- reflexivity.
        -- discriminate.
        -- intros c err Hr id Hid. simplify_eq. exact Hid.
      * specialize (IH cache w1). cbv zeta in IH.
        destruct (run h (storeAuthChain rest cache) w1) as [[o w2] t].
        destruct IH as (Hp & Hf & Hfed & Hall & Hdom).
        cbn [result trace fst snd] in *. obs. five.
        -- apply prefix_cons. exact Hp.
        -- constructor; [split; [reflexivity | apply Hlen] | exact Hf].
        -- exact Hfed.
        -- intros c Hr. f_equal. eapply Hall. exact Hr.
        -- exact Hdom.
    + exec. answer as [[new [lerr |]] w1]; exec.
      * obs. five.
        -- apply prefix_nil.
        -- constructor.
        -- reflexivity.
        -- discriminate.
        -- intros c err Hr id' Hid. simplify_eq. exact Hid.
      * rewrite Hlen, Nat.eqb_refl. cbn [negb]. exec.
        answer as [[[[[nid sae] rev] rid] [serr |]] w2]; exec.
        -- obs. five.
           ++ apply prefix_cons, prefix_nil.
           ++ repeat constructor. apply Hlen.
           ++ reflexivity.
           ++ discriminate.
           ++ intros c err Hr id' Hid. simplify_eq. apply Hgrow, Hid.
        -- specialize (IH (new ∪ cache) w2). cbv zeta in IH.
           destruct (run h (storeAuthChain rest (new ∪ cache)) w2) as [[o w3] t].
           destruct IH as (Hp & Hf & Hfed & Hall & Hdom).
           cbn [result trace fst snd] in *. obs. five.
           ++ apply prefix_cons. exact Hp.
           ++ constructor; [split; [reflexivity | apply Hlen] | exact Hf].
           ++ exact Hfed.
           ++ intros c Hr. f_equal. eapply Hall. exact Hr.
           ++ intros c err Hr id' Hid. eapply Hdom; [exact Hr |].
              apply Hgrow, Hid.
Qed.

Lemma filter_all_cached (cache : gmap string EventNID) (ids : list string) :
  Forall (λ id, is_Some (cache !! id)) ids →
  filter (λ id, cache !! id = None) ids = [].
Proof.
  induction 1 as [| id ids [nid Hid] _ IH]; [reflexivity |].
  rewrite filter_cons. destruct (decide (cache !! id = None)) as [Hn | _].
  - rewrite Hid in Hn. discriminate.
  - exact IH.
Qed.

Lemma filter_some_missing (known : gmap string EventNID) (ids : list string)
    (id : string) :
  id ∈ ids → known !! id = None →
  filter (λ id, known !! id = None) ids ≠ [].
Proof.
  intros Hin Hnone Hnil.
  assert (Hf : id ∈ filter (λ id, known !! id = None) ids)
    by (apply list_elem_of_filter; split; assumption).
  rewrite Hnil in Hf. inversion Hf.
Qed.

(** X1: a chain whose auth events are all in the cache is persisted without
    a single NID lookup, each event with exactly the cached NIDs, and the
    cache is left as it was. *)
Theorem storeAuthChain_cached (events : list Event)
    (cache : gmap string EventNID) (w : W) :
  Forall (λ ev, Forall (λ id, is_Some (cache !! id)) (AuthEventIDs ev))
         events →
  let r := run h (storeAuthChain events cache) w in
  nidLookups (trace r) = []
  ∧ Forall (λ a, a.1.2 = cachedNIDs cache a.1.1) (stored (trace r))
  ∧ (∀ c err, result r = Returned (c, err) → c = cache).
Proof.
  intros Hall. revert w.
  induction Hall as [| event rest Hev _ IH]; intros w; cbv zeta.
  - cbn [storeAuthChain]. exec. repeat split; try constructor.
    intros c err Hr. simplify_eq. reflexivity.
  - cbn [storeAuthChain]. cbv zeta. rewrite (filter_all_cached _ _ Hev).
    exec. rewrite length_fmap, Nat.eqb_refl. cbn [negb]. exec.
    answer as [[[[[nid sae] rev] rid] [serr |]] w1]; exec.
    + repeat split; [repeat constructor |].
      intros c err Hr. simplify_eq. reflexivity.
    + specialize (IH w1). cbv zeta in IH.
      destruct (run h (storeAuthChain rest cache) w1) as [[o w2] t].
      destruct IH as (Hl & Hs & Hc). cbn [result trace fst snd] in *.
      repeat split; [exact Hl | constructor; [reflexivity | exact Hs] | exact Hc].
Qed.

(** What the resolver does, by the Store's answer to the first lookup. *)
Lemma checkForMissingAuthEvents_cases (event : HeaderedEvent)
    (cache : gmap string EventNID) (w : W) :
  let ids := AuthEventIDs (Unwrap event) in
  let r := run h (checkForMissingAuthEvents ReverseTopologicalOrdering
                    event cache) w in
  let a := h _ (DB_EventNIDs ids) w in
  let lookup := MkCall (DB_EventNIDs ids) a.1 in
  let query := FSAPI_QueryEventAuthFromFederation (RoomID (Unwrap event))
                 (EventID (Unwrap event)) in
  (ids = [] ∧ r = (Returned (cache, None), w, []))
  ∨ (ids ≠ [] ∧ ∃ e, a.1.2 = Some e
     ∧ r = (Returned (cache, Some (Wrapf "r.DB.EventNIDs" e)), a.2, [lookup]))
  ∨ (ids ≠ [] ∧ a.1.2 = None ∧ (length ids < size a.1.1)%nat
     ∧ r = (Panicked "makeslice: cap out of range", a.2, [lookup]))
  ∨ (ids ≠ [] ∧ a.1.2 = None ∧ (size a.1.1 ≤ length ids)%nat
     ∧ filter (λ id, a.1.1 !! id = None) ids = []
     ∧ r = (Returned (a.1.1 ∪ cache, None), a.2, [lookup]))
  ∨ (ids ≠ [] ∧ a.1.2 = None ∧ (size a.1.1 ≤ length ids)%nat
     ∧ filter (λ id, a.1.1 !! id = None) ids ≠ []
     ∧ let f := h _ query a.2 in
       match f.1.2 with
       | Some e =>
           r = (Returned (a.1.1 ∪ cache,
                          Some (Wrapf "r.FSAPI.QueryEventAuthFromFederation" e)),
                f.2, [lookup; MkCall query f.1])
       | None =>
           r = (let '(o, w3, t) :=
                  run h (storeAuthChain (ReverseTopologicalOrdering f.1.1)
                           (a.1.1 ∪ cache)) f.2 in
                (o, w3, lookup :: MkCall query f.1 :: t))
       end).
Proof.
  cbv zeta. unfold checkForMissingAuthEvents. cbv zeta.
  destruct (AuthEventIDs (Unwrap event)) as [| id ids] eqn:Hids.
  - left. split; reflexivity.
  - right. exec.
    destruct (h _ (DB_EventNIDs (id :: ids)) w) as [[known [lerr |]] w1];
      exec; cbn [fst snd].
    + left. split; [discriminate |]. eexists. split; reflexivity.
    + right.
      destruct (Z.of_nat (length (id :: ids)) - Z.of_nat (size known) <? 0)%Z
        eqn:Hcap.
      * left. apply Z.ltb_lt in Hcap.
        split; [discriminate |]. split; [reflexivity |]. split; [lia |].
        reflexivity.
      * right. apply Z.ltb_ge in Hcap.
        destruct (filter _ (id :: ids)) as [| m ms] eqn:Hmiss; exec.
        -- left. split; [discriminate |]. split; [reflexivity |].
           split; [lia |]. split; reflexivity.
        -- right. split; [discriminate |]. split; [reflexivity |].
           split; [lia |]. split; [discriminate |].
           destruct (h _ (FSAPI_QueryEventAuthFromFederation _ _) w1)
             as [[evs [ferr |]] w2]; exec; cbn [fst snd]; [reflexivity |].
           destruct (run h (storeAuthChain _ _) w2) as [[o w3] t].
           reflexivity.
Qed.

Lemma storeAuthChain_errors (events : list Event) :
  ∀ (cache : gmap string EventNID) (w : W),
    let r := run h (storeAuthChain events cache) w in
    (∀ c e, result r = Returned (c, Some e) →
            ∃ cl e', last (trace r) = Some cl ∧ callError cl = Some e'
                     ∧ e = Wrapf (errorContext cl) e')
    ∧ (∀ c, result r = Returned (c, None) → noFailure (trace r) = true).
Proof.
  induction events as [| event rest IH]; intros cache w; cbv zeta.
  - cbn [storeAuthChain]. exec. split; [discriminate | reflexivity].
  - cbn [storeAuthChain]. cbv zeta.
    destruct (filter _ (AuthEventIDs event)) as [| id ids] eqn:Hneeded.
    + exec. rewrite length_fmap, Nat.eqb_refl. cbn [negb]. exec.
      answer as [[[[[nid sae] rev] rid] [serr |]] w1]; exec.
      * split; [| discriminate]. intros c e He. simplify_eq.
        eexists _, _. split; [reflexivity |]. split; reflexivity.
      * specialize (IH cache w1). cbv zeta in IH.
        destruct (run h (storeAuthChain rest cache) w1) as [[o w2] t].
        destruct IH as (Herr & Hok). cbn [result trace fst snd] in *.
        split.
        -- intros c e He. destruct (Herr c e He) as (cl & e' & Hl & Hc & ->).
           exists cl, e'. rewrite last_cons, Hl. repeat split; assumption.
        -- intros c Hc. specialize (Hok c Hc). unfold noFailure in *.
           cbn [forallb]. rewrite Hok. reflexivity.
    + exec. answer as [[new [lerr |]] w1]; exec.
      * split; [| discriminate]. intros c e He. simplify_eq.
        eexists _, _. split; [reflexivity |]. split; reflexivity.
      * rewrite length_fmap, Nat.eqb_refl. cbn [negb]. exec.
        answer as [[[[[nid sae] rev] rid] [serr |]] w2]; exec.
        -- split; [| discriminate]. intros c e He. simplify_eq.
           eexists _, _. split; [reflexivity |]. split; reflexivity.
        -- specialize (IH (new ∪ cache) w2). cbv zeta in IH.
           destruct (run h (storeAuthChain rest (new ∪ cache)) w2)
             as [[o w3] t].
           destruct IH as (Herr & Hok). cbn [result trace fst snd] in *.
           split.
           ++ intros c e He. destruct (Herr c e He) as (cl & e' & Hl & Hc & ->).
              exists cl, e'. rewrite !last_cons, Hl. repeat split; assumption.
           ++ intros c Hc. specialize (Hok c Hc). unfold noFailure in *.
              cbn [forallb]. rewrite Hok. reflexivity.
Qed.

Lemma resolver_errors (event : HeaderedEvent)
    (cache : gmap string EventNID) (w : W) :
  let r := run h (checkForMissingAuthEvents ReverseTopologicalOrdering
                    event cache) w in
  (∀ c e, result r = Returned (c, Some e) →
          ∃ cl e', last (trace r) = Some cl ∧ callError cl = Some e'
                   ∧ e = Wrapf (errorContext cl) e')
  ∧ (∀ c, result r = Returned (c, None) → noFailure (trace r) = true).
Proof.
  cbv zeta.
  destruct (checkForMissingAuthEvents_cases event cache w)
    as [[_ ->] | [(_ & e0 & He0 & ->) | [(_ & Hn & _ & ->)
       | [(_ & Hn & _ & _ & ->) | (_ & Hn & _ & _ & Hf)]]]].
  - split; [discriminate | reflexivity].
  - split; [| discriminate]. intros c e He. cbn in He. simplify_eq.
    eexists _, _. split; [reflexivity |]. split; [exact He0 | reflexivity].
  - split; discriminate.
  - split; [discriminate |]. intros c _.
    unfold noFailure. cbn. rewrite Hn. reflexivity.
  - cbv zeta in Hf.
    destruct (h _ (FSAPI_QueryEventAuthFromFederation _ _) _)
      as [[evs [ferr |]] w2] eqn:Hq; cbn [fst snd] in Hf.
    + rewrite Hf. split; [| discriminate]. intros c e He. cbn in He.
      simplify_eq. eexists _, _. split; [reflexivity |].
      split; reflexivity.
    + rewrite Hf.
      destruct (storeAuthChain_errors (ReverseTopologicalOrdering evs)
                  ((h _ (DB_EventNIDs (AuthEventIDs (Unwrap event))) w).1.1
                     ∪ cache) w2) as (Herr & Hok).
      destruct (run h (storeAuthChain _ _) w2) as [[o w3] t].
      cbn [result trace fst snd] in *. split.
      * intros c e He. destruct (Herr c e He) as (cl & e' & Hl & Hc & ->).
        exists cl, e'. rewrite !last_cons, Hl. repeat split; assumption.
      * intros c Hc. specialize (Hok c Hc). unfold noFailure in *.
        cbn [forallb]. rewrite Hok. cbn. rewrite Hn. reflexivity.
Qed.

(** X2: an error out of the resolver is the error of the last call it made,
    wrapped with the name of that call; and the resolver returns nil only
    when every call it made succeeded. *)
Theorem checkForMissingAuthEvents_errors (event : HeaderedEvent)
    (cache : gmap string EventNID) (w : W) :
  let r := run h (checkForMissingAuthEvents ReverseTopologicalOrdering
                    event cache) w in
  (∀ c e, result r = Returned (c, Some e) →
          ∃ cl e', last (trace r) = Some cl ∧ callError cl = Some e'
                   ∧ e = Wrapf (errorContext cl) e')
  ∧ (∀ c, result r = Returned (c, None) → noFailure (trace r) = true).
Proof.
  exact (resolver_errors event cache w).
Qed.

Lemma resolver_chain (event : HeaderedEvent)
    (cache : gmap string EventNID) (w : W) :
  let r := run h (checkForMissingAuthEvents ReverseTopologicalOrdering
                    event cache) w in
  (federationQueries (trace r) = [] ∧ stored (trace r) = [])
  ∨ ∃ evs ferr,
      federationAnswers (trace r) = [(evs, ferr)]
      ∧ federationQueries (trace r)
        = [(RoomID (Unwrap event), EventID (Unwrap event))]
      ∧ storedEvents (trace r) `prefix_of` ReverseTopologicalOrdering evs
      ∧ (ferr ≠ None → stored (trace r) = [])
      ∧ (∀ c, result r = Returned (c, None) →
              storedEvents (trace r) = ReverseTopologicalOrdering evs).
Proof.
  cbv zeta.
  destruct (checkForMissingAuthEvents_cases event cache w)
    as [[_ ->] | [(_ & e0 & He0 & ->) | [(_ & Hn & _ & ->)
       | [(_ & Hn & _ & _ & ->) | (_ & Hn & _ & _ & Hf)]]]];
    try (left; split; reflexivity).
  right. cbv zeta in Hf.
  destruct (h _ (FSAPI_QueryEventAuthFromFederation _ _) _)
    as [[evs [ferr |]] w2] eqn:Hq; cbn [fst snd] in Hf; rewrite Hf.
  - exists evs, (Some ferr). cbn [trace result fst snd].
    split; [reflexivity |]. split; [reflexivity |].
    split; [apply prefix_nil |]. split; [reflexivity | discriminate].
  - exists evs, None.
    destruct (storeAuthChain_stored (ReverseTopologicalOrdering evs)
                ((h _ (DB_EventNIDs (AuthEventIDs (Unwrap event))) w).1.1
                   ∪ cache) w2) as (Hp & _ & Hfed & Hall & _).
    destruct (storeAuthChain_run h (ReverseTopologicalOrdering evs)
                ((h _ (DB_EventNIDs (AuthEventIDs (Unwrap event))) w).1.1
                   ∪ cache) w2) as [Hcalls _].
    destruct (run h (storeAuthChain _ _) w2) as [[o w3] t].
    cbn [trace result fst snd] in *.
    assert (Hq0 : federationQueries t = []).
    { clear -Hfed. induction t as [| [X e x] t IH]; [reflexivity |].
      destruct e; try (apply IH; exact Hfed); discriminate Hfed. }
    split; [unfold federationAnswers in *; cbn; rewrite Hfed; reflexivity |].
    split; [unfold federationQueries in *; cbn; rewrite Hq0; reflexivity |].
    split; [exact Hp |]. split; [congruence | exact Hall].
Qed.

(** X3: the resolver asks federation at most once, for the incoming event;
    what it persists is a prefix of the peer's chain in reverse topological
    order, nothing when the query failed, and the whole chain when it
    returns nil. *)
Theorem checkForMissingAuthEvents_chain (event : HeaderedEvent)
    (cache : gmap string EventNID) (w : W) :
  let r := run h (checkForMissingAuthEvents ReverseTopologicalOrdering
                    event cache) w in
  (federationQueries (trace r) = [] ∧ stored (trace r) = [])
  ∨ ∃ evs ferr,
      federationAnswers (trace r) = [(evs, ferr)]
      ∧ federationQueries (trace r)
        = [(RoomID (Unwrap event), EventID (Unwrap event))]
      ∧ storedEvents (trace r) `prefix_of` ReverseTopologicalOrdering evs
      ∧ (ferr ≠ None → stored (trace r) = [])
      ∧ (∀ c, result r = Returned (c, None) →
              storedEvents (trace r) = ReverseTopologicalOrdering evs).
Proof.
  exact (resolver_chain event cache w).
Qed.

(** X4: whatever the resolver persists, it persists as not rejected and
    with as many auth event NIDs as the event names auth events; it touches
    neither the room state nor the output log, and makes no auth check and no
    redaction. *)
Theorem checkForMissingAuthEvents_frame_effects (event : HeaderedEvent)
    (cache : gmap string EventNID) (w : W) :
  let r := run h (checkForMissingAuthEvents ReverseTopologicalOrdering
                    event cache) w in
  Forall (λ a, a.2 = false ∧ length a.1.2 = length (AuthEventIDs a.1.1))
         (stored (trace r))
  ∧ emissions (trace r) = [] ∧ setStates (trace r) = []
  ∧ computedSnapshots (trace r) = [] ∧ authChecks (trace r) = []
  ∧ softFailChecks (trace r) = [] ∧ redactions (trace r) = [].
Proof.
  cbv zeta. split.
  - destruct (checkForMissingAuthEvents_cases event cache w)
      as [[_ ->] | [(_ & e0 & He0 & ->) | [(_ & Hn & _ & ->)
         | [(_ & Hn & _ & _ & ->) | (_ & Hn & _ & _ & Hf)]]]];
      try constructor.
    cbv zeta in Hf.
    destruct (h _ (FSAPI_QueryEventAuthFromFederation _ _) _)
      as [[evs [ferr |]] w2] eqn:Hq; cbn [fst snd] in Hf; rewrite Hf;
      [constructor |].
    destruct (storeAuthChain_stored (ReverseTopologicalOrdering evs)
                ((h _ (DB_EventNIDs (AuthEventIDs (Unwrap event))) w).1.1
                   ∪ cache) w2) as (_ & Hs & _).
    destruct (run h (storeAuthChain _ _) w2) as [[o w3] t]. exact Hs.
  - destruct (checkForMissingAuthEvents_run h ReverseTopologicalOrdering
                event cache w) as [Hcalls _].
    apply resolver_front, front_observations in Hcalls.
    destruct Hcalls as (H1 & H2 & H3 & H4 & H5 & H6 & _). tauto.
Qed.

Lemma resolver_panics_iff (event : HeaderedEvent)
    (cache : gmap string EventNID) (w : W) :
  let ids := AuthEventIDs (Unwrap event) in
  let r := run h (checkForMissingAuthEvents ReverseTopologicalOrdering
                    event cache) w in
  let a := h _ (DB_EventNIDs ids) w in
  ((∃ m, result r = Panicked m)
   ↔ ids ≠ [] ∧ a.1.2 = None ∧ (length ids < size a.1.1)%nat)
  ∧ ((∃ m, result r = Panicked m) → trace r = [MkCall (DB_EventNIDs ids) a.1]).
Proof.
  cbv zeta.
  destruct (checkForMissingAuthEvents_cases event cache w)
    as [[Hi ->] | [(Hi & e0 & He0 & ->) | [(Hi & Hn & Hc & ->)
       | [(Hi & Hn & Hc & _ & ->) | (Hi & Hn & Hc & _ & Hf)]]]];
    cbn [result trace fst snd].
  - split; [split |]; [intros [m Hm]; discriminate | tauto
                      | intros [m Hm]; discriminate].
  - split; [split |]; [intros [m Hm]; discriminate
                      | intros (_ & Hn & _); congruence
                      | intros [m Hm]; discriminate].
  - split; [split |]; [tauto | eauto | reflexivity].
  - split; [split |]; [intros [m Hm]; discriminate
                      | intros (_ & _ & Hlt); lia
                      | intros [m Hm]; discriminate].
  - cbv zeta in Hf.
    assert (Hno : ¬ ∃ m, result (run h (checkForMissingAuthEvents
                            ReverseTopologicalOrdering event cache) w)
                         = Panicked m).
    { destruct (h _ (FSAPI_QueryEventAuthFromFederation _ _) _)
        as [[evs [ferr |]] w2] eqn:Hq; cbn [fst snd] in Hf; rewrite Hf.
      - intros [m Hm]. discriminate.
      - destruct (storeAuthChain_run h (ReverseTopologicalOrdering evs)
                    ((h _ (DB_EventNIDs (AuthEventIDs (Unwrap event))) w).1.1
                       ∪ cache) w2) as [_ (c' & err & Hres & _)].
        destruct (run h (storeAuthChain _ _) w2) as [[o w3] t].
        cbn [result fst snd] in *. intros [m Hm]. congruence. }
    split; [split |]; [tauto | intros (_ & _ & Hlt); lia | tauto].
Qed.

(** X5: the resolver panics exactly when the Store's answer to the first
    lookup has more entries than the event has auth event IDs (the capacity
    of line 264 is negative); it has then made that one call only. *)
Theorem checkForMissingAuthEvents_panics_iff (event : HeaderedEvent)
    (cache : gmap string EventNID) (w : W) :
  let ids := AuthEventIDs (Unwrap event) in
  let r := run h (checkForMissingAuthEvents ReverseTopologicalOrdering
                    event cache) w in
  let a := h _ (DB_EventNIDs ids) w in
  ((∃ m, result r = Panicked m)
   ↔ ids ≠ [] ∧ a.1.2 = None ∧ (length ids < size a.1.1)%nat)
  ∧ ((∃ m, result r = Panicked m) → trace r = [MkCall (DB_EventNIDs ids) a.1]).
Proof.
  exact (resolver_panics_iff event cache w).
Qed.

(** X6: when the first lookup succeeds (without the panic above) and leaves
    at least one auth event ID unknown, the resolver makes exactly one
    federation query, for the room and the ID of the incoming event. *)
Theorem checkForMissingAuthEvents_queries_when_missing (event : HeaderedEvent)
    (cache : gmap string EventNID) (w : W) (id : string) :
  let ids := AuthEventIDs (Unwrap event) in
  let r := run h (checkForMissingAuthEvents ReverseTopologicalOrdering
                    event cache) w in
  let a := h _ (DB_EventNIDs ids) w in
  a.1.2 = None → (size a.1.1 ≤ length ids)%nat →
  id ∈ ids → a.1.1 !! id = None →
  federationQueries (trace r)
  = [(RoomID (Unwrap event), EventID (Unwrap event))].
Proof.
  cbv zeta. intros Hok Hcap Hin Hnone.
  pose proof (filter_some_missing _ _ _ Hin Hnone) as Hmiss.
  destruct (checkForMissingAuthEvents_cases event cache w)
    as [[Hi _] | [(_ & e0 & He0 & _) | [(_ & _ & Hc & _)
       | [(_ & _ & _ & Hf & _) | (_ & _ & _ & _ & Hf)]]]].
  - rewrite Hi in Hin. inversion Hin.
  - congruence.
  - lia.
  - contradiction.
  - destruct (resolver_chain event cache w)
      as [[Hq _] | (evs & ferr & _ & Hq & _)]; [| exact Hq].
    exfalso. cbv zeta in Hf.
    destruct (h _ (FSAPI_QueryEventAuthFromFederation _ _) _)
      as [[evs [ferr |]] w2] eqn:Hfed; cbn [fst snd] in Hf;
      rewrite Hf in Hq.
    + discriminate Hq.
    + destruct (run h (storeAuthChain _ _) w2) as [[o w3] t].
      discriminate Hq.
Qed.

(** X7: the cache the resolver leaves behind still has every key it had. *)
Theorem checkForMissingAuthEvents_cache_grows (event : HeaderedEvent)
    (cache cache' : gmap string EventNID) (w : W) (err : option error) :
  result (run h (checkForMissingAuthEvents ReverseTopologicalOrdering
                   event cache) w) = Returned (cache', err) →
  ∀ id, is_Some (cache !! id) → is_Some (cache' !! id).
Proof.
  assert (Hgrow : ∀ (new : gmap string EventNID) id,
            is_Some (cache !! id) → is_Some ((new ∪ cache) !! id)).
  { intros new id [v Hv]. rewrite lookup_union, Hv.
    destruct (new !! id); eauto. }
  intros Hres id Hid.
  destruct (checkForMissingAuthEvents_cases event cache w)
    as [[_ Hr] | [(_ & e0 & He0 & Hr) | [(_ & Hn & _ & Hr)
       | [(_ & Hn & _ & _ & Hr) | (_ & Hn & _ & _ & Hf)]]]];
    try (rewrite Hr in Hres; cbn in Hres; simplify_eq; eauto; fail).
  cbv zeta in Hf.
  destruct (h _ (FSAPI_QueryEventAuthFromFederation _ _) _)
    as [[evs [ferr |]] w2] eqn:Hq; cbn [fst snd] in Hf; rewrite Hf in Hres.
  - cbn in Hres. simplify_eq. eauto.
  - destruct (storeAuthChain_stored (ReverseTopologicalOrdering evs)
                ((h _ (DB_EventNIDs (AuthEventIDs (Unwrap event))) w).1.1
                   ∪ cache) w2) as (_ & _ & _ & _ & Hdom).
    destruct (run h (storeAuthChain _ _) w2) as [[o w3] t].
    cbn [result fst snd] in *. eapply Hdom; [exact Hres |]. eauto.
Qed.

(** ** Every path through a call *)

(** How lines 102-137 go on from the resolver's result. *)
Lemma ingest_resolver (input : InputRoomEvent) (w : W) :
  let rr := run h (checkForMissingAuthEvents ReverseTopologicalOrdering
                     (Event_ input) ∅) w in
  let r := run h (processRoomEvent_ingest ReverseTopologicalOrdering
                    DeduplicateStateEntries input) w in
  match result rr with
  | Panicked m => r = (Panicked m, rr.1.2, trace rr)
  | Returned (_, Some e) =>
      let logged := Log LvlError "XXX: r.checkForMissingAuthEvents" (Some e) in
      r = (Returned ("", Some (Wrapf "r.checkForMissingAuthEvents" e)),
           (h _ logged rr.1.2).2, trace rr ++ [MkCall logged tt])
  | Returned (_, None) =>
      ∃ nids rejErr sf serr w1,
        (Kind_ input ≠ KindNew → sf = false)
        ∧ r = (let '(o, w2, t) :=
                 run h (processRoomEvent_store DeduplicateStateEntries input
                          nids rejErr (rejected rejErr) sf) w1 in
               (o, w2,
                trace rr ++ authTrace input nids rejErr
                         ++ softFailTrace input sf serr ++ t))
  end.
Proof.
  cbv zeta.
  unfold processRoomEvent_ingest, checkForMissingPrevEvents. cbv zeta.
  rewrite run_bind.
  destruct (run h (checkForMissingAuthEvents _ (Event_ input) ∅) w)
    as [[o1 w1] t1].
  cbn [trace result fst snd].
  destruct o1 as [[cache [e |]] | m].
  - exec. destruct (h _ (Log LvlError _ (Some e)) w1) as [[] w2].
    reflexivity.
  - exec.
    destruct (h _ (helpers_CheckAuthEvents (Event_ input)
                     (in_AuthEventIDs input)) w1)
      as [[nids rejErr] w2] eqn:Hauth.
    unfold authTrace, softFailTrace.
    destruct rejErr as [rej |]; exec.
    + destruct (h _ (Log LvlError _ (Some rej)) w2) as [[] w3]. exec.
      destruct (Kind_ input) eqn:Hkind; exec.
      * exists nids, (Some rej), false, None, w3.
        split; [reflexivity |].
        destruct (run h (processRoomEvent_store _ _ _ _ _ _) w3)
          as [[o w4] t]. reflexivity.
      * destruct (h _ (helpers_CheckForSoftFail (Event_ input)
                         (StateEventIDs input)) w3)
          as [[sf serr] w4].
        destruct serr as [se |]; exec.
        -- destruct (h _ (Log LvlInfo _ (Some se)) w4) as [[] w5]. exec.
           exists nids, (Some rej), sf, (Some se), w5.
           split; [congruence |].
           destruct (run h (processRoomEvent_store _ _ _ _ _ _) w5)
             as [[o w6] t]. reflexivity.
        -- exists nids, (Some rej), sf, None, w4.
           split; [congruence |].
           destruct (run h (processRoomEvent_store _ _ _ _ _ _) w4)
             as [[o w6] t]. reflexivity.
      * exists nids, (Some rej), false, None, w3.
        split; [reflexivity |].
        destruct (run h (processRoomEvent_store _ _ _ _ _ _) w3)
          as [[o w4] t]. reflexivity.
    + destruct (Kind_ input) eqn:Hkind; exec.
      * exists nids, None, false, None, w2.
        split; [reflexivity |].
        destruct (run h (processRoomEvent_store _ _ _ _ _ _) w2)
          as [[o w4] t]. reflexivity.
      * destruct (h _ (helpers_CheckForSoftFail (Event_ input)
                         (StateEventIDs input)) w2)
          as [[sf serr] w4].
        destruct serr as [se |]; exec.
        -- destruct (h _ (Log LvlInfo _ (Some se)) w4) as [[] w5]. exec.
           exists nids, None, sf, (Some se), w5.
           split; [congruence |].
           destruct (run h (processRoomEvent_store _ _ _ _ _ _) w5)
             as [[o w6] t]. reflexivity.
        -- exists nids, None, sf, None, w4.
           split; [congruence |].
           destruct (run h (processRoomEvent_store _ _ _ _ _ _) w4)
             as [[o w6] t]. reflexivity.
      * exists nids, None, false, None, w2.
        split; [reflexivity |].
        destruct (run h (processRoomEvent_store _ _ _ _ _ _) w2)
          as [[o w4] t]. reflexivity.
  - reflexivity.
Qed.

(** How [processRoomEvent] gets to line 102: at once for a New or Old input;
    for an Outlier input after the lookup by ID, unless that lookup ends the
    call. *)
Lemma processRoomEvent_shape (input : InputRoomEvent) (w : W) :
  let event := Unwrap (Event_ input) in
  let a := h _ (DB_EventsFromIDs [EventID event]) w in
  let lookup := MkCall (DB_EventsFromIDs [EventID event]) a.1 in
  let logged := Log LvlInfo "Already processed event; ignoring" None in
  let r := run h (processRoomEvent RoomVersion_EventIDFormat
                    ReverseTopologicalOrdering DeduplicateStateEntries
                    input) w in
  (Kind_ input ≠ KindOutlier
   ∧ r = run h (processRoomEvent_ingest ReverseTopologicalOrdering
                  DeduplicateStateEntries input) w)
  ∨ (Kind_ input = KindOutlier
     ∧ (r = (Returned (EventID event, None), (h _ logged a.2).2,
             [lookup; MkCall logged tt])
        ∨ r = (let '(o, w2, t) :=
                 run h (processRoomEvent_ingest ReverseTopologicalOrdering
                          DeduplicateStateEntries input) a.2 in
               (o, w2, lookup :: t)))).
Proof.
  cbv zeta. unfold processRoomEvent. cbv zeta.
  destruct (Kind_ input) eqn:Hkind; exec;
    [right; split; [reflexivity |]
    | left; split; [discriminate |] | left; split; [discriminate |]];
    try (destruct (run h (processRoomEvent_ingest _ _ input) w)
           as [[o w2] t]; reflexivity).
  destruct (h _ (DB_EventsFromIDs _) w) as [[evs err2] w1]. cbn [fst snd].
  assert (Hgo : ∀ p : outcome (string * option error) * W * list Call,
            p = (let '(o, w2, t) :=
                   run h (processRoomEvent_ingest ReverseTopologicalOrdering
                            DeduplicateStateEntries input) w1 in
                 (o, w2, MkCall (DB_EventsFromIDs
                                   [EventID (Unwrap (Event_ input))])
                                (evs, err2) :: t)) →
            p = (Returned (EventID (Unwrap (Event_ input)), None),
                 (h _ (Log LvlInfo "Already processed event; ignoring" None)
                    w1).2,
                 [MkCall (DB_EventsFromIDs [EventID (Unwrap (Event_ input))])
                         (evs, err2);
                  MkCall (Log LvlInfo "Already processed event; ignoring"
                            None) tt])
            ∨ p = (let '(o, w2, t) :=
                     run h (processRoomEvent_ingest ReverseTopologicalOrdering
                              DeduplicateStateEntries input) w1 in
                   (o, w2, MkCall (DB_EventsFromIDs
                                     [EventID (Unwrap (Event_ input))])
                                  (evs, err2) :: t))) by (intros; right; assumption).
  destruct err2 as [e2 |]; exec;
    [apply Hgo; destruct (run h _ w1) as [[o w2] t]; reflexivity |].
  destruct evs as [| ev0 [| ev1 evs]]; exec;
    try (apply Hgo; destruct (run h _ w1) as [[o w2] t]; reflexivity).
  destruct (RoomVersion_EventIDFormat _) as [[| |] [e3 |]]; exec;
    try (apply Hgo; destruct (run h _ w1) as [[o w2] t]; reflexivity);
    try (left; destruct (h _ (Log LvlInfo _ None) w1) as [[] w3];
         reflexivity).
  destruct (bool_decide _); exec;
    [left; destruct (h _ (Log LvlInfo _ None) w1) as [[] w3]; reflexivity |].
  apply Hgo. destruct (run h _ w1) as [[o w2] t]. reflexivity.
Qed.

(** Every run of [processRoomEvent], with the resolver's own run in it. *)
Lemma processRoomEvent_paths (input : InputRoomEvent) (w : W) :
  let event := Unwrap (Event_ input) in
  let a := h _ (DB_EventsFromIDs [EventID event]) w in
  let lookup := MkCall (DB_EventsFromIDs [EventID event]) a.1 in
  let r := run h (processRoomEvent RoomVersion_EventIDFormat
                    ReverseTopologicalOrdering DeduplicateStateEntries
                    input) w in
  (Kind_ input = KindOutlier
   ∧ result r = Returned (EventID event, None)
   ∧ trace r = [lookup;
                MkCall (Log LvlInfo "Already processed event; ignoring" None)
                       tt])
  ∨ ∃ pre w0,
      ((pre = [] ∧ w0 = w ∧ Kind_ input ≠ KindOutlier)
       ∨ (pre = [lookup] ∧ w0 = a.2 ∧ Kind_ input = KindOutlier))
      ∧ let rr := run h (checkForMissingAuthEvents ReverseTopologicalOrdering
                           (Event_ input) ∅) w0 in
        (∃ m, result rr = Panicked m ∧ result r = Panicked m
              ∧ trace r = pre ++ trace rr)
        ∨ (∃ c e, result rr = Returned (c, Some e)
                  ∧ result r
                    = Returned ("", Some (Wrapf "r.checkForMissingAuthEvents" e))
                  ∧ trace r
                    = pre ++ trace rr
                        ++ [MkCall (Log LvlError
                                      "XXX: r.checkForMissingAuthEvents"
                                      (Some e)) tt])
        ∨ (∃ c nids rejErr sf serr w1 t,
             result rr = Returned (c, None)
             ∧ (Kind_ input ≠ KindNew → sf = false)
             ∧ run h (processRoomEvent_store DeduplicateStateEntries input
                        nids rejErr (rejected rejErr) sf) w1
               = (result r, r.1.2, t)
             ∧ trace r = pre ++ trace rr ++ authTrace input nids rejErr
                             ++ softFailTrace input sf serr ++ t).
Proof.
  cbv zeta.
  assert (Hingest : ∀ w0 pre,
    let rr := run h (checkForMissingAuthEvents ReverseTopologicalOrdering
                       (Event_ input) ∅) w0 in
    let r := (let '(o, w2, t) :=
                run h (processRoomEvent_ingest ReverseTopologicalOrdering
                         DeduplicateStateEntries input) w0 in
              (o, w2, pre ++ t)) in
    (∃ m, result rr = Panicked m ∧ result r = Panicked m
          ∧ trace r = pre ++ trace rr)
    ∨ (∃ c e, result rr = Returned (c, Some e)
              ∧ result r
                = Returned ("", Some (Wrapf "r.checkForMissingAuthEvents" e))
              ∧ trace r
                = pre ++ trace rr
                    ++ [MkCall (Log LvlError
                                  "XXX: r.checkForMissingAuthEvents"
                                  (Some e)) tt])
    ∨ (∃ c nids rejErr sf serr w1 t,
         result rr = Returned (c, None)
         ∧ (Kind_ input ≠ KindNew → sf = false)
         ∧ run h (processRoomEvent_store DeduplicateStateEntries input
                    nids rejErr (rejected rejErr) sf) w1
           = (result r, r.1.2, t)
         ∧ trace r = pre ++ trace rr ++ authTrace input nids rejErr
                         ++ softFailTrace input sf serr ++ t)).
  { intros w0 pre. cbv zeta.
    pose proof (ingest_resolver input w0) as Hi. cbv zeta in Hi.
    destruct (run h (checkForMissingAuthEvents _ (Event_ input) ∅) w0)
      as [[o1 w1] t1].
    cbn [result trace fst snd] in *.
    destruct o1 as [[c [e |]] | m].
    - right. left. rewrite Hi. exists c, e. repeat split.
    - right. right. destruct Hi as (nids & rejErr & sf & serr & w2 & Hsf & ->).
      destruct (run h (processRoomEvent_store _ _ _ _ _ _) w2)
        as [[o w3] t] eqn:Hrun.
      exists c, nids, rejErr, sf, serr, w2, t. repeat split; assumption.
    - left. rewrite Hi. exists m. repeat split. }
  destruct (processRoomEvent_shape input w) as [[Hk ->] | [Hk [-> | ->]]].
  - right. exists [], w. split; [left; repeat split; assumption |].
    specialize (Hingest w []). cbv zeta in Hingest. cbn [app] in Hingest.
    destruct (run h (processRoomEvent_ingest _ _ input) w) as [[o w2] t].
    exact Hingest.
  - left. repeat split. exact Hk.
  - right. eexists [_], _. split; [right; repeat split; assumption |].
    specialize (Hingest (h _ (DB_EventsFromIDs
                                [EventID (Unwrap (Event_ input))]) w).2
                        [MkCall (DB_EventsFromIDs
                                   [EventID (Unwrap (Event_ input))])
                                (h _ (DB_EventsFromIDs
                                        [EventID (Unwrap (Event_ input))]) w).1]).
    cbv zeta in Hingest. cbn [app] in Hingest.
    destruct (run h (processRoomEvent_ingest _ _ input) _) as [[o w2] t].
    exact Hingest.
Qed.

Ltac front_none :=
  let c := fresh "c" in
  let Hfc := fresh "Hfc" in
  let e0 := fresh "e" in
  intros c Hfc; destruct c as [? e0 ?]; destruct e0;
  (discriminate Hfc || reflexivity).

(** An observation that sees nothing in the calls made before line 139
    sees the trace of lines 139-244 only. *)
Lemma phases_lift {A : Type} (f : Call → option A) (input : InputRoomEvent)
    (t0 : list Call) (nids : list EventNID) (rejErr : option error)
    (sf : bool) (serr : option error) (t : list Call) :
  (∀ c, frontCall c = true → f c = None) →
  (∀ hd ids a, f (MkCall (helpers_CheckAuthEvents hd ids) a) = None) →
  (∀ hd ids a, f (MkCall (helpers_CheckForSoftFail hd ids) a) = None) →
  Forall (λ c, frontCall c = true) t0 →
  omap f (t0 ++ authTrace input nids rejErr
             ++ softFailTrace input sf serr ++ t)
  = omap f t.
Proof.
  intros Hfront Hauth Hsoft Ht0.
  rewrite !omap_app.
  rewrite (omap_none f t0 Ht0 Hfront).
  assert (Hlog : ∀ l m e a, f (MkCall (Log l m e) a) = None)
    by (intros; apply Hfront; reflexivity).
  unfold authTrace, softFailTrace.
  destruct rejErr, (Kind_ input), serr; cbn [omap list_omap app];
    rewrite ?Hauth, ?Hsoft, ?Hlog; reflexivity.
Qed.

Ltac lifted Htr Ht0 :=
  rewrite Htr; apply phases_lift;
  [front_none | reflexivity | reflexivity | exact Ht0].

(** ** What a call leaves undone *)

Lemma store_outlier (input : InputRoomEvent) (nids : list EventNID)
    (rejErr : option error) (isRej sf : bool) (w w' : W)
    (o : outcome (string * option error)) (t : list Call) :
  Kind_ input = KindOutlier →
  run h (processRoomEvent_store DeduplicateStateEntries input nids rejErr
           isRej sf) w = (o, w', t) →
  emissions t = [] ∧ setStates t = [] ∧ computedSnapshots t = []
  ∧ roomInfoAnswers t = [] ∧ membershipLookups t = []
  ∧ (∀ id err, o = Returned (id, err) → err = None ∨ id = "").
Proof.
  intros Hkind H.
  unfold processRoomEvent_store, calculateAndSetState in H.
  rewrite Hkind in H.
  crunch H; simplify_eq;
    (repeat split; try reflexivity);
    intros id' err' Heq; simplify_eq; eauto.
Qed.

(** X8: an Outlier input never leads to a room lookup, a state computation,
    a soft-fail check, an extremity update or an output; and it never returns
    an event ID together with an error. *)
Theorem processRoomEvent_outlier_frame (input : InputRoomEvent) (w : W) :
  let r := run h (processRoomEvent RoomVersion_EventIDFormat
                    ReverseTopologicalOrdering DeduplicateStateEntries
                    input) w in
  Kind_ input = KindOutlier →
  emissions (trace r) = [] ∧ setStates (trace r) = []
  ∧ computedSnapshots (trace r) = [] ∧ roomInfoAnswers (trace r) = []
  ∧ membershipLookups (trace r) = [] ∧ softFailChecks (trace r) = []
  ∧ (∀ id err, result r = Returned (id, err) → err = None ∨ id = "").
Proof.
  intros r Hkind.
  destruct (processRoomEvent_run h RoomVersion_EventIDFormat
              ReverseTopologicalOrdering DeduplicateStateEntries input w)
    as [[Hfront Hres] | Hreach]; fold r in Hfront, Hres || fold r in Hreach.
  - destruct (front_observations _ Hfront) as (_ & Hs & He & _ & Hst & Hc & _).
    repeat split; try assumption.
    + apply omap_none; [exact Hfront | front_none].
    + apply omap_none; [exact Hfront | front_none].
    + intros id err Hr. rewrite Hr in Hres.
      destruct Hres as [[m Hm] | [[e He'] | [_ Ho]]]; simplify_eq; eauto.
  - apply reached_observations in Hreach.
    destruct Hreach as (t0 & nids & rejErr & sf & serr & w1 & t & [Ht0 Htr]
                        & Hrun & _ & _ & Hs & He & _ & Hst & Hc & _).
    destruct (store_outlier _ _ _ _ _ _ _ _ _ Hkind Hrun)
      as (Te & Tst & Tc & Tri & Tm & Tres).
    rewrite He, Hst, Hc, Hs, Hkind.
    repeat split; try assumption.
    + unfold roomInfoAnswers. rewrite <- Tri. lifted Htr Ht0.
    + unfold membershipLookups. rewrite <- Tm. lifted Htr Ht0.
Qed.

Lemma store_failure (input : InputRoomEvent) (nids : list EventNID)
    (rejErr : option error) (isRej sf : bool) (w w' : W)
    (o : outcome (string * option error)) (t : list Call)
    (nid : EventNID) (sae : StateAtEvent) (rev : option Event)
    (rid : string) (e : error) :
  run h (processRoomEvent_store DeduplicateStateEntries input nids rejErr
           isRej sf) w = (o, w', t) →
  head (storeAnswers t) = Some (nid, sae, rev, rid, Some e) →
  o = Returned ("", Some (Wrapf "r.DB.StoreEvent" e))
  ∧ t = [MkCall (DB_StoreEvent (Unwrap (Event_ input)) nids isRej)
                (nid, sae, rev, rid, Some e)].
Proof.
  intros H Hans.
  unfold processRoomEvent_store in H. cbv zeta in H. exec_in H.
  destruct (h _ (DB_StoreEvent _ _ _) w) as [[[[[nid' sae'] rev'] rid'] err] w1].
  destruct err as [e' |]; exec_in H.
  - simplify_eq. cbn in Hans. simplify_eq. split; reflexivity.
  - exfalso.
    destruct (run h _ w1) as [[o2 w2] t2] in H; simplify_eq;
      cbn in Hans; simplify_eq.
Qed.

(** X9: when the [StoreEvent] call for the incoming event fails, the call
    returns that error wrapped, with an empty ID, and does nothing more: no
    redaction, no room lookup, no state binding, no emission. *)
Theorem processRoomEvent_store_failure (input : InputRoomEvent) (w : W)
    (nids : list EventNID) (rejErr : option error) (nid : EventNID)
    (sae : StateAtEvent) (rev : option Event) (rid : string) (e : error) :
  let r := run h (processRoomEvent RoomVersion_EventIDFormat
                    ReverseTopologicalOrdering DeduplicateStateEntries
                    input) w in
  authChecks (trace r) = [(nids, rejErr)] →
  last (storeAnswers (trace r)) = Some (nid, sae, rev, rid, Some e) →
  result r = Returned ("", Some (Wrapf "r.DB.StoreEvent" e))
  ∧ last (trace r)
    = Some (MkCall (DB_StoreEvent (Unwrap (Event_ input)) nids
                      (rejected rejErr))
                   (nid, sae, rev, rid, Some e))
  ∧ emissions (trace r) = [] ∧ redactions (trace r) = []
  ∧ setStates (trace r) = [] ∧ roomInfoAnswers (trace r) = [].
Proof.
  intros r Hauth Hans.
  destruct (processRoomEvent_run h RoomVersion_EventIDFormat
              ReverseTopologicalOrdering DeduplicateStateEntries input w)
    as [[Hfront _] | Hreach]; fold r in Hfront || fold r in Hreach.
  - apply front_observations in Hfront. destruct Hfront as [Hnone _].
    congruence.
  - apply reached_observations in Hreach.
    destruct Hreach as (t0 & nids' & rejErr' & sf & serr & w1 & t & [Ht0 Htr]
                        & Hrun & _ & Ha & _ & He & Hr & Hst & _ & _ & _ & _
                        & Hlast & _).
    rewrite Ha in Hauth. rewrite Hlast in Hans. simplify_eq.
    destruct (store_failure _ _ _ _ _ _ _ _ _ _ _ _ _ _ Hrun Hans)
      as (Hres & Ht).
    split; [exact Hres |].
    split; [rewrite Htr, Ht, !app_assoc; apply last_snoc |].
    rewrite He, Hr, Hst, Ht. repeat split.
    unfold roomInfoAnswers.
    transitivity (omap roomInfoAnswer t); [lifted Htr Ht0 |].
    rewrite Ht. reflexivity.
Qed.

Lemma store_room_lookup (input : InputRoomEvent) (nids : list EventNID)
    (rejErr : option error) (isRej sf : bool) (w w' : W)
    (o : outcome (string * option error)) (t : list Call)
    (room : string) (ri : option RoomInfo) (err : option error) :
  run h (processRoomEvent_store DeduplicateStateEntries input nids rejErr
           isRej sf) w = (o, w', t) →
  roomInfoAnswers t = [(room, (ri, err))] →
  ri = None ∨ err ≠ None →
  o = Returned ("", Some match err with
                         | Some e => Wrapf "r.DB.RoomInfo" e
                         | None => Strf "r.DB.RoomInfo missing for room" room
                         end)
  ∧ last t = Some (MkCall (DB_RoomInfo room) (ri, err))
  ∧ emissions t = [] ∧ setStates t = [] ∧ stateCalcs t = []
  ∧ addStates t = []
  ∧ ∃ ans, head (storeAnswers t) = Some ans ∧ ans.2 = None.
Proof.
  intros H Hroom Hmiss.
  unfold processRoomEvent_store, calculateAndSetState in H.
  crunch H; simplify_eq; cbn in Hroom; simplify_eq;
    try (exfalso; destruct Hmiss; congruence);
    (repeat split; try reflexivity); eexists; split; reflexivity.
Qed.

(** X10: when the room lookup finds no room, or fails, the event has already
    been stored; the call returns an error naming the room (or wrapping the
    lookup's error), with an empty ID, computes no state and emits
    nothing. *)
Theorem processRoomEvent_room_missing (input : InputRoomEvent) (w : W)
    (room : string) (ri : option RoomInfo) (err : option error) :
  let r := run h (processRoomEvent RoomVersion_EventIDFormat
                    ReverseTopologicalOrdering DeduplicateStateEntries
                    input) w in
  roomInfoAnswers (trace r) = [(room, (ri, err))] →
  ri = None ∨ err ≠ None →
  result r = Returned ("", Some match err with
                                | Some e => Wrapf "r.DB.RoomInfo" e
                                | None =>
                                    Strf "r.DB.RoomInfo missing for room" room
                                end)
  ∧ last (trace r) = Some (MkCall (DB_RoomInfo room) (ri, err))
  ∧ emissions (trace r) = [] ∧ setStates (trace r) = []
  ∧ stateCalcs (trace r) = [] ∧ addStates (trace r) = []
  ∧ ∃ ans, last (storeAnswers (trace r)) = Some ans ∧ ans.2 = None.
Proof.
  intros r Hroom Hmiss.
  destruct (processRoomEvent_run h RoomVersion_EventIDFormat
              ReverseTopologicalOrdering DeduplicateStateEntries input w)
    as [[Hfront _] | Hreach]; fold r in Hfront || fold r in Hreach.
  - exfalso. unfold roomInfoAnswers in Hroom.
    rewrite (omap_none roomInfoAnswer _ Hfront) in Hroom;
      [discriminate | front_none].
  - apply reached_observations in Hreach.
    destruct Hreach as (t0 & nids' & rejErr' & sf & serr & w1 & t & [Ht0 Htr]
                        & Hrun & _ & _ & _ & He & _ & Hst & _ & _ & _ & _
                        & Hlast & _).
    assert (Hri : roomInfoAnswers (trace r) = roomInfoAnswers t)
      by (unfold roomInfoAnswers; lifted Htr Ht0).
    assert (Hsc : stateCalcs (trace r) = stateCalcs t)
      by (unfold stateCalcs; lifted Htr Ht0).
    assert (Has : addStates (trace r) = addStates t)
      by (unfold addStates; lifted Htr Ht0).
    rewrite Hri in Hroom.
    destruct (store_room_lookup _ _ _ _ _ _ _ _ _ _ _ _ Hrun Hroom Hmiss)
      as (Hres & Hl & Te & Tst & Tsc & Tas & ans & Hans & Hok).
    split; [exact Hres |]. split.
    { rewrite Htr, !last_app, Hl. reflexivity. }
    rewrite He, Hst, Hsc, Has, Hlast. repeat split; try assumption.
    exists ans. split; assumption.
Qed.

Ltac zero_test :=
  try (exfalso;
       match goal with
       | Hb : (BeforeStateSnapshotNID ?s =? 0)%Z = true,
         Hn : BeforeStateSnapshotNID ?s ≠ 0 |- _ =>
           apply Z.eqb_eq in Hb; contradiction
       end).

Lemma store_state_known (input : InputRoomEvent) (nids : list EventNID)
    (rejErr : option error) (isRej sf : bool) (w w' : W)
    (o : outcome (string * option error)) (t : list Call)
    (nid : EventNID) (sae : StateAtEvent) (rev : option Event)
    (rid : string) (serr : option error) :
  run h (processRoomEvent_store DeduplicateStateEntries input nids rejErr
           isRej sf) w = (o, w', t) →
  head (storeAnswers t) = Some (nid, sae, rev, rid, serr) →
  BeforeStateSnapshotNID sae ≠ 0 →
  setStates t = [] ∧ computedSnapshots t = [] ∧ stateCalcs t = []
  ∧ addStates t = [] ∧ membershipLookups t = [].
Proof.
  intros H Hans Hnz.
  unfold processRoomEvent_store, calculateAndSetState in H.
  crunch H; simplify_eq; prune; cbn in Hans; simplify_eq; zero_test;
    repeat split.
Qed.

(** X11: when [StoreEvent] reports a non-zero [BeforeStateSnapshotNID], the
    state before the event is taken as known: no membership lookup, no state
    computation, no [AddState] and no [SetState]. *)
Theorem processRoomEvent_state_known (input : InputRoomEvent) (w : W)
    (nids : list EventNID) (rejErr : option error) (nid : EventNID)
    (sae : StateAtEvent) (rev : option Event) (rid : string)
    (serr : option error) :
  let r := run h (processRoomEvent RoomVersion_EventIDFormat
                    ReverseTopologicalOrdering DeduplicateStateEntries
                    input) w in
  authChecks (trace r) = [(nids, rejErr)] →
  last (storeAnswers (trace r)) = Some (nid, sae, rev, rid, serr) →
  BeforeStateSnapshotNID sae ≠ 0 →
  setStates (trace r) = [] ∧ computedSnapshots (trace r) = []
  ∧ stateCalcs (trace r) = [] ∧ addStates (trace r) = []
  ∧ membershipLookups (trace r) = [].
Proof.
  intros r Hauth Hans Hnz.
  destruct (processRoomEvent_run h RoomVersion_EventIDFormat
              ReverseTopologicalOrdering DeduplicateStateEntries input w)
    as [[Hfront _] | Hreach]; fold r in Hfront || fold r in Hreach.
  - apply front_observations in Hfront. destruct Hfront as [Hnone _].
    congruence.
  - apply reached_observations in Hreach.
    destruct Hreach as (t0 & nids' & rejErr' & sf & serr' & w1 & t & [Ht0 Htr]
                        & Hrun & _ & _ & _ & _ & _ & Hst & Hc & _ & _ & _
                        & Hlast & _).
    rewrite Hlast in Hans.
    destruct (store_state_known _ _ _ _ _ _ _ _ _ _ _ _ _ _ Hrun Hans Hnz)
      as (Tst & Tc & Tsc & Tas & Tm).
    rewrite Hst, Hc. repeat split; try assumption.
    + unfold stateCalcs. rewrite <- Tsc. lifted Htr Ht0.
    + unfold addStates. rewrite <- Tas. lifted Htr Ht0.
    + unfold membershipLookups. rewrite <- Tm. lifted Htr Ht0.
Qed.

Lemma store_update_arguments (input : InputRoomEvent) (nids : list EventNID)
    (rejErr : option error) (isRej sf : bool) (w w' : W)
    (o : outcome (string * option error)) (t : list Call)
    (nid : EventNID) (sae : StateAtEvent) (rev : option Event)
    (rid : string) (serr : option error)
    (ri : RoomInfo) (sae' : StateAtEvent) (ev : Event) (sas : string)
    (tid : option TransactionID) (rw : bool) :
  run h (processRoomEvent_store DeduplicateStateEntries input nids rejErr
           isRej sf) w = (o, w', t) →
  head (storeAnswers t) = Some (nid, sae, rev, rid, serr) →
  In (LatestEventsUpdate ri sae' ev sas tid rw) (emissions t) →
  (isRej = false ∧ sf = false ∧ serr = None)
  ∧ sae_EventNID sae' = sae_EventNID sae
  ∧ roomInfoAnswers t = [(RoomID ev, (Some ri, None))]
  ∧ (BeforeStateSnapshotNID sae = 0 →
     setStates t = [(sae_EventNID sae, BeforeStateSnapshotNID sae', None)]
     ∧ computedSnapshots t = [BeforeStateSnapshotNID sae'])
  ∧ (BeforeStateSnapshotNID sae ≠ 0 → sae' = sae)
  ∧ ∃ rest, emissions t = LatestEventsUpdate ri sae' ev sas tid rw :: rest.
Proof.
  intros H Hans Hin.
  unfold processRoomEvent_store, calculateAndSetState in H.
  crunch H; simplify_eq; prune; cbn in Hans, Hin; simplify_eq;
    try contradiction;
    repeat match goal with
           | Hor : _ ∨ _ |- _ => destruct Hor as [Hor | Hor]
           end;
    simplify_eq; try contradiction;
    match goal with
    | Hb : ?a || ?b = false |- _ => apply orb_false_elim in Hb; destruct Hb
    end;
    (split; [repeat split; assumption |]);
    (split; [reflexivity |]);
    (split; [reflexivity |]);
    (split;
     [ intros Hz;
       first [ split; reflexivity
             | exfalso;
               match goal with
               | Hb : (_ =? 0)%Z = false |- _ =>
                   apply Z.eqb_neq in Hb; contradiction
               end ] |]);
    (split;
     [ intros Hz;
       first [ reflexivity
             | exfalso;
               match goal with
               | Hb : (_ =? 0)%Z = true |- _ =>
                   apply Z.eqb_eq in Hb; contradiction
               end ] |]);
    eexists; reflexivity.
Qed.

(** ** Emissions *)

Lemma store_emission_shapes (input : InputRoomEvent) (nids : list EventNID)
    (rejErr : option error) (isRej sf : bool) (w w' : W)
    (o : outcome (string * option error)) (t : list Call) :
  run h (processRoomEvent_store DeduplicateStateEntries input nids rejErr
           isRej sf) w = (o, w', t) →
  Forall (emissionAllowed input) (emissions t)
  ∧ (length (emissions t) ≤ 2)%nat.
Proof.
  intros H.
  unfold processRoomEvent_store, calculateAndSetState in H.
  crunch H; simplify_eq; prune;
    (split; [| cbn; lia]);
    repeat (constructor;
            [cbn; repeat split;
             first [ assumption | reflexivity
                   | match goal with
                     | Hb : negb (?s =? "")%string = true |- ?s ≠ "" =>
                         apply negb_true_iff, String.eqb_neq in Hb; exact Hb
                     end ] |]);
    constructor.
Qed.

(** X12: every emission of a call is one of three: the extremity update of
    a New input, with the input's [SendAsServer], [TransactionID] and
    [HasState]; the old-room-event entry of an Old input, with the input's
    headered event; a redacted-event entry with a non-empty ID.  A call
    makes at most two emissions, and every output write has one entry. *)
Theorem processRoomEvent_emission_shapes (input : InputRoomEvent) (w : W) :
  let r := run h (processRoomEvent RoomVersion_EventIDFormat
                    ReverseTopologicalOrdering DeduplicateStateEntries
                    input) w in
  Forall (emissionAllowed input) (emissions (trace r))
  ∧ (length (emissions (trace r)) ≤ 2)%nat.
Proof.
  intros r.
  destruct (processRoomEvent_run h RoomVersion_EventIDFormat
              ReverseTopologicalOrdering DeduplicateStateEntries input w)
    as [[Hfront _] | Hreach]; fold r in Hfront || fold r in Hreach.
  - apply front_observations in Hfront.
    destruct Hfront as (_ & _ & He & _). rewrite He.
    split; [constructor | cbn; lia].
  - apply reached_observations in Hreach.
    destruct Hreach as (t0 & nids' & rejErr' & sf & serr' & w1 & t & _
                        & Hrun & _ & _ & _ & He & _).
    rewrite He. exact (store_emission_shapes _ _ _ _ _ _ _ _ _ Hrun).
Qed.

Lemma store_emits_after (input : InputRoomEvent) (nids : list EventNID)
    (rejErr : option error) (isRej sf : bool) (w w' : W)
    (o : outcome (string * option error)) (t : list Call) :
  run h (processRoomEvent_store DeduplicateStateEntries input nids rejErr
           isRej sf) w = (o, w', t) →
  emissions t ≠ [] →
  isRej = false ∧ sf = false ∧ Kind_ input ≠ KindOutlier
  ∧ ∃ ans post,
      t = MkCall (DB_StoreEvent (Unwrap (Event_ input)) nids false) ans :: post
      ∧ ans.2 = None.
Proof.
  intros H Hne.
  unfold processRoomEvent_store, calculateAndSetState in H.
  crunch H; simplify_eq; prune;
    try (exfalso; apply Hne; reflexivity);
    match goal with
    | Hb : ?a || ?b = false |- _ =>
        apply orb_false_elim in Hb; destruct Hb; subst
    end;
    (split; [reflexivity |]); (split; [reflexivity |]);
    (split; [congruence |]);
    eexists _, _; split; reflexivity.
Qed.

(** X13: nothing is emitted before the incoming event is stored: whenever
    a call emits anything, the event passed the declared-auth check, was not
    soft-failed, is not an outlier, and its [StoreEvent] call, made as not
    rejected, succeeded before the first emission. *)
Theorem processRoomEvent_emits_after_store (input : InputRoomEvent) (w : W) :
  let r := run h (processRoomEvent RoomVersion_EventIDFormat
                    ReverseTopologicalOrdering DeduplicateStateEntries
                    input) w in
  emissions (trace r) ≠ [] →
  Kind_ input ≠ KindOutlier
  ∧ ∃ before nids ans post,
      trace r
      = before
          ++ MkCall (DB_StoreEvent (Unwrap (Event_ input)) nids false) ans
          :: post
      ∧ ans.2 = None
      ∧ emissions before = []
      ∧ authChecks before = [(nids, None)]
      ∧ Forall (λ a, a.1 = false) (softFailChecks before).
Proof.
  intros r Hne.
  destruct (processRoomEvent_run h RoomVersion_EventIDFormat
              ReverseTopologicalOrdering DeduplicateStateEntries input w)
    as [[Hfront _] | Hreach]; fold r in Hfront || fold r in Hreach.
  - apply front_observations in Hfront.
    destruct Hfront as (_ & _ & He & _). congruence.
  - apply reached_observations in Hreach.
    destruct Hreach as (t0 & nids & rejErr & sf & serr & w1 & t & [Ht0 Htr]
                        & Hrun & _ & _ & _ & He & _).
    rewrite He in Hne.
    destruct (store_emits_after _ _ _ _ _ _ _ _ _ Hrun Hne)
      as (Hrej & -> & Hk & ans & post & -> & Hok).
    destruct rejErr as [rej |]; [discriminate Hrej |].
    split; [exact Hk |].
    exists (t0 ++ authTrace input nids None ++ softFailTrace input false serr),
      nids, ans, post.
    split; [rewrite Htr, <- !app_assoc; reflexivity |].
    split; [exact Hok |].
    destruct (front_observations _ Ht0) as (Fa & Fs & Fe & _).
    unfold emissions, authChecks, softFailChecks in *.
    rewrite !omap_app, Fa, Fs, Fe.
    unfold authTrace, softFailTrace.
    destruct (Kind_ input), serr; repeat split; repeat constructor.
Qed.

Lemma store_no_redaction (input : InputRoomEvent) (nids : list EventNID)
    (rejErr : option error) (isRej sf : bool) (w w' : W)
    (o : outcome (string * option error)) (t : list Call)
    (nid : EventNID) (sae : StateAtEvent) (rev : option Event)
    (serr : option error) :
  run h (processRoomEvent_store DeduplicateStateEntries input nids rejErr
           isRej sf) w = (o, w', t) →
  head (storeAnswers t) = Some (nid, sae, rev, "", serr) →
  EventID (Unwrap (Event_ input)) ≠ "" →
  redactions t = []
  ∧ Forall (dispatchFor input (Unwrap (Event_ input))) (emissions t)
  ∧ (length (emissions t) ≤ 1)%nat
  ∧ (∀ id, o = Returned (id, None) → id = EventID (Unwrap (Event_ input))).
Proof.
  intros H Hans Hid.
  unfold processRoomEvent_store, calculateAndSetState in H.
  crunch H; simplify_eq; prune; cbn in Hans; simplify_eq;
    try match goal with
        | Hb : negb _ && ("" =? ?s)%string = true |- _ =>
            exfalso; apply andb_true_iff in Hb; destruct Hb as [_ Hb];
            apply String.eqb_eq in Hb; congruence
        end;
    try match goal with
        | Hb : negb ("" =? "")%string = true |- _ => discriminate Hb
        end;
    (split; [reflexivity |]);
    (split;
     [ repeat (constructor;
               [ unfold dispatchFor;
                 match goal with
                 | Hk : Kind_ _ = _ |- _ => rewrite Hk
                 end;
                 first [reflexivity | eexists _, _; reflexivity] |]);
       constructor |]);
    (split; [cbn; lia |]);
    intros id' Heq; simplify_eq; reflexivity.
Qed.

(** X14: when [StoreEvent] reports no redaction (an empty
    [redactedEventID], for an event whose own ID is not empty), no redaction
    is applied and no redacted-event entry is written: the only emission, if
    any, is the one for the input's kind, and a call that returns success
    returns the ID of the input's event. *)
Theorem processRoomEvent_no_redaction (input : InputRoomEvent) (w : W)
    (nids : list EventNID) (rejErr : option error) (nid : EventNID)
    (sae : StateAtEvent) (rev : option Event) (serr : option error) :
  let r := run h (processRoomEvent RoomVersion_EventIDFormat
                    ReverseTopologicalOrdering DeduplicateStateEntries
                    input) w in
  authChecks (trace r) = [(nids, rejErr)] →
  last (storeAnswers (trace r)) = Some (nid, sae, rev, "", serr) →
  EventID (Unwrap (Event_ input)) ≠ "" →
  redactions (trace r) = []
  ∧ Forall (dispatchFor input (Unwrap (Event_ input))) (emissions (trace r))
  ∧ (length (emissions (trace r)) ≤ 1)%nat
  ∧ (∀ id, result r = Returned (id, None) →
           id = EventID (Unwrap (Event_ input))).
Proof.
  intros r Hauth Hans Hid.
  destruct (processRoomEvent_run h RoomVersion_EventIDFormat
              ReverseTopologicalOrdering DeduplicateStateEntries input w)
    as [[Hfront _] | Hreach]; fold r in Hfront || fold r in Hreach.
  - apply front_observations in Hfront. destruct Hfront as [Hnone _].
    congruence.
  - apply reached_observations in Hreach.
    destruct Hreach as (t0 & nids' & rejErr' & sf & serr' & w1 & t & _
                        & Hrun & _ & _ & _ & He & Hr & _ & _ & _ & _ & _
                        & Hlast & _).
    rewrite Hlast in Hans. rewrite He, Hr.
    exact (store_no_redaction _ _ _ _ _ _ _ _ _ _ _ _ _ Hrun Hans Hid).
Qed.

(** X15: the extremity update of a call, when there is one, is its first
    emission; it is made for the room the lookup returned, and with a
    [StateAtEvent] that has the event NID [StoreEvent] reported and, as
    snapshot, the one the Store reported if that was not zero, and else the
    one this call computed and bound with a successful [SetState]. *)
Theorem processRoomEvent_update_arguments (input : InputRoomEvent) (w : W)
    (nid : EventNID) (sae : StateAtEvent) (rev : option Event) (rid : string)
    (serr : option error) (ri : RoomInfo) (sae' : StateAtEvent) (ev : Event)
    (sas : string) (tid : option TransactionID) (rw : bool) :
  let r := run h (processRoomEvent RoomVersion_EventIDFormat
                    ReverseTopologicalOrdering DeduplicateStateEntries
                    input) w in
  last (storeAnswers (trace r)) = Some (nid, sae, rev, rid, serr) →
  In (LatestEventsUpdate ri sae' ev sas tid rw) (emissions (trace r)) →
  sae_EventNID sae' = sae_EventNID sae
  ∧ roomInfoAnswers (trace r) = [(RoomID ev, (Some ri, None))]
  ∧ (BeforeStateSnapshotNID sae = 0 →
     setStates (trace r)
     = [(sae_EventNID sae, BeforeStateSnapshotNID sae', None)]
     ∧ computedSnapshots (trace r) = [BeforeStateSnapshotNID sae'])
  ∧ (BeforeStateSnapshotNID sae ≠ 0 → sae' = sae)
  ∧ ∃ rest,
      emissions (trace r) = LatestEventsUpdate ri sae' ev sas tid rw :: rest.
Proof.
  intros r Hans Hin.
  destruct (processRoomEvent_run h RoomVersion_EventIDFormat
              ReverseTopologicalOrdering DeduplicateStateEntries input w)
    as [[Hfront _] | Hreach]; fold r in Hfront || fold r in Hreach.
  - apply front_observations in Hfront.
    destruct Hfront as (_ & _ & He & _). rewrite He in Hin. inversion Hin.
  - apply reached_observations in Hreach.
    destruct Hreach as (t0 & nids' & rejErr' & sf & serr' & w1 & t & [Ht0 Htr]
                        & Hrun & _ & _ & _ & He & _ & Hst & Hc & _ & _ & _
                        & Hlast & _).
    rewrite Hlast in Hans. rewrite He in Hin.
    assert (Hri : roomInfoAnswers (trace r) = roomInfoAnswers t)
      by (unfold roomInfoAnswers; lifted Htr Ht0).
    destruct (store_update_arguments
                _ _ _ _ _ _ _ _ _ _ _ _ _ _ _ _ _ _ _ _ Hrun Hans Hin)
      as (_ & Hn & Troom & Tz & Tnz & Tfirst).
    rewrite Hri, Hst, Hc, He.
    split; [exact Hn |]. split; [exact Troom |]. split; [exact Tz |].
    split; [exact Tnz | exact Tfirst].
Qed.

(** ** The outlier check *)

(** X16: an Outlier input whose lookup by ID is inconclusive is ingested in
    full: when the lookup fails, or returns no event or more than one, or the
    room version has no event-ID format, the call goes on with line 102 after
    the lookup; the lookup's error is not surfaced. *)
Theorem processRoomEvent_outlier_lookup_inconclusive (input : InputRoomEvent)
    (w : W) :
  let event := Unwrap (Event_ input) in
  let a := h _ (DB_EventsFromIDs [EventID event]) w in
  let r := run h (processRoomEvent RoomVersion_EventIDFormat
                    ReverseTopologicalOrdering DeduplicateStateEntries
                    input) w in
  Kind_ input = KindOutlier →
  a.1.2 ≠ None ∨ length a.1.1 ≠ 1%nat
  ∨ (RoomVersion_EventIDFormat (RoomVersion_ (Event_ input))).2 ≠ None →
  r = (let '(o, w2, t) :=
         run h (processRoomEvent_ingest ReverseTopologicalOrdering
                  DeduplicateStateEntries input) a.2 in
       (o, w2, MkCall (DB_EventsFromIDs [EventID event]) a.1 :: t)).
Proof.
  cbv zeta. intros Hkind Hinc. unfold processRoomEvent. cbv zeta.
  rewrite Hkind. exec.
  destruct (h _ (DB_EventsFromIDs _) w) as [[evs err2] w1].
  cbn [fst snd] in *.
  destruct (run h (processRoomEvent_ingest _ _ input) w1) as [[o w2] t] eqn:Hr.
  destruct err2 as [e2 |]; exec; [rewrite Hr; reflexivity |].
  destruct evs as [| ev0 [| ev1 evs]]; exec;
    [rewrite Hr; reflexivity | | rewrite Hr; reflexivity].
  destruct (RoomVersion_EventIDFormat _) as [idFormat [e3 |]]; exec;
    [rewrite Hr; reflexivity |].
  exfalso. cbn in Hinc. destruct Hinc as [Hn | [Hn | Hn]]; congruence.
Qed.

(** ** Where errors come from *)

Lemma store_error_provenance (input : InputRoomEvent) (nids : list EventNID)
    (rejErr : option error) (sf : bool) (w w' : W)
    (o : outcome (string * option error)) (t : list Call)
    (id : string) (e : error) :
  run h (processRoomEvent_store DeduplicateStateEntries input nids rejErr
           (rejected rejErr) sf) w = (o, w', t) →
  o = Returned (id, Some e) →
  (id = EventID (Unwrap (Event_ input)) ∧ rejErr = Some e
   ∧ Kind_ input ≠ KindOutlier)
  ∨ (id = "" ∧ ∃ cl, last t = Some cl ∧ errorFrom cl e).
Proof.
  intros H Ho.
  unfold processRoomEvent_store, calculateAndSetState in H.
  destruct rejErr as [rej |]; cbn [rejected] in H;
    crunch H; simplify_eq; prune;
    repeat match goal with
           | Hx : _ <$> ?x = Some _ |- _ =>
               destruct x; cbn in Hx; simplify_eq
           end;
    first [ left; repeat split; congruence
          | right; (split; [reflexivity |]); eexists;
            (split; [reflexivity |]); unfold errorFrom;
            first [ left; eexists; split; [reflexivity |];
                    first [left; reflexivity | right; left; reflexivity]
                  | right; eexists; split; reflexivity ] ].
Qed.

(** X17: where an error return comes from.  When a call returns an error, it
    either returns, with the event's ID, the rejection error of the
    declared-auth check as it is (for a New or Old input); or, with an empty
    ID, the error of a call that failed, wrapped with the name of that call
    (and of the resolver or [calculateAndSetState] when the call was theirs),
    or the error that names the room the lookup did not find. *)
Theorem processRoomEvent_error_provenance (input : InputRoomEvent) (w : W)
    (id : string) (e : error) :
  let r := run h (processRoomEvent RoomVersion_EventIDFormat
                    ReverseTopologicalOrdering DeduplicateStateEntries
                    input) w in
  result r = Returned (id, Some e) →
  (id = EventID (Unwrap (Event_ input)) ∧ Kind_ input ≠ KindOutlier
   ∧ ∃ nids, authChecks (trace r) = [(nids, Some e)])
  ∨ (id = "" ∧ ∃ cl, In cl (trace r) ∧ errorFrom cl e).
Proof.
  intros r Hres. subst r.
  destruct (processRoomEvent_paths input w)
    as [(_ & Hr & _) | (pre & w0 & Hpre & Hcases)].
  - rewrite Hr in Hres. discriminate Hres.
  - cbv zeta in Hcases.
    assert (Hfront : Forall (λ c, frontCall c = true) pre).
    { destruct Hpre as [(-> & _) | (-> & _)]; repeat constructor. }
    destruct (checkForMissingAuthEvents_run h ReverseTopologicalOrdering
                (Event_ input) ∅ w0) as [Hcalls _].
    destruct Hcases as [(m & _ & Hr & _) | [(c & e0 & Hrr & Hr & Htr)
                       | (c & nids & rejErr & sf & serr & w1 & t & Hrr & _
                          & Hrun & Htr)]].
    + rewrite Hr in Hres. discriminate Hres.
    + rewrite Hr in Hres. simplify_eq. right. split; [reflexivity |].
      destruct (resolver_errors (Event_ input) ∅ w0) as [Herr _].
      destruct (Herr c e0 Hrr) as (cl & e' & Hl & Hc & ->).
      exists cl. split.
      * rewrite Htr. apply in_or_app. right. apply in_or_app. left.
        apply last_Some in Hl. destruct Hl as [l' ->].
        apply in_or_app. right. left. reflexivity.
      * left. exists e'. split; [exact Hc |]. right. right. reflexivity.
    + destruct (store_error_provenance _ _ _ _ _ _ _ _ _ _ Hrun Hres)
        as [(-> & -> & Hk) | (-> & cl & Hl & Hfrom)].
      * left. split; [reflexivity |]. split; [exact Hk |]. exists nids.
        destruct (store_calls h DeduplicateStateEntries _ _ _ _ _ _ _ _ _ Hrun)
          as (Ta & _).
        rewrite Htr. unfold authChecks in *.
        rewrite !omap_app, Ta.
        rewrite (omap_none authCheckAnswer pre Hfront); [| front_none].
        rewrite (omap_none authCheckAnswer _ (resolver_front _ Hcalls));
          [| front_none].
        unfold authTrace, softFailTrace.
        destruct (Kind_ input), serr; reflexivity.
      * right. split; [reflexivity |]. exists cl. split; [| exact Hfrom].
        rewrite Htr. apply last_Some in Hl. destruct Hl as [l' ->].
        repeat (apply in_or_app; right). left. reflexivity.
Qed.

(** ** The state before the event, continued *)

(** X18: when the input carries no state, or the event is rejected,
    [calculateAndSetState] asks the state resolver once, for this room
    and event with the rejection flag, and takes its answer as the snapshot;
    it clears [Overwrite], looks up no membership and stores no supplied
    state. *)
Theorem calculateAndSetState_resolved_state (input : InputRoomEvent)
    (roomInfo : RoomInfo) (stateAtEvent : StateAtEvent) (event : Event)
    (isRejected : bool) (w : W) :
  let r := run h (calculateAndSetState DeduplicateStateEntries input
                    roomInfo stateAtEvent event isRejected) w in
  HasState input = false ∨ isRejected = true →
  ∃ st err,
    result r = Returned (st, err)
    ∧ Overwrite st = false
    ∧ stateCalcs (trace r) = [(roomInfo, event, isRejected)]
    ∧ membershipLookups (trace r) = []
    ∧ addStates (trace r) = [].
Proof.
  intros r Hcase. subst r.
  assert (Htest : HasState input && negb isRejected = false).
  { destruct Hcase as [-> | ->]; [reflexivity | apply andb_false_r]. }
  unfold calculateAndSetState. rewrite Htest. exec.
  destruct (h _ (state_CalculateAndStoreStateBeforeEvent _ _ _) w)
    as [[nid [ce |]] w1]; exec;
    try (destruct (h _ (DB_SetState _ _) w1) as [[se |] w2]; exec);
    eexists _, _; repeat split; reflexivity.
Qed.

(** X19: [calculateAndSetState] always returns, and never changes which
    event the state belongs to.  It calls [SetState] at most once, as its
    last call, for that event and the snapshot it returns, and only after the
    snapshot was obtained without error; it returns no error exactly when
    [SetState] was called and succeeded, and an error it returns is the
    error of its last call, wrapped with the name of that call. *)
Theorem calculateAndSetState_binding (input : InputRoomEvent)
    (roomInfo : RoomInfo) (stateAtEvent : StateAtEvent) (event : Event)
    (isRejected : bool) (w : W) :
  let r := run h (calculateAndSetState DeduplicateStateEntries input
                    roomInfo stateAtEvent event isRejected) w in
  ∃ st err,
    result r = Returned (st, err)
    ∧ sae_EventNID st = sae_EventNID stateAtEvent
    ∧ (err = None
       ↔ setStates (trace r)
         = [(sae_EventNID stateAtEvent, BeforeStateSnapshotNID st, None)])
    ∧ (setStates (trace r) = []
       ∨ ∃ serr,
           last (trace r)
           = Some (MkCall (DB_SetState (sae_EventNID stateAtEvent)
                             (BeforeStateSnapshotNID st)) serr)
           ∧ setStates (trace r)
             = [(sae_EventNID stateAtEvent, BeforeStateSnapshotNID st, serr)]
           ∧ computedSnapshots (trace r) = [BeforeStateSnapshotNID st]
           ∧ Forall (λ c, callError c = None ∨ membershipCall c ≠ None)
               (removelast (trace r)))
    ∧ (∀ e0, err = Some e0 →
         ∃ cl e', last (trace r) = Some cl ∧ callError cl = Some e'
                  ∧ e0 = Wrapf (errorContext cl) e').
Proof.
  intros r. subst r. unfold calculateAndSetState.
  destruct (HasState input && negb isRejected); exec.
  - destruct (h _ (DB_GetMembershipEventNIDsForRoom _ _ _) w)
      as [[joined merr] w1]; exec.
    destruct (h _ (DB_StateEntriesForEventIDs _) w1)
      as [[entries [ee |]] w2]; exec;
      [| destruct (h _ (DB_AddState _ _ _) w2) as [[nid [ae |]] w3]; exec;
         [| destruct (h _ (DB_SetState _ _) w3) as [[se |] w4]; exec] ];
      destruct merr; cbn;
      eexists _, _; (split; [reflexivity |]); (split; [reflexivity |]);
      (split; [split; intros Hx; first [reflexivity | discriminate Hx] |]);
      (split;
       [ first [ left; reflexivity
               | right; eexists; split; [reflexivity |];
                 split; [reflexivity |]; split; [reflexivity |];
                 repeat constructor; cbn; eauto; congruence ]
       | intros e0 He; simplify_eq; try (eexists _, _; repeat split; reflexivity) ]).
  - destruct (h _ (state_CalculateAndStoreStateBeforeEvent _ _ _) w)
      as [[nid [ce |]] w1]; exec;
      [| destruct (h _ (DB_SetState _ _) w1) as [[se |] w2]; exec];
      cbn;
      eexists _, _; (split; [reflexivity |]); (split; [reflexivity |]);
      (split; [split; intros Hx; first [reflexivity | discriminate Hx] |]);
      (split;
       [ first [ left; reflexivity
               | right; eexists; split; [reflexivity |];
                 split; [reflexivity |]; split; [reflexivity |];
                 repeat constructor; cbn; eauto; congruence ]
       | intros e0 He; simplify_eq; try (eexists _, _; repeat split; reflexivity) ]).
Qed.

End Coverage.

(** ** Concrete runs of the further properties *)

Lemma storeAuthChain_cached_witness :
  let cache : gmap string EventNID := <["$A" := 1]> ∅ in
  let r := run (memory quietScript)
             (storeAuthChain [demoEvent "$B" ["$A"]] cache) worldWithA in
  nidLookups (trace r) = []
  ∧ Forall (λ a, a.1.2 = cachedNIDs cache a.1.1) (stored (trace r))
  ∧ ∃ c err, result r = Returned (c, err) ∧ c = cache.
Proof.
  destruct (storeAuthChain_cached (memory quietScript)
              [demoEvent "$B" ["$A"]] (<["$A" := 1]> ∅) worldWithA)
    as (Hlook & Hnids & Hcache).
  - repeat constructor. vm_compute. eauto.
  - split; [exact Hlook |]. split; [exact Hnids |].
    eexists _, None. split; [vm_compute; reflexivity |].
    apply Hcache with (err := None). vm_compute. reflexivity.
Defined.

Lemma checkForMissingAuthEvents_errors_witness :
  let event := mkHeaderedEvent "1" (demoEvent "$E" ["$A"]) in
  let r := run (faulty NIDLookupFails quietScript)
             (checkForMissingAuthEvents demoOrdering event ∅) emptyWorld in
  let r' := run (memory quietScript)
              (checkForMissingAuthEvents demoOrdering event ∅) worldWithA in
  (∃ cl e',
     last (trace r) = Some cl ∧ callError cl = Some e'
     ∧ Wrapf "r.DB.EventNIDs" (Opaque "sql: connection is closed")
       = Wrapf (errorContext cl) e')
  ∧ noFailure (trace r') = true.
Proof.
  split.
  - eapply (checkForMissingAuthEvents_errors (faulty NIDLookupFails quietScript)
              demoOrdering (mkHeaderedEvent "1" (demoEvent "$E" ["$A"])) ∅
              emptyWorld).
    vm_compute. reflexivity.
  - eapply (checkForMissingAuthEvents_errors (memory quietScript)
              demoOrdering (mkHeaderedEvent "1" (demoEvent "$E" ["$A"])) ∅
              worldWithA).
    vm_compute. reflexivity.
Defined.

Lemma checkForMissingAuthEvents_chain_witness :
  let event := mkHeaderedEvent "1" (demoEvent "$E" ["$B"]) in
  let r := run (memory incompleteChainScript)
             (checkForMissingAuthEvents demoOrdering event ∅) emptyWorld in
  federationQueries (trace r) = [("!room:host", "$E")]
  ∧ storedEvents (trace r) = demoOrdering [demoEvent "$B" ["$X"]].
Proof.
  destruct (checkForMissingAuthEvents_chain (memory incompleteChainScript)
              demoOrdering (mkHeaderedEvent "1" (demoEvent "$E" ["$B"])) ∅
              emptyWorld)
    as [[Hq _] | (evs & ferr & Hans & Hq & _ & _ & Hall)].
  - vm_compute in Hq. discriminate Hq.
  - split; [exact Hq |].
    assert (Hevs : evs = [demoEvent "$B" ["$X"]]).
    { vm_compute in Hans. injection Hans as <- _. reflexivity. }
    rewrite <- Hevs. apply (Hall ∅). vm_compute. reflexivity.
Defined.

Lemma checkForMissingAuthEvents_panics_iff_witness :
  let event := mkHeaderedEvent "1" (demoEvent "$E" ["$B"]) in
  let r := run (faulty NIDLookupOverfull quietScript)
             (checkForMissingAuthEvents demoOrdering event ∅) emptyWorld in
  (∃ m, result r = Panicked m)
  ∧ trace r
    = [MkCall (DB_EventNIDs ["$B"]) (<["$A" := 1]> (<["$B" := 2]> ∅), None)].
Proof.
  destruct (checkForMissingAuthEvents_panics_iff
              (faulty NIDLookupOverfull quietScript) demoOrdering
              (mkHeaderedEvent "1" (demoEvent "$E" ["$B"])) ∅ emptyWorld)
    as [Hiff Htrace].
  assert (Hpanic : ∃ m,
             result (run (faulty NIDLookupOverfull quietScript)
                       (checkForMissingAuthEvents demoOrdering
                          (mkHeaderedEvent "1" (demoEvent "$E" ["$B"])) ∅)
                       emptyWorld) = Panicked m).
  { apply Hiff. split; [discriminate |]. split; [reflexivity |].
    vm_compute. lia. }
  split; [exact Hpanic | exact (Htrace Hpanic)].
Defined.

Lemma checkForMissingAuthEvents_queries_when_missing_witness :
  let event := mkHeaderedEvent "1" (demoEvent "$E" ["$B"]) in
  let r := run (memory incompleteChainScript)
             (checkForMissingAuthEvents demoOrdering event ∅) emptyWorld in
  federationQueries (trace r) = [("!room:host", "$E")].
Proof.
  apply (checkForMissingAuthEvents_queries_when_missing
           (memory incompleteChainScript) demoOrdering
           (mkHeaderedEvent "1" (demoEvent "$E" ["$B"])) ∅ emptyWorld "$B").
  - reflexivity.
  - vm_compute. lia.
  - vm_compute. left.
  - vm_compute. reflexivity.
Defined.

Lemma checkForMissingAuthEvents_cache_grows_witness :
  let event := mkHeaderedEvent "1" (demoEvent "$E" ["$A"]) in
  let r := run (memory quietScript)
             (checkForMissingAuthEvents demoOrdering event (<["$Z" := 9]> ∅))
             worldWithA in
  ∃ cache' err,
    result r = Returned (cache', err) ∧ is_Some (cache' !! "$Z")
    ∧ is_Some (cache' !! "$A").
Proof.
  eexists _, _. split; [vm_compute; reflexivity |]. split.
  - eapply (checkForMissingAuthEvents_cache_grows (memory quietScript)
              demoOrdering (mkHeaderedEvent "1" (demoEvent "$E" ["$A"]))
              (<["$Z" := 9]> ∅) _ worldWithA _).
    + vm_compute. reflexivity.
    + vm_compute. eauto.
  - vm_compute. eauto.
Defined.

Lemma processRoomEvent_outlier_frame_witness :
  let r := run (memory quietScript)
             (processRoomEvent demoEventIDFormat demoOrdering demoDedup
                (demoInput KindOutlier (demoEvent "$E" []))) emptyWorld in
  emissions (trace r) = [] ∧ setStates (trace r) = []
  ∧ computedSnapshots (trace r) = [] ∧ roomInfoAnswers (trace r) = []
  ∧ membershipLookups (trace r) = [] ∧ softFailChecks (trace r) = []
  ∧ ((None : option error) = None ∨ "$E" = "").
Proof.
  destruct (processRoomEvent_outlier_frame (memory quietScript)
              demoEventIDFormat demoOrdering demoDedup
              (demoInput KindOutlier (demoEvent "$E" [])) emptyWorld)
    as (He & Hs & Hc & Hr & Hm & Hf & Hres).
  - reflexivity.
  - repeat (split; [assumption |]).
    apply Hres. vm_compute. reflexivity.
Defined.

Lemma processRoomEvent_store_failure_witness :
  let r := run (faulty StoreEventFails quietScript)
             (processRoomEvent demoEventIDFormat demoOrdering demoDedup
                (demoInput KindNew (demoEvent "$E" []))) emptyWorld in
  result r
  = Returned ("", Some (Wrapf "r.DB.StoreEvent"
                          (Opaque "sql: connection is closed")))
  ∧ last (trace r)
    = Some (MkCall (DB_StoreEvent (demoEvent "$E" []) [] false)
                   (0, mkStateAtEvent false 0 0, None, "",
                    Some (Opaque "sql: connection is closed")))
  ∧ emissions (trace r) = [] ∧ redactions (trace r) = []
  ∧ setStates (trace r) = [] ∧ roomInfoAnswers (trace r) = [].
Proof.
  apply (processRoomEvent_store_failure (faulty StoreEventFails quietScript)
           demoEventIDFormat demoOrdering demoDedup
           (demoInput KindNew (demoEvent "$E" [])) emptyWorld [] None
           0 (mkStateAtEvent false 0 0) None ""
           (Opaque "sql: connection is closed")).
  - vm_compute. reflexivity.
  - vm_compute. reflexivity.
Defined.

Lemma processRoomEvent_room_missing_witness :
  let r := run (faulty RoomUnknown quietScript)
             (processRoomEvent demoEventIDFormat demoOrdering demoDedup
                (demoInput KindNew (demoEvent "$E" []))) emptyWorld in
  result r
  = Returned ("", Some (Strf "r.DB.RoomInfo missing for room" "!room:host"))
  ∧ last (trace r) = Some (MkCall (DB_RoomInfo "!room:host") (None, None))
  ∧ emissions (trace r) = [] ∧ setStates (trace r) = []
  ∧ stateCalcs (trace r) = [] ∧ addStates (trace r) = []
  ∧ ∃ ans, last (storeAnswers (trace r)) = Some ans ∧ ans.2 = None.
Proof.
  apply (processRoomEvent_room_missing (faulty RoomUnknown quietScript)
           demoEventIDFormat demoOrdering demoDedup
           (demoInput KindNew (demoEvent "$E" [])) emptyWorld
           "!room:host" None None).
  - vm_compute. reflexivity.
  - left. reflexivity.
Defined.

Lemma processRoomEvent_state_known_witness :
  let r := run (memory knownStateScript)
             (processRoomEvent demoEventIDFormat demoOrdering demoDedup
                (demoInput KindNew (demoEvent "$E" []))) emptyWorld in
  setStates (trace r) = [] ∧ computedSnapshots (trace r) = []
  ∧ stateCalcs (trace r) = [] ∧ addStates (trace r) = []
  ∧ membershipLookups (trace r) = [].
Proof.
  apply (processRoomEvent_state_known (memory knownStateScript)
           demoEventIDFormat demoOrdering demoDedup
           (demoInput KindNew (demoEvent "$E" [])) emptyWorld [] None
           1 (mkStateAtEvent false 17 1) None "" None).
  - vm_compute. reflexivity.
  - vm_compute. reflexivity.
  - vm_compute. discriminate.
Defined.

Lemma processRoomEvent_emits_after_store_witness :
  let input := demoInput KindNew (demoEvent "$E" []) in
  let r := run (memory quietScript)
             (processRoomEvent demoEventIDFormat demoOrdering demoDedup input)
             emptyWorld in
  Kind_ input ≠ KindOutlier
  ∧ ∃ before nids ans post,
      trace r
      = before
          ++ MkCall (DB_StoreEvent (Unwrap (Event_ input)) nids false) ans
          :: post
      ∧ ans.2 = None
      ∧ emissions before = []
      ∧ authChecks before = [(nids, None)]
      ∧ Forall (λ a, a.1 = false) (softFailChecks before).
Proof.
  apply (processRoomEvent_emits_after_store (memory quietScript)
           demoEventIDFormat demoOrdering demoDedup
           (demoInput KindNew (demoEvent "$E" [])) emptyWorld).
  vm_compute. discriminate.
Defined.

Lemma processRoomEvent_no_redaction_witness :
  let input := demoInput KindNew (demoEvent "$E" []) in
  let r := run (memory quietScript)
             (processRoomEvent demoEventIDFormat demoOrdering demoDedup input)
             emptyWorld in
  redactions (trace r) = []
  ∧ Forall (dispatchFor input (demoEvent "$E" [])) (emissions (trace r))
  ∧ (length (emissions (trace r)) ≤ 1)%nat
  ∧ "$E" = EventID (demoEvent "$E" []).
Proof.
  destruct (processRoomEvent_no_redaction (memory quietScript)
              demoEventIDFormat demoOrdering demoDedup
              (demoInput KindNew (demoEvent "$E" [])) emptyWorld [] None
              1 (mkStateAtEvent false 0 1) None None)
    as (Hred & Hdis & Hlen & Hid).
  - vm_compute. reflexivity.
  - vm_compute. reflexivity.
  - vm_compute. discriminate.
  - split; [exact Hred |]. split; [exact Hdis |]. split; [exact Hlen |].
    apply Hid. vm_compute. reflexivity.
Defined.

Lemma processRoomEvent_update_arguments_witness :
  let input := demoInput KindNew (demoEvent "$E" []) in
  let r := run (memory quietScript)
             (processRoomEvent demoEventIDFormat demoOrdering demoDedup input)
             emptyWorld in
  roomInfoAnswers (trace r) = [("!room:host", (Some (mkRoomInfo 1 "1"), None))]
  ∧ setStates (trace r) = [(1, 43, None)]
  ∧ computedSnapshots (trace r) = [43]
  ∧ ∃ rest,
      emissions (trace r)
      = LatestEventsUpdate (mkRoomInfo 1 "1") (mkStateAtEvent false 43 1)
          (demoEvent "$E" []) "" None false :: rest.
Proof.
  destruct (processRoomEvent_update_arguments (memory quietScript)
              demoEventIDFormat demoOrdering demoDedup
              (demoInput KindNew (demoEvent "$E" [])) emptyWorld
              1 (mkStateAtEvent false 0 1) None "" None
              (mkRoomInfo 1 "1") (mkStateAtEvent false 43 1)
              (demoEvent "$E" []) "" None false)
    as (_ & Hroom & Hzero & _ & Hfirst).
  - vm_compute. reflexivity.
  - vm_compute. left. reflexivity.
  - destruct (Hzero eq_refl) as [Hset Hsnap].
    split; [exact Hroom |]. split; [exact Hset |]. split; [exact Hsnap |].
    exact Hfirst.
Defined.

Lemma processRoomEvent_outlier_lookup_inconclusive_witness :
  let input := demoInput KindOutlier (demoEvent "$E" []) in
  run (memory quietScript)
      (processRoomEvent demoEventIDFormat demoOrdering demoDedup input)
      emptyWorld
  = (let '(o, w2, t) :=
       run (memory quietScript)
           (processRoomEvent_ingest demoOrdering demoDedup input) emptyWorld in
     (o, w2, MkCall (DB_EventsFromIDs ["$E"]) ([], None) :: t)).
Proof.
  apply (processRoomEvent_outlier_lookup_inconclusive (memory quietScript)
           demoEventIDFormat demoOrdering demoDedup
           (demoInput KindOutlier (demoEvent "$E" [])) emptyWorld).
  - reflexivity.
  - right. left. vm_compute. discriminate.
Defined.

Lemma processRoomEvent_error_provenance_witness :
  let input := demoInput KindNew (demoEvent "$E" []) in
  let r := run (faulty StoreEventFails quietScript)
             (processRoomEvent demoEventIDFormat demoOrdering demoDedup input)
             emptyWorld in
  let e := Wrapf "r.DB.StoreEvent" (Opaque "sql: connection is closed") in
  ("" = EventID (Unwrap (Event_ input)) ∧ Kind_ input ≠ KindOutlier
   ∧ ∃ nids, authChecks (trace r) = [(nids, Some e)])
  ∨ ("" = "" ∧ ∃ cl, In cl (trace r) ∧ errorFrom cl e).
Proof.
  apply (processRoomEvent_error_provenance (faulty StoreEventFails quietScript)
           demoEventIDFormat demoOrdering demoDedup
           (demoInput KindNew (demoEvent "$E" [])) emptyWorld ""
           (Wrapf "r.DB.StoreEvent" (Opaque "sql: connection is closed"))).
  vm_compute. reflexivity.
Defined.

Lemma calculateAndSetState_resolved_state_witness :
  let r := run (memory quietScript)
             (calculateAndSetState demoDedup
                (demoInput KindNew (demoEvent "$E" []))
                (mkRoomInfo 1 "1") (mkStateAtEvent true 0 5)
                (demoEvent "$E" []) false) emptyWorld in
  ∃ st err,
    result r = Returned (st, err)
    ∧ Overwrite st = false
    ∧ stateCalcs (trace r) = [(mkRoomInfo 1 "1", demoEvent "$E" [], false)]
    ∧ membershipLookups (trace r) = []
    ∧ addStates (trace r) = [].
Proof.
  apply (calculateAndSetState_resolved_state (memory quietScript) demoDedup
           (demoInput KindNew (demoEvent "$E" []))
           (mkRoomInfo 1 "1") (mkStateAtEvent true 0 5)
           (demoEvent "$E" []) false emptyWorld).
  left. reflexivity.
Defined.

Lemma calculateAndSetState_binding_witness :
  let r := run (memory stateFailureScript)
             (calculateAndSetState demoDedup
                (demoInput KindNew (demoEvent "$E" []))
                (mkRoomInfo 1 "1") (mkStateAtEvent true 0 5)
                (demoEvent "$E" []) false) emptyWorld in
  ∃ st e cl e',
    result r = Returned (st, Some e)
    ∧ sae_EventNID st = 5
    ∧ setStates (trace r) = []
    ∧ last (trace r) = Some cl ∧ callError cl = Some e'
    ∧ e = Wrapf (errorContext cl) e'.
Proof.
  destruct (calculateAndSetState_binding (memory stateFailureScript) demoDedup
              (demoInput KindNew (demoEvent "$E" []))
              (mkRoomInfo 1 "1") (mkStateAtEvent true 0 5)
              (demoEvent "$E" []) false emptyWorld)
    as (st & err & Hres & Hnid & _ & _ & Herr).
  assert (Hst : (st, err)
                = (mkStateAtEvent false 0 5,
                   Some (Wrapf "roomState.CalculateAndStoreStateBeforeEvent"
                           (Opaque "missing state for prev_events")))).
  { vm_compute in Hres. injection Hres as <- <-. reflexivity. }
  injection Hst as -> ->.
  destruct (Herr _ eq_refl) as (cl & e' & Hlast & Hcall & He).
  eexists _, _, cl, e'. split; [exact Hres |]. split; [exact Hnid |].
  split; [vm_compute; reflexivity |]. split; [exact Hlast |].
  split; [exact Hcall | exact He].
Defined.

(** * The outcome of a call *)

Section Outcomes.

Context {W : Type} (h : handler W).
Variable RoomVersion_EventIDFormat : RoomVersion -> EventIDFormat * option error.
Variable ReverseTopologicalOrdering : list Event -> list Event.
Variable DeduplicateStateEntries : list StateEntry -> list StateEntry.

Ltac exec := cbn [bind call run trace result fst snd].

Ltac crunch H :=
  repeat (cbn [bind call run fmap option_fmap option_map orb andb negb] in H;
          match type of H with
          | context [h ?X ?e ?w] =>
              let x := fresh "x" in
              let w1 := fresh "w" in
              destruct (h X e w) as [x w1] eqn:?;
              repeat match goal with
                     | y : (_ * _)%type |- _ => destruct y
                     end
          | context [match ?x with _ => _ end] =>
              lazymatch x with
              | run _ _ _ => fail
              | match _ with _ => _ end => fail
              | _ => destruct x eqn:?
              end
          end);
  cbn [bind call run fmap option_fmap option_map orb andb negb] in H.

Ltac prune :=
  try (exfalso;
       match goal with
       | Hb : _ && negb true = true |- _ =>
           rewrite andb_false_r in Hb; discriminate Hb
       | Hb : negb true && _ = true |- _ => discriminate Hb
       | Hb : _ && false = true |- _ =>
           rewrite andb_false_r in Hb; discriminate Hb
       | Hb : bool_decide (?k ≠ ?k) = true |- _ =>
           apply bool_decide_eq_true_1 in Hb; congruence
       | Hb : bool_decide (_ ≠ _) = false |- _ =>
           apply bool_decide_eq_false_1 in Hb; apply Hb; discriminate
       end).

Ltac dispatched :=
  unfold dispatchFor;
  match goal with
  | Hk : Kind_ _ = _ |- _ => rewrite Hk
  end;
  first [reflexivity | eexists _, _; reflexivity].

Ltac front_none :=
  let c := fresh "c" in
  let Hfc := fresh "Hfc" in
  let e0 := fresh "e" in
  intros c Hfc; destruct c as [? e0 ?]; destruct e0;
  (discriminate Hfc || reflexivity).

(** An error return names its origin. *)
Ltac origin :=
  unfold errorFrom;
  first [ left; eexists; split; [reflexivity |];
          first [left; reflexivity | right; left; reflexivity]
        | right; eexists; split; reflexivity ].

Ltac unfmap :=
  repeat match goal with
         | Hx : _ <$> ?x = Some _ |- _ => destruct x; cbn in Hx; simplify_eq
         | Hx : _ <$> ?x = None |- _ => destruct x; cbn in Hx; simplify_eq
         end.

(** How lines 139-244 end: with an error and an empty ID, right after the
    first failure that stops the call; or, no such failure, with the ID of
    the event (redacted, when the Store said so) and the rejection error,
    if any. *)
Lemma store_outcome (input : InputRoomEvent) (nids : list EventNID)
    (rejErr : option error) (sf : bool) (w w' : W)
    (o : outcome (string * option error)) (t : list Call) :
  run h (processRoomEvent_store DeduplicateStateEntries input nids rejErr
           (rejected rejErr) sf) w = (o, w', t) →
  (noAbort (Kind_ input) t = false
   ∧ ∃ cl e, last t = Some cl ∧ aborts (Kind_ input) cl = true
             ∧ errorFrom cl e ∧ o = Returned ("", Some e))
  ∨ (noAbort (Kind_ input) t = true
     ∧ ∃ event,
         o = Returned (EventID event,
                       match Kind_ input with
                       | KindOutlier => None
                       | _ => rejErr
                       end)
         ∧ ((event = Unwrap (Event_ input) ∧ redactions t = [])
            ∨ ∃ rev,
                redactions t
                = [(rev, Unwrap (Event_ input), (event, None))])).
Proof.
  intros H. unfold processRoomEvent_store, calculateAndSetState in H.
  destruct rejErr as [rej |]; cbn [rejected] in H;
    crunch H; simplify_eq; prune; unfmap;
    first [ left; split; [vm_compute; reflexivity |];
            eexists _, _; split; [reflexivity |];
            split; [vm_compute; reflexivity |];
            (split; [| reflexivity]); origin
          | right; split; [vm_compute; reflexivity |];
            eexists; split; [reflexivity |];
            first [left; split; reflexivity | right; eexists; reflexivity] ].
Qed.

(** Lines 139-244 begin with the [StoreEvent] call for the input's event. *)
Lemma store_first (input : InputRoomEvent) (nids : list EventNID)
    (rejErr : option error) (isRej sf : bool) (w w' : W)
    (o : outcome (string * option error)) (t : list Call) :
  run h (processRoomEvent_store DeduplicateStateEntries input nids rejErr
           isRej sf) w = (o, w', t) →
  ∃ rest,
    t = MkCall (DB_StoreEvent (Unwrap (Event_ input)) nids isRej)
               (h _ (DB_StoreEvent (Unwrap (Event_ input)) nids isRej) w).1
        :: rest.
Proof.
  intros H. unfold processRoomEvent_store in H. cbv zeta in H.
  rewrite run_bind in H. cbn [call run] in H.
  destruct (h _ (DB_StoreEvent _ _ _) w) as [ans w1].
  cbn [fst] in *.
  destruct ans as [[[[nid sae] rev] rid] serr].
  match type of H with
  | context [run h ?p w1] => destruct (run h p w1) as [[o2 w2] t2]
  end.
  cbn in H. injection H as _ _ <-. eexists. reflexivity.
Qed.

Lemma noAbort_app (k : Kind) (t1 t2 : list Call) :
  noAbort k (t1 ++ t2) = noAbort k t1 && noAbort k t2.
Proof. unfold noAbort. apply forallb_app. Qed.

Lemma noFailure_noAbort (k : Kind) (t : list Call) :
  noFailure t = true → noAbort k t = true.
Proof.
  unfold noFailure, noAbort. rewrite !forallb_forall.
  intros Hok c Hc. specialize (Hok c Hc). unfold aborts.
  destruct (failed c); [discriminate Hok |].
  rewrite andb_false_r. reflexivity.
Qed.

(** A run that makes the declared-auth check: the calls before it stop
    nothing, and after the two auth checks the run is the run of lines
    139-244 on their answers. *)
Lemma reached_outcome (input : InputRoomEvent) (w : W)
    (nids : list EventNID) (rejErr : option error) :
  let r := run h (processRoomEvent RoomVersion_EventIDFormat
                    ReverseTopologicalOrdering DeduplicateStateEntries
                    input) w in
  authChecks (trace r) = [(nids, rejErr)] →
  ∃ t0 sf serr w1 t,
    trace r = t0 ++ authTrace input nids rejErr
                 ++ softFailTrace input sf serr ++ t
    ∧ Forall (λ c, frontCall c = true) t0
    ∧ noAbort (Kind_ input) t0 = true
    ∧ (Kind_ input ≠ KindNew → sf = false)
    ∧ run h (processRoomEvent_store DeduplicateStateEntries input nids
               rejErr (rejected rejErr) sf) w1
      = (result r, r.1.2, t).
Proof.
  intros r Hauth. subst r.
  destruct (processRoomEvent_paths h RoomVersion_EventIDFormat
              ReverseTopologicalOrdering DeduplicateStateEntries input w)
    as [(_ & _ & Htr) | (pre & w0 & Hpre & Hcases)].
  - rewrite Htr in Hauth. discriminate Hauth.
  - cbv zeta in Hcases.
    assert (Hfront : Forall (λ c, frontCall c = true) pre).
    { destruct Hpre as [(-> & _) | (-> & _)]; repeat constructor. }
    assert (Hpa : noAbort (Kind_ input) pre = true).
    { destruct Hpre as [(-> & _) | (-> & _)]; reflexivity. }
    destruct (checkForMissingAuthEvents_run h ReverseTopologicalOrdering
                (Event_ input) ∅ w0) as [Hcalls _].
    apply resolver_front in Hcalls.
    destruct (front_observations _ Hfront) as [Fp _].
    destruct (front_observations _ Hcalls) as [Fr _].
    destruct Hcases as [(m & _ & _ & Htr) | [(c & e0 & _ & _ & Htr)
                       | (c & nids' & rejErr' & sf & serr & w1 & t & Hrr & Hsf
                          & Hrun & Htr)]].
    + rewrite Htr in Hauth. unfold authChecks in *.
      rewrite omap_app, Fp, Fr in Hauth. discriminate Hauth.
    + rewrite Htr in Hauth. unfold authChecks in *.
      rewrite !omap_app, Fp, Fr in Hauth. discriminate Hauth.
    + destruct (store_calls h DeduplicateStateEntries _ _ _ _ _ _ _ _ _ Hrun)
        as (Ta & _).
      assert (Heq : [(nids', rejErr')] = [(nids, rejErr)]).
      { rewrite Htr in Hauth. unfold authChecks in *.
        rewrite !omap_app, Fp, Fr, Ta in Hauth.
        unfold authTrace, softFailTrace in Hauth.
        destruct rejErr', (Kind_ input), serr; exact Hauth. }
      injection Heq as -> ->.
      exists (pre ++ trace (run h (checkForMissingAuthEvents
                                     ReverseTopologicalOrdering
                                     (Event_ input) ∅) w0)), sf, serr, w1, t.
      split; [rewrite Htr, <- !app_assoc; reflexivity |].
      split; [apply Forall_app; split; assumption |].
      split; [| split; [exact Hsf | exact Hrun]].
      rewrite noAbort_app, Hpa. apply noFailure_noAbort.
      exact (proj2 (resolver_errors h ReverseTopologicalOrdering
                      (Event_ input) ∅ w0) c Hrr).
Qed.

(** What such a run shows is what its last phase shows. *)
Lemma reached_trace (input : InputRoomEvent) (t0 : list Call)
    (nids : list EventNID) (rejErr : option error) (sf : bool)
    (serr : option error) (t : list Call) :
  Forall (λ c, frontCall c = true) t0 →
  noAbort (Kind_ input) t0 = true →
  t ≠ [] →
  let tr := t0 ++ authTrace input nids rejErr
               ++ softFailTrace input sf serr ++ t in
  noAbort (Kind_ input) tr = noAbort (Kind_ input) t
  ∧ last tr = last t
  ∧ emissions tr = emissions t
  ∧ redactions tr = redactions t
  ∧ setStates tr = setStates t
  ∧ computedSnapshots tr = computedSnapshots t
  ∧ stateFailures tr = stateFailures t.
Proof.
  intros Ht0 Hno Hne tr. subst tr.
  split.
  { rewrite !noAbort_app, Hno. unfold authTrace, softFailTrace.
    destruct rejErr, (Kind_ input), serr; reflexivity. }
  split.
  { destruct t as [| c t]; [congruence |].
    rewrite !app_assoc. apply last_app_cons. }
  repeat split;
    (apply phases_lift; [front_none | reflexivity | reflexivity | exact Ht0]).
Qed.

(** ** An outlier that is already stored *)

(** C4: for an Outlier input whose event ID is already stored (the lookup
    by ID returns one event and no error): under the v1 event-ID format the
    call returns the existing event ID after the lookup and a log entry,
    storing nothing, exactly when the SHA-256 reference hashes are equal;
    when they differ it goes on with the full ingest: the missing-ancestor
    resolver runs and, unless it panics or fails, the declared-auth check is
    made and the event handed to [StoreEvent] with its answers.  Under any
    other event-ID format the call returns the existing event ID, storing
    nothing, whatever the hashes. *)
Theorem processRoomEvent_outlier_dedup (input : InputRoomEvent) (w w1 : W)
    (ev0 : types_Event) :
  Kind_ input = KindOutlier →
  h _ (DB_EventsFromIDs [EventID (Unwrap (Event_ input))]) w
  = (([ev0], None), w1) →
  let event := Unwrap (Event_ input) in
  let lookup := MkCall (DB_EventsFromIDs [EventID event]) ([ev0], None) in
  let logged := Log LvlInfo "Already processed event; ignoring" None in
  let skipped :=
    (Returned (EventID event, None), (h _ logged w1).2,
     [lookup; MkCall logged tt]) in
  let ingested :=
    (let '(o, w2, t) :=
       run h (processRoomEvent_ingest ReverseTopologicalOrdering
                DeduplicateStateEntries input) w1 in
     (o, w2, lookup :: t)) in
  let r := run h (processRoomEvent RoomVersion_EventIDFormat
                    ReverseTopologicalOrdering DeduplicateStateEntries
                    input) w in
  let rr := run h (checkForMissingAuthEvents ReverseTopologicalOrdering
                     (Event_ input) ∅) w1 in
  let full :=
    (∃ rest, trace r = lookup :: trace rr ++ rest)
    ∧ ((∃ m, result rr = Panicked m ∧ result r = Panicked m)
       ∨ (∃ c e,
            result rr = Returned (c, Some e)
            ∧ result r
              = Returned ("", Some (Wrapf "r.checkForMissingAuthEvents" e)))
       ∨ (∃ c nids rejErr,
            result rr = Returned (c, None)
            ∧ authChecks (trace r) = [(nids, rejErr)]
            ∧ last (stored (trace r))
              = Some (event, nids, rejected rejErr))) in
  stored (trace skipped) = []
  ∧ (RoomVersion_EventIDFormat (RoomVersion_ (Event_ input))
     = (EventIDFormatV1, None) →
     (EventSHA256 event = EventSHA256 (te_Event ev0) → r = skipped)
     ∧ (EventSHA256 event ≠ EventSHA256 (te_Event ev0) →
        r = ingested ∧ r ≠ skipped ∧ full))
  ∧ (∀ idFormat,
       idFormat ≠ EventIDFormatV1 →
       RoomVersion_EventIDFormat (RoomVersion_ (Event_ input))
       = (idFormat, None) →
       r = skipped).
Proof.
  intros Hkind Hlookup. cbv zeta. unfold processRoomEvent. cbv zeta.
  rewrite Hkind. exec. rewrite Hlookup. exec.
  split; [reflexivity |]. split.
  - intros ->. split; intros Hhash.
    + rewrite (bool_decide_eq_true_2 _ Hhash). exec.
      destruct (h _ (Log LvlInfo _ None) w1) as [[] w2]. reflexivity.
    + rewrite (bool_decide_eq_false_2 _ Hhash). exec.
      pose proof (ingest_resolver h ReverseTopologicalOrdering
                    DeduplicateStateEntries input w1) as Hing.
      cbv zeta in Hing.
      destruct (checkForMissingAuthEvents_run h ReverseTopologicalOrdering
                  (Event_ input) ∅ w1) as [Hcalls _].
      apply resolver_front in Hcalls.
      destruct (front_observations _ Hcalls) as [Fr _].
      pose proof (omap_none storeEventCall _ Hcalls) as Fs.
      destruct (run h (processRoomEvent_ingest _ _ input) w1)
        as [[o w2] t] eqn:Hrun.
      split; [reflexivity |].
      destruct (run h (checkForMissingAuthEvents _ (Event_ input) ∅) w1)
        as [[orr wrr] trr] eqn:Hrr.
      cbn [result trace fst snd] in *.
      destruct orr as [[c [e |]] | m].
      * injection Hing as -> -> ->.
        split; [intros Heq; discriminate Heq |].
        split; [eexists; reflexivity |].
        right. left. eexists _, _. split; reflexivity.
      * destruct Hing as (nids & rejErr & sf & serr & w3 & Hsf & Hing).
        destruct (run h (processRoomEvent_store _ _ _ _ _ _) w3)
          as [[o3 w4] t3] eqn:Hstore.
        injection Hing as -> -> ->.
        destruct (store_calls h DeduplicateStateEntries _ _ _ _ _ _ _ _ _
                    Hstore) as (Ta & _ & Tst & _).
        assert (Hauth : authChecks
                          (MkCall (DB_EventsFromIDs
                                     [EventID (Unwrap (Event_ input))])
                                  ([ev0], None)
                           :: trr ++ authTrace input nids rejErr
                              ++ softFailTrace input sf serr ++ t3)
                        = [(nids, rejErr)]).
        { unfold authChecks in *. cbn [omap list_omap storeEventCall].
          change (omap authCheckAnswer
                    (trr ++ authTrace input nids rejErr
                         ++ softFailTrace input sf serr ++ t3)
                  = [(nids, rejErr)]).
          rewrite !omap_app, Fr, Ta.
          unfold authTrace, softFailTrace. rewrite Hkind.
          destruct rejErr; reflexivity. }
        split.
        { intros Heq. apply (f_equal (λ x, authChecks x.2)) in Heq.
          assert (Hbad : [(nids, rejErr)] = @nil (list EventNID * option error))
            by (rewrite <- Hauth; exact Heq).
          discriminate Hbad. }
        split; [eexists; reflexivity |].
        right. right. exists c, nids, rejErr.
        split; [reflexivity |]. split; [exact Hauth |].
        unfold stored in *.
        change (last (omap storeEventCall
                        (trr ++ authTrace input nids rejErr
                             ++ softFailTrace input sf serr ++ t3))
                = Some (Unwrap (Event_ input), nids, rejected rejErr)).
        rewrite !app_assoc, omap_app, Tst. apply last_snoc.
      * injection Hing as -> -> ->.
        split; [intros Heq; discriminate Heq |].
        split; [exists []; rewrite app_nil_r; reflexivity |].
        left. eexists. split; reflexivity.
  - intros idFormat Hnew ->.
    destruct idFormat; [congruence | |]; exec;
      destruct (h _ (Log LvlInfo _ None) w1) as [[] w2]; reflexivity.
Qed.

(** ** A soft-failed event *)

(** A rejected or soft-failed event is not emitted. *)
Lemma store_quiet (input : InputRoomEvent) (nids : list EventNID)
    (rejErr : option error) (isRej sf : bool) (w w' : W)
    (o : outcome (string * option error)) (t : list Call) :
  run h (processRoomEvent_store DeduplicateStateEntries input nids rejErr
           isRej sf) w = (o, w', t) →
  isRej || sf = true →
  emissions t = [].
Proof.
  intros H Hq. unfold processRoomEvent_store, calculateAndSetState in H.
  rewrite Hq in H.
  crunch H; simplify_eq; reflexivity.
Qed.

(** C5 (as amended): the soft-fail check is made for New inputs only; and a
    New event that passes the declared-auth check and soft-fails is handed
    to [StoreEvent] as not rejected, no forward extremities are updated and
    no output is written.  When no call fails in a way that stops the call,
    it returns the ID of the event (of its redacted form when the Store
    paired it with a redaction) with a nil error; otherwise it returns an
    empty ID with the error of its last call, which is that failure. *)
Theorem processRoomEvent_softfail (input : InputRoomEvent) (w : W) :
  let r := run h (processRoomEvent RoomVersion_EventIDFormat
                    ReverseTopologicalOrdering DeduplicateStateEntries
                    input) w in
  (Kind_ input ≠ KindNew → softFailChecks (trace r) = [])
  ∧ (∀ nids serr,
       authChecks (trace r) = [(nids, None)] →
       softFailChecks (trace r) = [(true, serr)] →
       Kind_ input = KindNew
       ∧ last (stored (trace r)) = Some (Unwrap (Event_ input), nids, false)
       ∧ emissions (trace r) = []
       ∧ ((noAbort KindNew (trace r) = true
           ∧ ∃ event,
               result r = Returned (EventID event, None)
               ∧ ((event = Unwrap (Event_ input) ∧ redactions (trace r) = [])
                  ∨ ∃ redactionEvent,
                      redactions (trace r)
                      = [(redactionEvent, Unwrap (Event_ input),
                          (event, None))]))
          ∨ (noAbort KindNew (trace r) = false
             ∧ ∃ cl e,
                 last (trace r) = Some cl ∧ aborts KindNew cl = true
                 ∧ errorFrom cl e
                 ∧ result r = Returned ("", Some e)))).
Proof.
  intros r. split.
  - intros Hkind.
    destruct (processRoomEvent_run h RoomVersion_EventIDFormat
                ReverseTopologicalOrdering DeduplicateStateEntries input w)
      as [[Hfront _] | Hreach].
    + apply front_observations in Hfront.
      destruct Hfront as (_ & Hs & _). exact Hs.
    + apply reached_observations in Hreach. fold r in Hreach.
      destruct Hreach as (t0 & nids' & rejErr & sf & serr & w1 & t & _ & _
                          & _ & _ & Hs & _).
      rewrite Hs. destruct (Kind_ input); congruence.
  - intros nids serr Hauth Hsoft.
    destruct (reached_outcome input w nids None Hauth)
      as (t0 & sf & serr' & w1 & t & Htr & Ht0 & Hno & Hsf & Hrun).
    fold r in Htr, Hrun.
    assert (Hne : t ≠ []).
    { destruct (store_first _ _ _ _ _ _ _ _ _ Hrun) as [rest ->].
      discriminate. }
    destruct (reached_trace input t0 nids None sf serr' t Ht0 Hno Hne)
      as (Ra & Rl & Re & Rr & _).
    cbv zeta in Ra, Rl, Re, Rr. rewrite <- Htr in Ra, Rl, Re, Rr.
    destruct (front_observations _ Ht0) as (_ & F2 & _).
    destruct (store_calls h DeduplicateStateEntries _ _ _ _ _ _ _ _ _ Hrun)
      as (_ & Ts & Tst & _).
    assert (Hk : Kind_ input = KindNew ∧ sf = true).
    { rewrite Htr in Hsoft. unfold softFailChecks in *.
      rewrite !omap_app, F2, Ts in Hsoft.
      unfold authTrace, softFailTrace in Hsoft.
      destruct (Kind_ input), serr'; cbn in Hsoft; simplify_eq;
        split; reflexivity. }
    destruct Hk as [Hkind ->]. rewrite Hkind in *.
    split; [reflexivity |]. split.
    { rewrite Htr. unfold stored in *. rewrite !app_assoc, omap_app, Tst.
      apply last_snoc. }
    split.
    { rewrite Re.
      exact (store_quiet _ _ _ _ _ _ _ _ _ Hrun (orb_true_r _)). }
    rewrite Ra, Rl, Rr.
    destruct (store_outcome _ _ _ _ _ _ _ _ Hrun)
      as [(Hab & cl & e & Hl & Hcl & He & Ho)
         | (Hok & event & Ho & Hred)];
      rewrite Hkind in *.
    + right. split; [exact Hab |]. exists cl, e. auto.
    + left. split; [exact Hok |]. exists event. auto.
Qed.

(** ** An error of the soft-fail check *)

Ltac dispatch_leaf :=
  eexists _, _, _; (split; [| split; [| reflexivity]]);
  [| dispatched]; first [reflexivity | congruence].

(** The emission for the input's kind is the first thing emitted when
    nothing stops an event that is neither rejected nor soft-failed. *)
Lemma store_dispatches (input : InputRoomEvent) (nids : list EventNID)
    (w w' : W) (o : outcome (string * option error)) (t : list Call)
    (event : Event) (err : option error) :
  run h (processRoomEvent_store DeduplicateStateEntries input nids None
           false false) w = (o, w', t) →
  Kind_ input ≠ KindOutlier →
  noAbort (Kind_ input) t = true →
  o = Returned (EventID event, err) →
  ∃ event' d rest,
    EventID event' = EventID event
    ∧ dispatchFor input event' d ∧ emissions t = d :: rest.
Proof.
  intros H Hkind Hok Ho.
  unfold processRoomEvent_store, calculateAndSetState in H.
  crunch H; simplify_eq; prune;
    try (exfalso; congruence);
    unfmap;
    try (exfalso; vm_compute in Hok; discriminate Hok);
    dispatch_leaf.
Qed.

(** C9: when the soft-fail check of a New input comes back with an error,
    the call does not stop there: the error goes to the log, and the next
    call is [StoreEvent], for the input's event with the NIDs and the verdict
    of the declared-auth check; the rest of the run is the run of lines
    139-244 with [softfail] set to the boolean the check returned, whatever
    the error.  When no call fails in a way that stops the call, it returns
    the event's ID with the rejection error, if any; with the boolean true
    nothing is emitted, and with the boolean false an event that is not
    rejected gets the emission for a New input. *)
Theorem processRoomEvent_softfail_error_ignored (input : InputRoomEvent)
    (w : W) (softfail : bool) (err : error) :
  let r := run h (processRoomEvent RoomVersion_EventIDFormat
                    ReverseTopologicalOrdering DeduplicateStateEntries
                    input) w in
  softFailChecks (trace r) = [(softfail, Some err)] →
  Kind_ input = KindNew
  ∧ ∃ before authEventNIDs rejectionErr w1 rest,
      trace r
      = before
          ++ [MkCall (helpers_CheckForSoftFail (Event_ input)
                        (StateEventIDs input)) (softfail, Some err);
              MkCall (Log LvlInfo "Error authing soft-failed event"
                        (Some err)) tt]
          ++ rest
      ∧ softFailChecks before = []
      ∧ authChecks before = [(authEventNIDs, rejectionErr)]
      ∧ noAbort KindNew before = true
      ∧ run h (processRoomEvent_store DeduplicateStateEntries input
                 authEventNIDs rejectionErr (rejected rejectionErr)
                 softfail) w1
        = (result r, r.1.2, rest)
      ∧ (∃ ans rest',
           rest = MkCall (DB_StoreEvent (Unwrap (Event_ input))
                            authEventNIDs (rejected rejectionErr)) ans
                  :: rest')
      ∧ (softfail = true → emissions (trace r) = [])
      ∧ (noAbort KindNew (trace r) = true →
         ∃ event,
           result r = Returned (EventID event, rejectionErr)
           ∧ (softfail = false → rejectionErr = None →
              ∃ event' d rest',
                EventID event' = EventID event
                ∧ dispatchFor input event' d
                ∧ emissions (trace r) = d :: rest')).
Proof.
  intros r Hsoft.
  destruct (processRoomEvent_run h RoomVersion_EventIDFormat
              ReverseTopologicalOrdering DeduplicateStateEntries input w)
    as [[Hfront _] | Hreach].
  { apply front_observations in Hfront. destruct Hfront as (_ & Hnone & _).
    fold r in Hnone. congruence. }
  apply reached_observations in Hreach. fold r in Hreach.
  destruct Hreach as (t0' & nids & rejErr & sf' & serr' & w1' & t' & _
                      & _ & _ & Hauth & _).
  destruct (reached_outcome input w nids rejErr Hauth)
    as (t0 & sf & serr & w1 & t & Htr & Ht0 & Hno & Hsf & Hrun).
  fold r in Htr, Hrun.
  destruct (front_observations _ Ht0) as (F1 & F2 & _).
  destruct (store_calls h DeduplicateStateEntries _ _ _ _ _ _ _ _ _ Hrun)
    as (_ & Ts & _).
  assert (Hk : Kind_ input = KindNew ∧ sf = softfail ∧ serr = Some err).
  { rewrite Htr in Hsoft. unfold softFailChecks in *.
    rewrite !omap_app, F2, Ts in Hsoft.
    unfold authTrace, softFailTrace in Hsoft.
    destruct (Kind_ input), rejErr, serr; cbn in Hsoft; simplify_eq;
      repeat split; reflexivity. }
  destruct Hk as (Hkind & -> & ->).
  assert (Hne : t ≠ []).
  { destruct (store_first _ _ _ _ _ _ _ _ _ Hrun) as [rest ->].
    discriminate. }
  destruct (reached_trace input t0 nids rejErr softfail (Some err) t
              Ht0 Hno Hne) as (Ra & _ & Re & _).
  cbv zeta in Ra, Re. rewrite <- Htr in Ra, Re. rewrite Hkind in Ra.
  split; [exact Hkind |].
  exists (t0 ++ authTrace input nids rejErr), nids, rejErr, w1, t.
  split.
  { rewrite Htr. unfold softFailTrace. rewrite Hkind.
    rewrite <- !app_assoc. reflexivity. }
  split.
  { unfold softFailChecks in *. rewrite omap_app, F2.
    destruct rejErr; reflexivity. }
  split.
  { unfold authChecks in *. rewrite omap_app, F1.
    destruct rejErr; reflexivity. }
  split.
  { rewrite noAbort_app. rewrite Hkind in Hno. rewrite Hno.
    destruct rejErr; reflexivity. }
  split; [exact Hrun |].
  split.
  { destruct (store_first _ _ _ _ _ _ _ _ _ Hrun) as [rest Hrest].
    eexists _, rest. exact Hrest. }
  split.
  { intros ->. rewrite Re.
    exact (store_quiet _ _ _ _ _ _ _ _ _ Hrun (orb_true_r _)). }
  intros Hok. rewrite Ra in Hok.
  destruct (store_outcome _ _ _ _ _ _ _ _ Hrun)
    as [(Hab & _) | (_ & event & Ho & _)]; rewrite Hkind in *;
    [congruence |].
  exists event. split; [exact Ho |].
  intros -> ->. cbn [rejected] in Hrun. rewrite Re.
  eapply (store_dispatches _ _ _ _ _ _ _ _ Hrun).
  - congruence.
  - rewrite Hkind. exact Hok.
  - exact Ho.
Qed.

(** ** The state before a stored event *)

Lemma store_binds_state (input : InputRoomEvent) (nids : list EventNID)
    (rejErr : option error) (isRej sf : bool) (w w' : W)
    (o : outcome (string * option error)) (t : list Call)
    (id : string) (nid : EventNID) (sae : StateAtEvent)
    (rev : option Event) (rid : string) (serr : option error) :
  run h (processRoomEvent_store DeduplicateStateEntries input nids rejErr
           isRej sf) w = (o, w', t) →
  Kind_ input ≠ KindOutlier →
  o = Returned (id, None) →
  head (storeAnswers t) = Some (nid, sae, rev, rid, serr) →
  (BeforeStateSnapshotNID sae ≠ 0
   ∧ setStates t = [] ∧ computedSnapshots t = [] ∧ stateFailures t = [])
  ∨ (BeforeStateSnapshotNID sae = 0
     ∧ ((∃ snap, setStates t = [(sae_EventNID sae, snap, None)]
                 ∧ computedSnapshots t = [snap]
                 ∧ stateFailures t = [])
        ∨ (Kind_ input = KindOld
           ∧ ∃ e, stateFailures t = [e]
                  ∧ ((setStates t = [] ∧ computedSnapshots t = [])
                     ∨ ∃ snap,
                         setStates t = [(sae_EventNID sae, snap, Some e)]
                         ∧ computedSnapshots t = [snap])))).
Proof.
  intros H Hkind Ho Hans.
  unfold processRoomEvent_store, calculateAndSetState in H.
  crunch H; simplify_eq; prune;
    try (exfalso; congruence);
    cbn in Hans; simplify_eq;
    repeat match goal with
           | Hb : (_ =? 0)%Z = false |- _ => apply Z.eqb_neq in Hb
           | Hb : (_ =? 0)%Z = true |- _ => apply Z.eqb_eq in Hb
           end;
    first [ left; split; [assumption |]; repeat split; reflexivity
          | right; split; [assumption |];
            first [ left; eexists; repeat split; reflexivity
                  | right; split; [reflexivity |]; eexists;
                    split; [reflexivity |];
                    first [ left; split; reflexivity
                          | right; eexists; split; reflexivity ] ] ].
Qed.

(** C2 (as amended): for a New or Old event that the call stores and
    returns success for.  When [StoreEvent] reports a non-zero
    [BeforeStateSnapshotNID], the state is left as it is.  When it reports
    zero, a snapshot is computed, without any failure, and bound to the
    event's NID by a successful [SetState] before the return; the snapshot
    bound is the one the computation answered.  Except that for an Old event
    the computation or the binding may have failed, the error being ignored:
    then one call of the state computation failed and no snapshot is
    bound. *)
Theorem processRoomEvent_state_bound (input : InputRoomEvent) (w : W)
    (id : string) (nid : EventNID) (sae : StateAtEvent) (rev : option Event)
    (rid : string) (serr : option error) :
  let r := run h (processRoomEvent RoomVersion_EventIDFormat
                    ReverseTopologicalOrdering DeduplicateStateEntries
                    input) w in
  Kind_ input ≠ KindOutlier →
  result r = Returned (id, None) →
  last (storeAnswers (trace r)) = Some (nid, sae, rev, rid, serr) →
  (BeforeStateSnapshotNID sae ≠ 0
   ∧ setStates (trace r) = [] ∧ computedSnapshots (trace r) = []
   ∧ stateFailures (trace r) = [])
  ∨ (BeforeStateSnapshotNID sae = 0
     ∧ ((∃ snap, setStates (trace r) = [(sae_EventNID sae, snap, None)]
                 ∧ computedSnapshots (trace r) = [snap]
                 ∧ stateFailures (trace r) = [])
        ∨ (Kind_ input = KindOld
           ∧ ∃ e, stateFailures (trace r) = [e]
                  ∧ ((setStates (trace r) = []
                      ∧ computedSnapshots (trace r) = [])
                     ∨ ∃ snap,
                         setStates (trace r)
                         = [(sae_EventNID sae, snap, Some e)]
                         ∧ computedSnapshots (trace r) = [snap])))).
Proof.
  intros r Hkind Hres Hans.
  destruct (processRoomEvent_run h RoomVersion_EventIDFormat
              ReverseTopologicalOrdering DeduplicateStateEntries input w)
    as [[_ Hstop] | Hreach].
  - fold r in Hstop. rewrite Hres in Hstop.
    destruct Hstop as [[m Hm] | [[e He] | [Ho _]]]; congruence.
  - apply reached_observations in Hreach. fold r in Hreach.
    destruct Hreach as (t0 & nids & rejErr & sf & serr' & w1 & t & [Ht0 Htr]
                        & Hrun & _ & _ & _ & _ & _ & Hset & Hcomp & _ & _ & _
                        & Hlast & _).
    rewrite Hlast in Hans. rewrite Hset, Hcomp.
    assert (Hsf : stateFailures (trace r) = stateFailures t).
    { rewrite Htr. apply phases_lift;
        [front_none | reflexivity | reflexivity | exact Ht0]. }
    rewrite Hsf.
    exact (store_binds_state _ _ _ _ _ _ _ _ _ _ _ _ _ _ _
             Hrun Hkind Hres Hans).
Qed.

(** ** The redacted-event output *)

Lemma store_redaction_output (input : InputRoomEvent) (nids : list EventNID)
    (w w' : W) (o : outcome (string * option error)) (t : list Call)
    (nid : EventNID) (sae : StateAtEvent) (rev : option Event)
    (rid : string) (serr : option error) :
  run h (processRoomEvent_store DeduplicateStateEntries input nids None
           false false) w = (o, w', t) →
  Kind_ input ≠ KindOutlier →
  head (storeAnswers t) = Some (nid, sae, rev, rid, serr) →
  rid ≠ "" →
  ∃ event,
    ((event = Unwrap (Event_ input) ∧ redactions t = [])
     ∨ ∃ rerr, redactions t = [(rev, Unwrap (Event_ input), (event, rerr))])
    ∧ noAbort (Kind_ input) (removelast t) = true
    ∧ ((∃ d werr,
          dispatchFor input event d
          ∧ emissions t = [d; redactionOutput input event rev rid]
          ∧ last t
            = Some (MkCall (WriteOutputEvents (RoomID event)
                              [OutputTypeRedactedEvent rid
                                 (Headered rev (RoomVersion_ (Event_ input)))])
                           werr)
          ∧ o = Returned
                  match werr with
                  | None => (EventID event, None)
                  | Some e =>
                      ("", Some (Wrapf "r.WriteOutputEvents (redactions)" e))
                  end)
       ∨ (∃ cl e,
            last t = Some cl ∧ aborts (Kind_ input) cl = true
            ∧ errorFrom cl e
            ∧ o = Returned ("", Some e)
            ∧ (emissions t = []
               ∨ ∃ d, dispatchFor input event d ∧ emissions t = [d]
                      ∧ emission cl = Some d))).
Proof.
  intros H Hkind Hans Hrid.
  unfold processRoomEvent_store, calculateAndSetState in H.
  crunch H; simplify_eq; prune;
    try (exfalso; congruence);
    cbn in Hans; simplify_eq;
    try match goal with
        | Hb : negb (_ =? "")%string = false |- _ =>
            exfalso; apply negb_false_iff, String.eqb_eq in Hb; congruence
        end;
    unfmap;
    eexists;
    (split; [first [left; split; reflexivity | right; eexists; reflexivity] |]);
    (split; [vm_compute; reflexivity |]);
    first [ left; eexists _, _;
            (split; [| split; [reflexivity | split; reflexivity]]);
            dispatched
          | right; eexists _, _;
            (split; [reflexivity |]);
            (split; [vm_compute; reflexivity |]);
            (split; [| split; [reflexivity |]]);
            [ origin
            | first [ left; reflexivity
                    | right; eexists;
                      (split; [| split; reflexivity]); dispatched ] ] ].
Qed.

(** C8 (as amended): for a New or Old event that is not rejected and not
    soft-failed and for which [StoreEvent] reports a non-empty
    [redactedEventID]: when every call before it succeeds, the call writes
    exactly one redacted-event output, carrying that ID and the redaction
    event, as its last call and right after the emission for the input's
    kind (the extremity update that produces the new-room-event entry, or
    the old-room-event output), nothing else being emitted; it then returns
    the event's ID, or the error of that write.  Otherwise the call stops at
    the first call that fails, returns its error with an empty ID, and writes
    no redacted-event output: nothing is emitted, or only the emission for
    the input's kind when that is the call that failed. *)
Theorem processRoomEvent_redaction_output (input : InputRoomEvent) (w : W)
    (nids : list EventNID) (nid : EventNID) (sae : StateAtEvent)
    (rev : option Event) (rid : string) (serr : option error) :
  let r := run h (processRoomEvent RoomVersion_EventIDFormat
                    ReverseTopologicalOrdering DeduplicateStateEntries
                    input) w in
  Kind_ input ≠ KindOutlier →
  authChecks (trace r) = [(nids, None)] →
  Forall (λ a, a.1 = false) (softFailChecks (trace r)) →
  last (storeAnswers (trace r)) = Some (nid, sae, rev, rid, serr) →
  rid ≠ "" →
  ∃ event,
    ((event = Unwrap (Event_ input) ∧ redactions (trace r) = [])
     ∨ ∃ rerr,
         redactions (trace r)
         = [(rev, Unwrap (Event_ input), (event, rerr))])
    ∧ noAbort (Kind_ input) (removelast (trace r)) = true
    ∧ ((∃ d werr,
          dispatchFor input event d
          ∧ emissions (trace r) = [d; redactionOutput input event rev rid]
          ∧ last (trace r)
            = Some (MkCall (WriteOutputEvents (RoomID event)
                              [OutputTypeRedactedEvent rid
                                 (Headered rev (RoomVersion_ (Event_ input)))])
                           werr)
          ∧ result r
            = Returned
                match werr with
                | None => (EventID event, None)
                | Some e =>
                    ("", Some (Wrapf "r.WriteOutputEvents (redactions)" e))
                end)
       ∨ (∃ cl e,
            last (trace r) = Some cl ∧ aborts (Kind_ input) cl = true
            ∧ errorFrom cl e
            ∧ result r = Returned ("", Some e)
            ∧ (emissions (trace r) = []
               ∨ ∃ d, dispatchFor input event d ∧ emissions (trace r) = [d]
                      ∧ emission cl = Some d))).
Proof.
  intros r Hkind Hauth Hsoft Hans Hrid.
  destruct (reached_outcome input w nids None Hauth)
    as (t0 & sf & serr' & w1 & t & Htr & Ht0 & Hno & Hsf & Hrun).
  fold r in Htr, Hrun.
  assert (Hne : t ≠ []).
  { destruct (store_first _ _ _ _ _ _ _ _ _ Hrun) as [rest ->].
    discriminate. }
  destruct (reached_trace input t0 nids None sf serr' t Ht0 Hno Hne)
    as (_ & Rl & Re & Rr & _).
  cbv zeta in Rl, Re, Rr. rewrite <- Htr in Rl, Re, Rr.
  destruct (front_observations _ Ht0) as (_ & F2 & _).
  destruct (store_calls h DeduplicateStateEntries _ _ _ _ _ _ _ _ _ Hrun)
    as (_ & Ts & _ & Tans & _).
  assert (sf = false) as ->.
  { rewrite Htr in Hsoft. unfold softFailChecks in *.
    rewrite !omap_app, F2, Ts in Hsoft.
    unfold authTrace, softFailTrace in Hsoft.
    destruct (Kind_ input) eqn:Hk; [congruence | | apply Hsf; congruence].
    destruct serr'; apply Forall_cons in Hsoft; exact (proj1 Hsoft). }
  assert (Hhead : head (storeAnswers t) = Some (nid, sae, rev, rid, serr)).
  { rewrite Htr in Hans. unfold storeAnswers in *.
    rewrite !app_assoc, omap_app, Tans in Hans.
    rewrite last_snoc in Hans. rewrite Tans. exact Hans. }
  assert (Hrem : noAbort (Kind_ input) (removelast (trace r))
                 = noAbort (Kind_ input) (removelast t)).
  { rewrite Htr, !app_assoc, removelast_app by exact Hne.
    rewrite <- !app_assoc, !noAbort_app, Hno.
    unfold authTrace, softFailTrace.
    destruct (Kind_ input), serr'; reflexivity. }
  cbn [rejected] in Hrun.
  rewrite Rl, Re, Rr, Hrem.
  exact (store_redaction_output _ _ _ _ _ _ _ _ _ _ _ Hrun Hkind Hhead Hrid).
Qed.

(** ** Panics *)

Lemma store_returns (input : InputRoomEvent) (nids : list EventNID)
    (rejErr : option error) (isRej sf : bool) (w w' : W)
    (o : outcome (string * option error)) (t : list Call) :
  run h (processRoomEvent_store DeduplicateStateEntries input nids rejErr
           isRej sf) w = (o, w', t) →
  ∃ id err, o = Returned (id, err).
Proof.
  intros H. unfold processRoomEvent_store, calculateAndSetState in H.
  crunch H; simplify_eq; eauto.
Qed.

(** [RedactEvent] is called at most once, on the input's event, for an event
    that is not rejected and after a [StoreEvent] that succeeded and reported
    the event's own ID; the redaction event it gets is the reported one. *)
Lemma store_redaction_call (input : InputRoomEvent) (nids : list EventNID)
    (rejErr : option error) (isRej sf : bool) (w w' : W)
    (o : outcome (string * option error)) (t : list Call)
    (rev : option Event) (ev : Event) (ans : Event * option error) :
  run h (processRoomEvent_store DeduplicateStateEntries input nids rejErr
           isRej sf) w = (o, w', t) →
  In (rev, ev, ans) (redactions t) →
  isRej = false ∧ ev = Unwrap (Event_ input)
  ∧ redactions t = [(rev, ev, ans)]
  ∧ ∃ nid sae,
      head (storeAnswers t) = Some (nid, sae, rev, EventID ev, None).
Proof.
  intros H Hin. unfold processRoomEvent_store, calculateAndSetState in H.
  crunch H; simplify_eq; prune;
    cbn in Hin; try contradiction;
    destruct Hin as [Hin | []]; simplify_eq;
    repeat match goal with
           | Hb : _ && (_ =? _)%string = true |- _ =>
               apply andb_true_iff in Hb; destruct Hb as [Hb1 Hb2];
               apply String.eqb_eq in Hb2; apply negb_true_iff in Hb1
           end;
    subst; (split; [reflexivity |]); (split; [reflexivity |]);
    (split; [reflexivity |]); eexists _, _; reflexivity.
Qed.

(** X20: the code of [processRoomEvent] itself panics in one situation
    only: the resolver's first lookup came back without an error and with
    more entries than the event has auth event IDs (the slice capacity of
    line 264 is negative); that lookup is then the call's last call, and
    nothing has been stored, checked or emitted.  And [RedactEvent] is handed
    a nil redaction event in one situation only: the declared-auth check
    accepted the event, and its [StoreEvent] call succeeded and reported the
    event's own ID as redacted, without a redaction event; the event is then
    stored, as not rejected, when [RedactEvent] is called. *)
Theorem processRoomEvent_panics (input : InputRoomEvent) (w : W) :
  let ids := AuthEventIDs (Unwrap (Event_ input)) in
  let event := Unwrap (Event_ input) in
  let r := run h (processRoomEvent RoomVersion_EventIDFormat
                    ReverseTopologicalOrdering DeduplicateStateEntries
                    input) w in
  (∀ m, result r = Panicked m →
        m = "makeslice: cap out of range"
        ∧ (∃ known,
             last (trace r) = Some (MkCall (DB_EventNIDs ids) (known, None))
             ∧ (length ids < size known)%nat)
        ∧ stored (trace r) = [] ∧ authChecks (trace r) = []
        ∧ emissions (trace r) = [])
  ∧ ((∃ ev ans, In (None, ev, ans) (redactions (trace r)))
     ↔ ∃ nids nid sae,
         authChecks (trace r) = [(nids, None)]
         ∧ last (stored (trace r)) = Some (event, nids, false)
         ∧ last (storeAnswers (trace r))
           = Some (nid, sae, None, EventID event, None)).
Proof.
  intros ids event r. subst ids event r. split.
  - intros m Hres.
    destruct (processRoomEvent_paths h RoomVersion_EventIDFormat
                ReverseTopologicalOrdering DeduplicateStateEntries input w)
      as [(_ & Hr & _) | (pre & w0 & Hpre & Hcases)].
    { rewrite Hr in Hres. discriminate Hres. }
    cbv zeta in Hcases.
    destruct Hcases as [(m0 & Hrr & Hr & Htr) | [(c & e0 & _ & Hr & _)
                       | (c & nids & rejErr & sf & serr & w1 & t & _ & _
                          & Hrun & _)]].
    + rewrite Hr in Hres. injection Hres as ->.
      destruct (resolver_panics_iff h ReverseTopologicalOrdering
                  (Event_ input) ∅ w0) as [Hiff _].
      assert (Hcond := proj1 Hiff (ex_intro _ m Hrr)).
      destruct Hcond as (Hi & Hn & Hc).
      destruct (checkForMissingAuthEvents_cases h ReverseTopologicalOrdering
                  (Event_ input) ∅ w0)
        as [[Hi' _] | [(_ & e1 & He1 & _) | [(_ & _ & _ & Hrun)
           | [(_ & _ & Hc' & _) | (_ & _ & Hc' & _)]]]];
        [congruence | congruence | | lia | lia].
      rewrite Htr. rewrite Hrun in Hrr |- *. cbn [result trace fst snd] in *.
      injection Hrr as <-.
      destruct (h _ (DB_EventNIDs _) w0) as [[known kerr] w2].
      cbn [fst snd] in *. subst kerr.
      split; [reflexivity |]. split.
      * exists known. split; [| exact Hc].
        destruct Hpre as [(-> & _) | (-> & _)]; reflexivity.
      * destruct Hpre as [(-> & _) | (-> & _)]; repeat split; reflexivity.
    + rewrite Hr in Hres. discriminate Hres.
    + destruct (store_returns _ _ _ _ _ _ _ _ _ Hrun) as (id & err & Ho).
      rewrite Ho in Hres. discriminate Hres.
  - destruct (processRoomEvent_run h RoomVersion_EventIDFormat
                ReverseTopologicalOrdering DeduplicateStateEntries input w)
      as [[Hfront _] | Hreach].
    { apply front_observations in Hfront.
      destruct Hfront as (Ha & _ & _ & Hr & _).
      rewrite Ha, Hr. split.
      - intros (ev & ans & []).
      - intros (nids & nid & sae & Hauth & _). discriminate Hauth. }
    apply reached_observations in Hreach.
    destruct Hreach as (t0 & nids & rejErr & sf & serr & w1 & t & _ & Hrun
                        & _ & Ha & _ & _ & Hr & _ & _ & _ & _ & Hst & Hlast
                        & _).
    rewrite Ha, Hr, Hst, Hlast. split.
    + intros (ev & ans & Hin).
      destruct (store_redaction_call _ _ _ _ _ _ _ _ _ _ _ _ Hrun Hin)
        as (Hrej & -> & _ & nid & sae & Hhead).
      destruct rejErr; [discriminate Hrej |].
      exists nids, nid, sae. split; [reflexivity |].
      split; [reflexivity | exact Hhead].
    + intros (nids' & nid & sae & Hauth & Hstored & Hhead).
      injection Hauth as <- ->. cbn [rejected] in Hrun.
      destruct (store_uses_redacted h DeduplicateStateEntries _ _ _ _ _ _ _ _
                  _ _ _ Hrun Hhead) as (redacted & rerr & Hred & _).
      rewrite Hred. eexists _, _. left. reflexivity.
Qed.

End Outcomes.

(** ** Concrete runs of the outcomes *)

Lemma processRoomEvent_outlier_dedup_witness :
  let same := demoInput KindOutlier (demoEvent "$A" []) in
  let other := demoInput KindOutlier reissuedA in
  let stored_A := mkTypesEvent 1 (demoEvent "$A" []) in
  let r := run (memory quietScript)
             (processRoomEvent demoEventIDFormat demoOrdering demoDedup same)
             worldWithA in
  let r' := run (memory quietScript)
              (processRoomEvent demoEventIDFormat demoOrdering demoDedup
                 other) worldWithA in
  r = (Returned ("$A", None), worldWithA,
       [MkCall (DB_EventsFromIDs ["$A"]) ([stored_A], None);
        MkCall (Log LvlInfo "Already processed event; ignoring" None) tt])
  ∧ r' ≠ (Returned ("$A", None), worldWithA,
          [MkCall (DB_EventsFromIDs ["$A"]) ([stored_A], None);
           MkCall (Log LvlInfo "Already processed event; ignoring" None) tt])
  ∧ ∃ nids rejErr,
      authChecks (trace r') = [(nids, rejErr)]
      ∧ last (stored (trace r')) = Some (reissuedA, nids, rejected rejErr).
Proof.
  split.
  - destruct (processRoomEvent_outlier_dedup (memory quietScript)
                demoEventIDFormat demoOrdering demoDedup
                (demoInput KindOutlier (demoEvent "$A" []))
                worldWithA worldWithA (mkTypesEvent 1 (demoEvent "$A" []))
                eq_refl eq_refl) as [_ [Hv1 _]].
    destruct (Hv1 eq_refl) as [Hsame _].
    exact (Hsame eq_refl).
  - destruct (processRoomEvent_outlier_dedup (memory quietScript)
                demoEventIDFormat demoOrdering demoDedup
                (demoInput KindOutlier reissuedA)
                worldWithA worldWithA (mkTypesEvent 1 (demoEvent "$A" []))
                eq_refl eq_refl) as [_ [Hv1 _]].
    destruct (Hv1 eq_refl) as [_ Hother].
    destruct Hother as (_ & Hne & _ & Hfull).
    { vm_compute. discriminate. }
    split; [exact Hne |].
    destruct Hfull as [(m & Hm & _) | [(c & e & He & _)
                      | (c & nids & rejErr & _ & Hauth & Hstored)]].
    + vm_compute in Hm. discriminate Hm.
    + vm_compute in He. discriminate He.
    + exists nids, rejErr. split; [exact Hauth | exact Hstored].
Defined.

Lemma processRoomEvent_softfail_witness :
  let r := run (memory softFailingScript)
             (processRoomEvent demoEventIDFormat demoOrdering demoDedup
                (demoInput KindNew (demoEvent "$E" []))) emptyWorld in
  last (stored (trace r)) = Some (demoEvent "$E" [], [], false)
  ∧ emissions (trace r) = []
  ∧ noAbort KindNew (trace r) = true
  ∧ ∃ event,
      result r = Returned (EventID event, None)
      ∧ ((event = demoEvent "$E" [] ∧ redactions (trace r) = [])
         ∨ ∃ redactionEvent,
             redactions (trace r)
             = [(redactionEvent, demoEvent "$E" [], (event, None))]).
Proof.
  destruct (proj2 (processRoomEvent_softfail (memory softFailingScript)
                     demoEventIDFormat demoOrdering demoDedup
                     (demoInput KindNew (demoEvent "$E" [])) emptyWorld)
              [] None) as (_ & Hstored & Hemit & Hres).
  - vm_compute. reflexivity.
  - vm_compute. reflexivity.
  - split; [exact Hstored |]. split; [exact Hemit |].
    destruct Hres as [[Hok Hret] | [Hab _]].
    + split; [exact Hok | exact Hret].
    + vm_compute in Hab. discriminate Hab.
Defined.

(** C5 as stated fails when [StoreEvent] fails: the event passes the
    declared-auth check and soft-fails, the Store refuses it, and the call
    returns an empty ID with the Store's error, not the event's ID with a nil
    error; the event is not stored. *)
Lemma processRoomEvent_softfail_counterexample :
  let input := demoInput KindNew (demoEvent "$E" []) in
  let r := run (faulty StoreEventFails softFailingScript)
             (processRoomEvent demoEventIDFormat demoOrdering demoDedup input)
             emptyWorld in
  Kind_ input = KindNew
  ∧ authChecks (trace r) = [([], None)]
  ∧ softFailChecks (trace r) = [(true, None)]
  ∧ result r = Returned ("", Some (Wrapf "r.DB.StoreEvent"
                                     (Opaque "sql: connection is closed")))
  ∧ interned r.1.2 = ∅
  ∧ result r ≠ Returned ("$E", None).
Proof.
  vm_compute. repeat split. discriminate.
Qed.

Lemma processRoomEvent_state_bound_witness :
  let r := run (memory quietScript)
             (processRoomEvent demoEventIDFormat demoOrdering demoDedup
                (demoInput KindNew (demoEvent "$E" []))) emptyWorld in
  ∃ snap, setStates (trace r) = [(1, snap, None)]
          ∧ computedSnapshots (trace r) = [snap]
          ∧ stateFailures (trace r) = [].
Proof.
  destruct (processRoomEvent_state_bound (memory quietScript)
              demoEventIDFormat demoOrdering demoDedup
              (demoInput KindNew (demoEvent "$E" [])) emptyWorld
              "$E" 1 (mkStateAtEvent false 0 1) None "" None)
    as [[Hnz _] | [_ [Hbound | [Hold _]]]].
  - discriminate.
  - vm_compute. reflexivity.
  - vm_compute. reflexivity.
  - exfalso. apply Hnz. reflexivity.
  - exact Hbound.
  - discriminate Hold.
Defined.

(** C2 as stated fails in two ways.  On an Old input: [StoreEvent] reports a
    zero [BeforeStateSnapshotNID], the state computation fails, and the call
    still returns the event ID with a nil error; the event is not rejected,
    [SetState] was never called and the Store holds no binding.  On a New
    input whose state computation answers the zero snapshot without an
    error: the call binds snapshot zero and returns success. *)
Lemma processRoomEvent_state_bound_counterexample :
  let old := demoInput KindOld (demoEvent "$E" []) in
  let new := demoInput KindNew (demoEvent "$E" []) in
  let r := run (memory stateFailureScript)
             (processRoomEvent demoEventIDFormat demoOrdering demoDedup old)
             emptyWorld in
  let r' := run (faulty ResolverAnswersZero quietScript)
              (processRoomEvent demoEventIDFormat demoOrdering demoDedup new)
              emptyWorld in
  (Kind_ old ≠ KindOutlier
   ∧ authChecks (trace r) = [([], None)]
   ∧ storeAnswers (trace r) = [(1, mkStateAtEvent false 0 1, None, "", None)]
   ∧ result r = Returned ("$E", None)
   ∧ setStates (trace r) = []
   ∧ bound r.1.2 = []
   ∧ ¬ ∃ snap, In (1, snap, None) (setStates (trace r)))
  ∧ (Kind_ new ≠ KindOutlier
     ∧ authChecks (trace r') = [([], None)]
     ∧ storeAnswers (trace r')
       = [(1, mkStateAtEvent false 0 1, None, "", None)]
     ∧ result r' = Returned ("$E", None)
     ∧ setStates (trace r') = [(1, 0, None)]
     ∧ bound r'.1.2 = [(1, 0)]).
Proof.
  vm_compute. repeat split; try discriminate. intros [snap []].
Qed.

Lemma processRoomEvent_softfail_error_ignored_witness :
  let input := demoInput KindNew (demoEvent "$E" []) in
  let r := run (memory softFailErrorScript)
             (processRoomEvent demoEventIDFormat demoOrdering demoDedup input)
             emptyWorld in
  Kind_ input = KindNew
  ∧ stored (trace r) = [(demoEvent "$E" [], [], false)]
  ∧ ∃ event event' d rest',
      result r = Returned (EventID event, None)
      ∧ EventID event' = EventID event
      ∧ dispatchFor input event' d
      ∧ emissions (trace r) = d :: rest'.
Proof.
  destruct (processRoomEvent_softfail_error_ignored
              (memory softFailErrorScript)
              demoEventIDFormat demoOrdering demoDedup
              (demoInput KindNew (demoEvent "$E" [])) emptyWorld false
              (Opaque "state event not found"))
    as (Hkind & before & nids & rejErr & w1 & rest & _ & _ & _ & _ & _ & _
        & _ & Hgoes).
  - vm_compute. reflexivity.
  - split; [exact Hkind |]. split; [vm_compute; reflexivity |].
    destruct Hgoes as (event & Hres & Hemit).
    { vm_compute. reflexivity. }
    assert (Hrej : rejErr = None).
    { vm_compute in Hres. injection Hres as _ Hrej. symmetry. exact Hrej. }
    subst rejErr.
    destruct (Hemit eq_refl eq_refl) as (event' & d & rest' & Hid & Hd & He).
    exists event, event', d, rest'.
    split; [exact Hres |]. split; [exact Hid |]. split; [exact Hd | exact He].
Defined.

Lemma processRoomEvent_redaction_output_witness :
  let old := demoInput KindOld (demoEvent "$X" []) in
  let new := demoInput KindNew (demoEvent "$X" []) in
  let r := run (memory redactingScript)
             (processRoomEvent demoEventIDFormat demoOrdering demoDedup old)
             emptyWorld in
  let r' := run (memory redactingScript)
              (processRoomEvent demoEventIDFormat demoOrdering demoDedup new)
              emptyWorld in
  (∃ event d,
     dispatchFor old event d
     ∧ emissions (trace r)
       = [d; redactionOutput old event (Some redactionOfE) "$E"])
  ∧ (∃ event d,
       dispatchFor new event d
       ∧ emissions (trace r')
         = [d; redactionOutput new event (Some redactionOfE) "$E"]).
Proof.
  split.
  - destruct (processRoomEvent_redaction_output (memory redactingScript)
                demoEventIDFormat demoOrdering demoDedup
                (demoInput KindOld (demoEvent "$X" [])) emptyWorld
                [] 1 (mkStateAtEvent false 0 1) (Some redactionOfE) "$E" None)
      as (event & _ & _ & [(d & werr & Hd & Hemit & _)
                          | (cl & e & _ & _ & _ & Hres & _)]).
    + discriminate.
    + vm_compute. reflexivity.
    + vm_compute. constructor.
    + vm_compute. reflexivity.
    + discriminate.
    + exists event, d. split; [exact Hd | exact Hemit].
    + vm_compute in Hres. discriminate Hres.
  - destruct (processRoomEvent_redaction_output (memory redactingScript)
                demoEventIDFormat demoOrdering demoDedup
                (demoInput KindNew (demoEvent "$X" [])) emptyWorld
                [] 1 (mkStateAtEvent false 0 1) (Some redactionOfE) "$E" None)
      as (event & _ & _ & [(d & werr & Hd & Hemit & _)
                          | (cl & e & _ & _ & _ & Hres & _)]).
    + discriminate.
    + vm_compute. reflexivity.
    + vm_compute. repeat constructor.
    + vm_compute. reflexivity.
    + discriminate.
    + exists event, d. split; [exact Hd | exact Hemit].
    + vm_compute in Hres. discriminate Hres.
Defined.

(** C8 as stated fails when a call before the output fails: the event is
    neither an outlier nor rejected nor soft-failed, [StoreEvent] reports the
    redacted event ID "$E", the room lookup finds no room, and the call
    returns an error having emitted nothing: no redacted-event output. *)
Lemma processRoomEvent_redaction_output_counterexample :
  let input := demoInput KindOld (demoEvent "$X" []) in
  let r := run (faulty RoomUnknown redactingScript)
             (processRoomEvent demoEventIDFormat demoOrdering demoDedup input)
             emptyWorld in
  Kind_ input ≠ KindOutlier
  ∧ authChecks (trace r) = [([], None)]
  ∧ softFailChecks (trace r) = []
  ∧ storeAnswers (trace r)
    = [(1, mkStateAtEvent false 0 1, Some redactionOfE, "$E", None)]
  ∧ emissions (trace r) = []
  ∧ outputLog r.1.2 = []
  ∧ result r
    = Returned ("", Some (Strf "r.DB.RoomInfo missing for room" "!room:host")).
Proof.
  vm_compute. repeat split. discriminate.
Qed.

Lemma processRoomEvent_panics_witness :
  let input := demoInput KindNew (demoEvent "$E" ["$B"]) in
  let input' := demoInput KindNew (demoEvent "$E" []) in
  let r := run (faulty NIDLookupOverfull quietScript)
             (processRoomEvent demoEventIDFormat demoOrdering demoDedup input)
             emptyWorld in
  let r' := run (memory nilRedactionScript)
              (processRoomEvent demoEventIDFormat demoOrdering demoDedup
                 input') emptyWorld in
  ((∃ known,
      last (trace r) = Some (MkCall (DB_EventNIDs ["$B"]) (known, None))
      ∧ (length ["$B"] < size known)%nat)
   ∧ stored (trace r) = [] ∧ authChecks (trace r) = []
   ∧ emissions (trace r) = [])
  ∧ ∃ ev ans, In (None, ev, ans) (redactions (trace r')).
Proof.
  split.
  - apply (proj1 (processRoomEvent_panics
                    (faulty NIDLookupOverfull quietScript)
                    demoEventIDFormat demoOrdering demoDedup
                    (demoInput KindNew (demoEvent "$E" ["$B"])) emptyWorld)
             "makeslice: cap out of range").
    vm_compute. reflexivity.
  - apply (proj2 (processRoomEvent_panics (memory nilRedactionScript)
                    demoEventIDFormat demoOrdering demoDedup
                    (demoInput KindNew (demoEvent "$E" [])) emptyWorld)).
    exists [], 1, (mkStateAtEvent false 0 1).
    vm_compute. repeat split.
Defined.
